(** * Plugin provisioning: pkg/plugins/plugins.go

    A shallow embedding of [SetupRemotePlugins],
    [checkRemotePluginsConfiguration], [SetupLocalPlugins] and
    [checkLocalPluginManifest], with the properties of the provisioning
    pipeline proved over it.

    Modelling choices.
    - A Go [map[string]T] is a reference that may be nil: [option (gmap string T)],
      [None] being the nil map.  The map handed to [SetupRemotePlugins] is
      shared with the caller, so it lives in the world the function runs in
      ([mapObj]) and [delete] updates it there.
    - Go leaves the iteration order of [range] over a map unspecified.  Every
      loop over a map takes the order it happens to run in as a list of
      entries; the theorems hold for every order that enumerates the map
      ([ranges]).
    - The [Client] is an external collaborator: a record of operations over
      an abstract client state.  Every call is logged with its result.
    - [fmt.Errorf] values keep their format, their string operands and the
      operand of [%w]; [fmt.Sprintf] is computed (only [%s] occurs).
    - The debug and warning lines sent to the logger have no effect on the
      control flow and are left out. *)

From Stdlib Require Import Ascii String.
From stdpp Require Import base option list strings gmap fin_maps sets.

(** ** Strings *)

(** [strings.HasPrefix]. *)
Definition strings_HasPrefix (s pre : string) : bool := String.prefix pre s.

(** [strings.HasSuffix]: [len(s) >= len(suffix) && s[len(s)-len(suffix):] == suffix]. *)
Definition strings_HasSuffix (s suffix : string) : bool :=
  (String.length suffix <=? String.length s)%nat
  && String.eqb
       (String.substring (String.length s - String.length suffix)
                         (String.length suffix) s)
       suffix.

(** [strings.Join]. *)
Fixpoint strings_Join (elems : list string) (sep : string) : string :=
  match elems with
  | [] => ""
  | [x] => x
  | x :: rest => x +:+ sep +:+ strings_Join rest sep
  end.

(** [fmt.Sprintf] for formats whose only verb is [%s]. *)
Fixpoint fmt_Sprintf (format : string) (args : list string) : string :=
  match format with
  | EmptyString => ""
  | String c rest =>
      if Ascii.eqb c "%"%char then
        match rest with
        | String d rest' =>
            if Ascii.eqb d "s"%char then
              match args with
              | a :: args' => a +:+ fmt_Sprintf rest' args'
              | [] => "%!s(MISSING)" +:+ fmt_Sprintf rest' []
              end
            else String c (fmt_Sprintf rest args)
        | EmptyString => "%!(NOVERB)"
        end
      else String c (fmt_Sprintf rest args)
  end.

(** ** Errors *)

(** Go [error] values: [errors.New], [fmt.Errorf] (format, string operands
    and the [%w] operand) and go-multierror's [*Error]. *)
#[warnings="-register-all"]
Inductive error : Type :=
| errors_New (text : string)
| fmt_Errorf (format : string) (args : list string) (wrapped : option error)
| multierror_Error (Errors : list error).

(** [errors.Unwrap]. *)
Definition errors_Unwrap (e : error) : option error :=
  match e with
  | fmt_Errorf _ _ w => w
  | _ => None
  end.

(** A [*multierror.Error]: [None] is the nil pointer. *)
Definition multierror := option (list error).

(** [multierror.Append(err, e)] for [err] of type [*multierror.Error]: a nil
    [err] is allocated, a nil [e] adds nothing, an [*Error] is flattened. *)
Definition multierror_Append (err : multierror) (e : option error) : multierror :=
  let errors := default [] err in
  match e with
  | None => Some errors
  | Some (multierror_Error es) => Some (errors ++ es)
  | Some e' => Some (errors ++ [e'])
  end.

(** The method [ErrorOrNil] of [*multierror.Error]. *)
Definition ErrorOrNil (err : multierror) : option error :=
  match err with
  | None => None
  | Some [] => None
  | Some es => Some (multierror_Error es)
  end.

(** ** Data model *)

Module Descriptor.
Record t : Type := mk { ModuleName : string; Version : string; Required : bool }.
End Descriptor.

Module LocalDescriptor.
Record t : Type := mk { ModuleName : string }.
End LocalDescriptor.

(** A Go map value: nil or a reference to a map. *)
Abbreviation gomap V := (option (gmap string V)).

(** [ord] is an order in which [range plugins] may visit the entries. *)
Definition ranges {V} (ord : list (string * V)) (plugins : gomap V) : Prop :=
  ord ≡ₚ map_to_list (default ∅ plugins).

(** [delete(plugins, k)]: a no-op on the nil map. *)
Definition go_delete {V} (plugins : gomap V) (k : string) : gomap V :=
  delete k <$> plugins.

(** Reading [plugins[k]]: absent in the nil map. *)
Definition go_lookup {V} (plugins : gomap V) (k : string) : option V :=
  match plugins with
  | None => None
  | Some m => m !! k
  end.

(** ** Reference validation of remote plugins *)

(** One iteration of the loop of [checkRemotePluginsConfiguration]; the
    state is [(uniq, errs)]. *)
Definition checkRemote_iter (st : gset string * list string)
    (entry : string * Descriptor.t) : gset string * list string :=
  let '(uniq, errs) := st in
  let '(pAlias, descriptor) := entry in
  let errs :=
    if decide (Descriptor.ModuleName descriptor = "")
    then errs ++ [fmt_Sprintf "%s: plugin name is missing" [pAlias]]
    else errs in
  let errs :=
    if decide (Descriptor.Version descriptor = "")
    then errs ++ [fmt_Sprintf "%s: plugin version is missing" [pAlias]]
    else errs in
  if strings_HasPrefix (Descriptor.ModuleName descriptor) "/"
     || strings_HasSuffix (Descriptor.ModuleName descriptor) "/"
  then (uniq, errs ++ [fmt_Sprintf "%s: plugin name should not start or end with a /" [pAlias]])
  else if decide (Descriptor.ModuleName descriptor ∈ uniq)
  then (uniq, errs ++ [fmt_Sprintf "only one version of a plugin is allowed, there is a duplicate of %s"
                         [Descriptor.ModuleName descriptor]])
  else ({[Descriptor.ModuleName descriptor]} ∪ uniq, errs).

(** The loop of [checkRemotePluginsConfiguration] run in the order [ord]. *)
Definition checkRemote_loop (ord : list (string * Descriptor.t))
    (st : gset string * list string) : gset string * list string :=
  foldl checkRemote_iter st ord.

Definition checkRemotePluginsConfiguration (plugins : gomap Descriptor.t)
    (ord : list (string * Descriptor.t)) : option error :=
  match plugins with
  | None => None
  | Some _ =>
      let errs := snd (checkRemote_loop ord (∅, [])) in
      if (0 <? length errs)%nat
      then Some (errors_New (strings_Join errs ": "))
      else None
  end.

(** ** The Client and the world a run lives in *)

(** The external collaborator [*Client], over an abstract state [St].
    [Download] returns [(hash, err)]; the others return [err]. *)
Record Client (St : Type) : Type := {
  CleanArchives : gomap Descriptor.t → St → option error * St;
  Download : string → string → St → (string * option error) * St;
  Check : string → string → string → St → option error * St;
  Unzip : string → string → St → option error * St;
  ResetAll : St → option error * St;
  WriteState : gomap Descriptor.t → St → option error * St
}.
Arguments CleanArchives {St} _ _ _.
Arguments Download {St} _ _ _ _.
Arguments Check {St} _ _ _ _ _.
Arguments Unzip {St} _ _ _ _.
Arguments ResetAll {St} _ _.
Arguments WriteState {St} _ _ _.

(** A call made on the Client, with what it returned.  A map argument is
    logged with the content the map has when the call is made. *)
Inductive Event : Type :=
| CallCleanArchives (plugins : gomap Descriptor.t) (err : option error)
| CallDownload (moduleName version : string) (hash : string) (err : option error)
| CallCheck (moduleName version hash : string) (err : option error)
| CallUnzip (moduleName version : string) (err : option error)
| CallResetAll (err : option error)
| CallWriteState (plugins : gomap Descriptor.t) (err : option error).

(** The world: the map object the caller handed over, and the Client. *)
Record World (St : Type) : Type := mkWorld {
  mapObj : gomap Descriptor.t;
  clientSt : St
}.
Arguments mkWorld {St} _ _.
Arguments mapObj {St} _.
Arguments clientSt {St} _.

(** Computations over the world that log their Client calls. *)
Definition M (St A : Type) : Type := World St → A * World St * list Event.

Global Instance M_ret {St} : MRet (M St) := λ A (a : A) w, (a, w, []).
Global Instance M_bind {St} : MBind (M St) := λ A B (f : A → M St B) (m : M St A) w,
  let '(a, w1, t1) := m w in
  let '(b, w2, t2) := f a w1 in
  (b, w2, t1 ++ t2).

Section ClientCalls.
Context {St : Type} (client : Client St).

Definition readPlugins : M St (gomap Descriptor.t) := λ w, (mapObj w, w, []).

Definition deletePlugin (pAlias : string) : M St unit := λ w,
  (tt, mkWorld (go_delete (mapObj w) pAlias) (clientSt w), []).

Definition call_CleanArchives (plugins : gomap Descriptor.t) : M St (option error) := λ w,
  let '(err, s) := CleanArchives client plugins (clientSt w) in
  (err, mkWorld (mapObj w) s, [CallCleanArchives plugins err]).

Definition call_Download (moduleName version : string) : M St (string * option error) := λ w,
  let '((hash, err), s) := Download client moduleName version (clientSt w) in
  ((hash, err), mkWorld (mapObj w) s, [CallDownload moduleName version hash err]).

Definition call_Check (moduleName version hash : string) : M St (option error) := λ w,
  let '(err, s) := Check client moduleName version hash (clientSt w) in
  (err, mkWorld (mapObj w) s, [CallCheck moduleName version hash err]).

Definition call_Unzip (moduleName version : string) : M St (option error) := λ w,
  let '(err, s) := Unzip client moduleName version (clientSt w) in
  (err, mkWorld (mapObj w) s, [CallUnzip moduleName version err]).

Definition call_ResetAll : M St (option error) := λ w,
  let '(err, s) := ResetAll client (clientSt w) in
  (err, mkWorld (mapObj w) s, [CallResetAll err]).

Definition call_WriteState (plugins : gomap Descriptor.t) : M St (option error) := λ w,
  let '(err, s) := WriteState client plugins (clientSt w) in
  (err, mkWorld (mapObj w) s, [CallWriteState plugins err]).

(** ** SetupRemotePlugins *)

(** How an iteration of the provisioning loop ends: [continue] (or the end
    of the body) with the current [unavailablePlugins], or [return err]. *)
Inductive flow : Type :=
| Next (unavailablePlugins : list string)
| Return (err : error).

(** The body of [for pAlias, desc := range plugins]. *)
Definition setup_iter (unavailablePlugins : list string)
    (entry : string * Descriptor.t) : M St flow :=
  let '(pAlias, desc) := entry in
  '(hash, err) ← call_Download (Descriptor.ModuleName desc) (Descriptor.Version desc);
  match err with
  | Some err =>
      _ ← call_ResetAll;
      if negb (Descriptor.Required desc)
      then mret (Next (unavailablePlugins ++ [pAlias]))
      else mret (Return (fmt_Errorf "unable to download plugin %s: %w"
                           [Descriptor.ModuleName desc] (Some err)))
  | None =>
      err ← call_Check (Descriptor.ModuleName desc) (Descriptor.Version desc) hash;
      match err with
      | Some err =>
          _ ← call_ResetAll;
          if negb (Descriptor.Required desc)
          then mret (Next (unavailablePlugins ++ [pAlias]))
          else mret (Return (fmt_Errorf "unable to check archive integrity of the plugin %s: %w"
                               [Descriptor.ModuleName desc] (Some err)))
      | None =>
          err ← call_Unzip (Descriptor.ModuleName desc) (Descriptor.Version desc);
          match err with
          | Some err =>
              _ ← call_ResetAll;
              if negb (Descriptor.Required desc)
              then mret (Next (unavailablePlugins ++ [pAlias]))
              else mret (Return (fmt_Errorf "unable to unzip archive: %w" [] (Some err)))
          | None => mret (Next unavailablePlugins)
          end
      end
  end.

(** The provisioning loop, visiting the entries in the order [ord]. *)
Fixpoint setup_loop (ord : list (string * Descriptor.t))
    (unavailablePlugins : list string) : M St flow :=
  match ord with
  | [] => mret (Next unavailablePlugins)
  | entry :: rest =>
      f ← setup_iter unavailablePlugins entry;
      match f with
      | Next unavailablePlugins => setup_loop rest unavailablePlugins
      | Return err => mret (Return err)
      end
  end.

(** [for _, pAlias := range unavailablePlugins { delete(plugins, pAlias) }]. *)
Fixpoint delete_unavailable (unavailablePlugins : list string) : M St unit :=
  match unavailablePlugins with
  | [] => mret tt
  | pAlias :: rest => _ ← deletePlugin pAlias; delete_unavailable rest
  end.

(** [SetupRemotePlugins(client, plugins)], [plugins] being the map object of
    the world; [ord_check] and [ord_setup] are the orders in which the
    validation loop and the provisioning loop visit the map. *)
Definition SetupRemotePlugins (ord_check ord_setup : list (string * Descriptor.t))
    : M St (option error) :=
  plugins ← readPlugins;
  match checkRemotePluginsConfiguration plugins ord_check with
  | Some err => mret (Some (fmt_Errorf "invalid configuration: %w" [] (Some err)))
  | None =>
      err ← call_CleanArchives plugins;
      match err with
      | Some err => mret (Some (fmt_Errorf "unable to clean archives: %w" [] (Some err)))
      | None =>
          f ← setup_loop ord_setup [];
          match f with
          | Return err => mret (Some err)
          | Next unavailablePlugins =>
              _ ← delete_unavailable unavailablePlugins;
              plugins ← readPlugins;
              err ← call_WriteState plugins;
              match err with
              | Some err =>
                  _ ← call_ResetAll;
                  mret (Some (fmt_Errorf "unable to write plugins state: %w" [] (Some err)))
              | None => mret None
              end
          end
      end
  end.
End ClientCalls.

(** The result, the world and the Client calls of a computation. *)
Definition result {St A} (r : A * World St * list Event) : A := r.1.1.
Definition world {St A} (r : A * World St * list Event) : World St := r.1.2.
Definition calls {St A} (r : A * World St * list Event) : list Event := r.2.

(** ** Local plugins *)

(** The fields of [Manifest] that [checkLocalPluginManifest] reads.  Of
    [TestData] (a [map[string]interface{}]) only nil-ness is looked at. *)
Record Manifest : Type := {
  DisplayName : string;
  Type_ : string;
  Runtime : string;
  Import_ : string;
  Summary : string;
  TestData : option (gmap string string)
}.

Definition localGoPath : string := "./plugins-local/".

Section LocalPlugins.
(** Declared outside this file of the package: the type and runtime
    constants, the method [IsYaegiPlugin] and the manifest reader. *)
Variables typeMiddleware typeProvider runtimeYaegi runtimeWasm : string.
Variable IsYaegiPlugin : Manifest → bool.
Variable ReadManifest : string → string → Manifest + error.

Definition checkLocalPluginManifest (descriptor : LocalDescriptor.t) : option error :=
  let moduleName := LocalDescriptor.ModuleName descriptor in
  match ReadManifest localGoPath moduleName with
  | inr err => Some err
  | inl m =>
      let errs : multierror := None in
      let errs :=
        if decide (Type_ m = typeMiddleware) then
          if bool_decide (Runtime m ≠ runtimeYaegi) && bool_decide (Runtime m ≠ runtimeWasm)
             && bool_decide (Runtime m ≠ "")
          then multierror_Append errs
                 (Some (fmt_Errorf "%s: unsupported runtime '%q'" [moduleName; Runtime m] None))
          else errs
        else if decide (Type_ m = typeProvider) then
          if bool_decide (Runtime m ≠ runtimeYaegi) && bool_decide (Runtime m ≠ "")
          then multierror_Append errs
                 (Some (fmt_Errorf "%s: unsupported runtime '%q'" [moduleName; Runtime m] None))
          else errs
        else multierror_Append errs
               (Some (fmt_Errorf "%s: unsupported type %q" [moduleName; Type_ m] None)) in
      let errs :=
        if IsYaegiPlugin m then
          let errs :=
            if decide (Import_ m = "")
            then multierror_Append errs (Some (fmt_Errorf "%s: missing import" [moduleName] None))
            else errs in
          if negb (strings_HasPrefix (Import_ m) moduleName)
          then multierror_Append errs
                 (Some (fmt_Errorf "the import %q must be related to the module name %q"
                          [Import_ m; moduleName] None))
          else errs
        else errs in
      let errs :=
        if decide (DisplayName m = "")
        then multierror_Append errs (Some (fmt_Errorf "%s: missing DisplayName" [moduleName] None))
        else errs in
      let errs :=
        if decide (Summary m = "")
        then multierror_Append errs (Some (fmt_Errorf "%s: missing Summary" [moduleName] None))
        else errs in
      let errs :=
        if decide (TestData m = None)
        then multierror_Append errs (Some (fmt_Errorf "%s: missing TestData" [moduleName] None))
        else errs in
      ErrorOrNil errs
  end.

(** The state of the loop of [SetupLocalPlugins]: [uniq], [errs], and the
    module names [checkLocalPluginManifest] was called on so far. *)
Record LocalLoop : Type := mkLocalLoop {
  l_uniq : gset string;
  l_errs : multierror;
  l_checked : list string
}.

Definition setupLocal_iter (st : LocalLoop) (entry : string * LocalDescriptor.t) : LocalLoop :=
  let '(pAlias, descriptor) := entry in
  let moduleName := LocalDescriptor.ModuleName descriptor in
  let uniq := l_uniq st in
  let errs := l_errs st in
  let errs :=
    if decide (moduleName = "")
    then multierror_Append errs (Some (fmt_Errorf "%s: plugin name is missing" [pAlias] None))
    else errs in
  if strings_HasPrefix moduleName "/" || strings_HasSuffix moduleName "/"
  then mkLocalLoop uniq
         (multierror_Append errs
            (Some (fmt_Errorf "%s: plugin name should not start or end with a /" [pAlias] None)))
         (l_checked st)
  else if decide (moduleName ∈ uniq)
  then mkLocalLoop uniq
         (multierror_Append errs
            (Some (fmt_Errorf "only one version of a plugin is allowed, there is a duplicate of %s"
                     [moduleName] None)))
         (l_checked st)
  else mkLocalLoop ({[moduleName]} ∪ uniq)
         (multierror_Append errs (checkLocalPluginManifest descriptor))
         (l_checked st ++ [moduleName]).

Definition setupLocal_loop (ord : list (string * LocalDescriptor.t)) (st : LocalLoop) : LocalLoop :=
  foldl setupLocal_iter st ord.

Definition SetupLocalPlugins (plugins : gomap LocalDescriptor.t)
    (ord : list (string * LocalDescriptor.t)) : option error :=
  match plugins with
  | None => None
  | Some _ => ErrorOrNil (l_errs (setupLocal_loop ord (mkLocalLoop ∅ None [])))
  end.

(** *** The violations of the local validator, by kind *)

(** The errors a [*multierror.Error] holds, and the errors appending [e]
    adds to one. *)
Definition errors_of (err : multierror) : list error := default [] err.

Definition flatten (e : option error) : list error :=
  match e with
  | None => []
  | Some (multierror_Error es) => es
  | Some e' => [e']
  end.

Definition LocalMissingName (pAlias : string) : error :=
  fmt_Errorf "%s: plugin name is missing" [pAlias] None.
Definition LocalInvalidNameShape (pAlias : string) : error :=
  fmt_Errorf "%s: plugin name should not start or end with a /" [pAlias] None.
Definition LocalDuplicateModule (moduleName : string) : error :=
  fmt_Errorf "only one version of a plugin is allowed, there is a duplicate of %s"
    [moduleName] None.
Definition UnsupportedRuntime (moduleName runtime : string) : error :=
  fmt_Errorf "%s: unsupported runtime '%q'" [moduleName; runtime] None.
Definition UnsupportedType (moduleName type : string) : error :=
  fmt_Errorf "%s: unsupported type %q" [moduleName; type] None.
Definition MissingImport (moduleName : string) : error :=
  fmt_Errorf "%s: missing import" [moduleName] None.
Definition ImportMismatch (import moduleName : string) : error :=
  fmt_Errorf "the import %q must be related to the module name %q" [import; moduleName] None.
Definition MissingDisplayName (moduleName : string) : error :=
  fmt_Errorf "%s: missing DisplayName" [moduleName] None.
Definition MissingSummary (moduleName : string) : error :=
  fmt_Errorf "%s: missing Summary" [moduleName] None.
Definition MissingTestData (moduleName : string) : error :=
  fmt_Errorf "%s: missing TestData" [moduleName] None.

Definition is_UnsupportedRuntime (e : error) : bool :=
  match e with
  | fmt_Errorf format _ _ => String.eqb format "%s: unsupported runtime '%q'"
  | _ => false
  end.

(** The violations of the checks that follow the type and runtime check. *)
Definition field_violations (m : Manifest) (moduleName : string) : list error :=
  (if IsYaegiPlugin m
   then (if decide (Import_ m = "") then [MissingImport moduleName] else [])
        ++ (if strings_HasPrefix (Import_ m) moduleName then []
            else [ImportMismatch (Import_ m) moduleName])
   else [])
  ++ (if decide (DisplayName m = "") then [MissingDisplayName moduleName] else [])
  ++ (if decide (Summary m = "") then [MissingSummary moduleName] else [])
  ++ (if decide (TestData m = None) then [MissingTestData moduleName] else []).

(** The violations [checkLocalPluginManifest] reports for a module. *)
Definition manifest_violations (descriptor : LocalDescriptor.t) : list error :=
  flatten (checkLocalPluginManifest descriptor).

(** The presence check of a local entry. *)
Definition local_presence_violations (entry : string * LocalDescriptor.t) : list error :=
  if decide (LocalDescriptor.ModuleName entry.2 = "") then [LocalMissingName entry.1] else [].
End LocalPlugins.

Module LocalSamples.
Definition typeMiddleware : string := "middleware".
Definition typeProvider : string := "provider".
Definition runtimeYaegi : string := "yaegi".
Definition runtimeWasm : string := "wasm".

(** [IsYaegiPlugin] as the interpreter runtime or no runtime at all. *)
Definition IsYaegiPlugin (m : Manifest) : bool :=
  bool_decide (Runtime m = runtimeYaegi) || bool_decide (Runtime m = "").

(** A provider that asks for the bytecode runtime and documents nothing. *)
Definition wasm_provider : Manifest := {|
  DisplayName := ""; Type_ := typeProvider; Runtime := runtimeWasm;
  Import_ := ""; Summary := ""; TestData := None
|}.

(** A store in which every module has the manifest [wasm_provider]. *)
Definition ReadManifest (root moduleName : string) : Manifest + error := inl wasm_provider.

Definition two_unnamed : gmap string LocalDescriptor.t :=
  {[ "a" := LocalDescriptor.mk ""; "b" := LocalDescriptor.mk "" ]}.
Definition slash_then_dup : list (string * LocalDescriptor.t) :=
  [("a", LocalDescriptor.mk "foo"); ("b", LocalDescriptor.mk "/foo");
   ("c", LocalDescriptor.mk "foo"); ("d", LocalDescriptor.mk "bar")].
End LocalSamples.

(** ** The violations of reference validation, by kind *)

Definition bad_shape (moduleName : string) : bool :=
  strings_HasPrefix moduleName "/" || strings_HasSuffix moduleName "/".

Definition MissingName (pAlias : string) : string :=
  fmt_Sprintf "%s: plugin name is missing" [pAlias].
Definition MissingVersion (pAlias : string) : string :=
  fmt_Sprintf "%s: plugin version is missing" [pAlias].
Definition InvalidNameShape (pAlias : string) : string :=
  fmt_Sprintf "%s: plugin name should not start or end with a /" [pAlias].
Definition DuplicateModule (moduleName : string) : string :=
  fmt_Sprintf "only one version of a plugin is allowed, there is a duplicate of %s" [moduleName].

(** The presence checks of an entry, which run before the shape check. *)
Definition presence_violations (entry : string * Descriptor.t) : list string :=
  (if decide (Descriptor.ModuleName entry.2 = "") then [MissingName entry.1] else [])
  ++ (if decide (Descriptor.Version entry.2 = "") then [MissingVersion entry.1] else []).

(** What one iteration adds to [errs], given [uniq]. *)
Definition entry_violations (uniq : gset string) (entry : string * Descriptor.t) : list string :=
  (checkRemote_iter (uniq, []) entry).2.

(** ** What a run of the provisioning loop looks like from outside *)

Section Outcomes.
Implicit Types (d : Descriptor.t) (t : list Event) (un : list string).

(** The three Client calls of a reference that went through. *)
Definition provisioned_calls d (hash : string) : list Event :=
  [CallDownload (Descriptor.ModuleName d) (Descriptor.Version d) hash None;
   CallCheck (Descriptor.ModuleName d) (Descriptor.Version d) hash None;
   CallUnzip (Descriptor.ModuleName d) (Descriptor.Version d) None].

(** The Client calls of a reference one of whose sub-steps failed, with the
    error the loop returns for it when the reference is required.  Each
    ends with the [ResetAll] whose result is dropped. *)
Inductive failed_step d : list Event → error → Prop :=
| fs_download hash err r :
    failed_step d
      [CallDownload (Descriptor.ModuleName d) (Descriptor.Version d) hash (Some err);
       CallResetAll r]
      (fmt_Errorf "unable to download plugin %s: %w" [Descriptor.ModuleName d] (Some err))
| fs_check hash err r :
    failed_step d
      [CallDownload (Descriptor.ModuleName d) (Descriptor.Version d) hash None;
       CallCheck (Descriptor.ModuleName d) (Descriptor.Version d) hash (Some err);
       CallResetAll r]
      (fmt_Errorf "unable to check archive integrity of the plugin %s: %w"
         [Descriptor.ModuleName d] (Some err))
| fs_unzip hash err r :
    failed_step d
      [CallDownload (Descriptor.ModuleName d) (Descriptor.Version d) hash None;
       CallCheck (Descriptor.ModuleName d) (Descriptor.Version d) hash None;
       CallUnzip (Descriptor.ModuleName d) (Descriptor.Version d) (Some err);
       CallResetAll r]
      (fmt_Errorf "unable to unzip archive: %w" [] (Some err)).

(** The provisioning loop over [ord] started with [un]: how it ends and the
    calls it made. *)
Inductive loop_outcome : list (string * Descriptor.t) → list string → flow → list Event → Prop :=
| lo_done un : loop_outcome [] un (Next un) []
| lo_provisioned pAlias d rest un hash f t :
    loop_outcome rest un f t →
    loop_outcome ((pAlias, d) :: rest) un f (provisioned_calls d hash ++ t)
| lo_skipped pAlias d rest un t0 err f t :
    Descriptor.Required d = false →
    failed_step d t0 err →
    loop_outcome rest (un ++ [pAlias]) f t →
    loop_outcome ((pAlias, d) :: rest) un f (t0 ++ t)
| lo_aborted pAlias d rest un t0 err :
    Descriptor.Required d = true →
    failed_step d t0 err →
    loop_outcome ((pAlias, d) :: rest) un (Return err) t0.

(** A whole run of [SetupRemotePlugins] on the map [plugins]: the error
    returned, the map afterwards and the calls made. *)
Inductive setup_outcome (plugins : gomap Descriptor.t)
    (ord_check ord_setup : list (string * Descriptor.t))
    : option error → gomap Descriptor.t → list Event → Prop :=
| so_invalid err :
    checkRemotePluginsConfiguration plugins ord_check = Some err →
    setup_outcome plugins ord_check ord_setup
      (Some (fmt_Errorf "invalid configuration: %w" [] (Some err))) plugins []
| so_clean_failed err :
    checkRemotePluginsConfiguration plugins ord_check = None →
    setup_outcome plugins ord_check ord_setup
      (Some (fmt_Errorf "unable to clean archives: %w" [] (Some err))) plugins
      [CallCleanArchives plugins (Some err)]
| so_aborted err t :
    checkRemotePluginsConfiguration plugins ord_check = None →
    loop_outcome ord_setup [] (Return err) t →
    setup_outcome plugins ord_check ord_setup (Some err) plugins
      (CallCleanArchives plugins None :: t)
| so_written un t :
    checkRemotePluginsConfiguration plugins ord_check = None →
    loop_outcome ord_setup [] (Next un) t →
    setup_outcome plugins ord_check ord_setup None (foldl go_delete plugins un)
      (CallCleanArchives plugins None :: t
         ++ [CallWriteState (foldl go_delete plugins un) None])
| so_write_failed un t err r :
    checkRemotePluginsConfiguration plugins ord_check = None →
    loop_outcome ord_setup [] (Next un) t →
    setup_outcome plugins ord_check ord_setup
      (Some (fmt_Errorf "unable to write plugins state: %w" [] (Some err)))
      (foldl go_delete plugins un)
      (CallCleanArchives plugins None :: t
         ++ [CallWriteState (foldl go_delete plugins un) (Some err); CallResetAll r]).

(** A call whose error the pipeline looks at came back with an error.  The
    result of [ResetAll] is always dropped. *)
Definition failed (ev : Event) : bool :=
  match ev with
  | CallCleanArchives _ (Some _) | CallDownload _ _ _ (Some _)
  | CallCheck _ _ _ (Some _) | CallUnzip _ _ (Some _)
  | CallWriteState _ (Some _) => true
  | _ => false
  end.

(** A sub-step of the reference [d] failed among the calls [t]. *)
Definition step_failed_in d t : Prop :=
  ∃ ev, ev ∈ t ∧ failed ev = true ∧
    ((∃ hash err, ev = CallDownload (Descriptor.ModuleName d) (Descriptor.Version d) hash err)
     ∨ (∃ hash err, ev = CallCheck (Descriptor.ModuleName d) (Descriptor.Version d) hash err)
     ∨ (∃ err, ev = CallUnzip (Descriptor.ModuleName d) (Descriptor.Version d) err)).

(** Download, Check against the downloaded hash, and Unzip of the reference
    [d] all succeeded among the calls [t]. *)
Definition provisioned_in d t : Prop :=
  ∃ hash,
    CallDownload (Descriptor.ModuleName d) (Descriptor.Version d) hash None ∈ t
    ∧ CallCheck (Descriptor.ModuleName d) (Descriptor.Version d) hash None ∈ t
    ∧ CallUnzip (Descriptor.ModuleName d) (Descriptor.Version d) None ∈ t.

(** The maps handed to [WriteState], in call order. *)
Definition written t : list (gomap Descriptor.t) :=
  omap (λ ev, match ev with CallWriteState plugins _ => Some plugins | _ => None end) t.
End Outcomes.

(** An entry that by itself violates nothing. *)
Definition well_formed (entry : string * Descriptor.t) : Prop :=
  presence_violations entry = [] ∧ bad_shape (Descriptor.ModuleName entry.2) = false.

Definition module_names (ord : list (string * Descriptor.t)) : list string :=
  map (λ e : string * Descriptor.t, Descriptor.ModuleName e.2) ord.

(** ** Sample mappings and Clients *)

Module Samples.
Definition foo_bar : Descriptor.t := Descriptor.mk "foo/bar" "v1" true.
Definition optional_foo : Descriptor.t := Descriptor.mk "foo" "v1" false.
Definition no_name (version : string) : Descriptor.t := Descriptor.mk "" version true.

(** [{"a": {module:"foo/bar", version:"v1", required:true}}] *)
Definition one_required : gmap string Descriptor.t := {[ "a" := foo_bar ]}.
(** [{"a": {module:"foo", version:"v1", required:false}}] *)
Definition one_optional : gmap string Descriptor.t := {[ "a" := optional_foo ]}.
(** Two references to the module ["foo"]. *)
Definition twice_foo : gmap string Descriptor.t :=
  {[ "a" := Descriptor.mk "foo" "v1" true; "b" := optional_foo ]}.
(** Two references without a module name. *)
Definition twice_no_name : gmap string Descriptor.t :=
  {[ "a" := no_name "v1"; "b" := no_name "v2" ]}.

Definition boom : error := errors_New "boom".

(** A Client all of whose calls succeed; its state counts the calls. *)
Definition obliging : Client nat := {|
  CleanArchives := λ _ n, (None, S n);
  Download := λ _ _ n, (("sha", None), S n);
  Check := λ _ _ _ n, (None, S n);
  Unzip := λ _ _ n, (None, S n);
  ResetAll := λ n, (None, S n);
  WriteState := λ _ n, (None, S n)
|}.

(** A Client whose [Download] always fails. *)
Definition offline : Client nat := {|
  CleanArchives := λ _ n, (None, S n);
  Download := λ _ _ n, (("", Some boom), S n);
  Check := λ _ _ _ n, (None, S n);
  Unzip := λ _ _ n, (None, S n);
  ResetAll := λ n, (None, S n);
  WriteState := λ _ n, (None, S n)
|}.

(** A Client whose [Check] fails for the module ["foo"]. *)
Definition corrupting : Client nat := {|
  CleanArchives := λ _ n, (None, S n);
  Download := λ _ _ n, (("sha", None), S n);
  Check := λ moduleName _ _ n, (if String.eqb moduleName "foo" then Some boom else None, S n);
  Unzip := λ _ _ n, (None, S n);
  ResetAll := λ n, (None, S n);
  WriteState := λ _ n, (None, S n)
|}.

(** A required ["foo/bar"] and an optional ["foo"]. *)
Definition mixed : gmap string Descriptor.t :=
  {[ "a" := foo_bar; "b" := optional_foo ]}.

(** A run on the map [m], both loops visiting it as [map_to_list] does. *)
Definition run_on (client : Client nat) (m : gmap string Descriptor.t)
    : option error * World nat * list Event :=
  SetupRemotePlugins client (map_to_list m) (map_to_list m) (mkWorld (Some m) 0).
End Samples.

(** ** Reading the call log *)

(** A call of the provisioning loop on a reference: Download, Check, Unzip. *)
Definition is_step (ev : Event) : bool :=
  match ev with
  | CallDownload _ _ _ _ | CallCheck _ _ _ _ | CallUnzip _ _ _ => true
  | _ => false
  end.

(** In the log [t], every call that satisfies [Q] comes right after a call
    that stands in the relation [R] to it. *)
Definition preceded (Q : Event → Prop) (R : Event → Event → Prop) (t : list Event) : Prop :=
  ∀ i ev, t !! i = Some ev → Q ev →
          ∃ j prev, i = S j ∧ t !! j = Some prev ∧ R prev ev.

(** In the log [t], every call that satisfies [Q] is followed at once by a
    call to which it stands in the relation [R]. *)
Definition followed (Q : Event → Prop) (R : Event → Event → Prop) (t : list Event) : Prop :=
  ∀ i ev, t !! i = Some ev → Q ev → ∃ next, t !! S i = Some next ∧ R ev next.

(** The calls that need a reason in the call before them, and the reason:
    a Check needs the successful Download of the same archive that returned
    the hash it checks, an Unzip the successful Check of the same archive, a
    reset a failed call. *)
Definition needs_licence (ev : Event) : Prop :=
  match ev with
  | CallCheck _ _ _ _ | CallUnzip _ _ _ | CallResetAll _ => True
  | _ => False
  end.

Definition licence (prev ev : Event) : Prop :=
  match ev with
  | CallCheck moduleName version hash _ => prev = CallDownload moduleName version hash None
  | CallUnzip moduleName version _ => ∃ hash, prev = CallCheck moduleName version hash None
  | CallResetAll _ => failed prev = true
  | _ => True
  end.

(** The failed calls after which the pipeline resets the store: all but a
    failed [CleanArchives]. *)
Definition reset_due (ev : Event) : Prop :=
  failed ev = true ∧ ∀ plugins err, ev ≠ CallCleanArchives plugins err.

Definition is_reset (prev next : Event) : Prop := ∃ r, next = CallResetAll r.

(** The archives the log shows a Download of, in call order, and the
    archives of the references of a visit, in visiting order. *)
Definition downloads (t : list Event) : list (string * string) :=
  omap (λ ev, match ev with
              | CallDownload moduleName version _ _ => Some (moduleName, version)
              | _ => None
              end) t.

Definition archives (ord : list (string * Descriptor.t)) : list (string * string) :=
  map (λ e : string * Descriptor.t, (Descriptor.ModuleName e.2, Descriptor.Version e.2)) ord.

(** ** More sample Clients, mappings and manifests *)

Module MoreSamples.
(** A Client whose [CleanArchives] fails. *)
Definition stuck : Client nat := {|
  CleanArchives := λ _ n, (Some Samples.boom, S n);
  Download := λ _ _ n, (("sha", None), S n);
  Check := λ _ _ _ n, (None, S n);
  Unzip := λ _ _ n, (None, S n);
  ResetAll := λ n, (None, S n);
  WriteState := λ _ n, (None, S n)
|}.

(** A Client whose [WriteState] fails. *)
Definition read_only : Client nat := {|
  CleanArchives := λ _ n, (None, S n);
  Download := λ _ _ n, (("sha", None), S n);
  Check := λ _ _ _ n, (None, S n);
  Unzip := λ _ _ n, (None, S n);
  ResetAll := λ n, (None, S n);
  WriteState := λ _ n, (Some Samples.boom, S n)
|}.

(** A Client whose [Unzip] fails. *)
Definition jammed : Client nat := {|
  CleanArchives := λ _ n, (None, S n);
  Download := λ _ _ n, (("sha", None), S n);
  Check := λ _ _ _ n, (None, S n);
  Unzip := λ _ _ n, (Some Samples.boom, S n);
  ResetAll := λ n, (None, S n);
  WriteState := λ _ n, (None, S n)
|}.

Definition required_foo : Descriptor.t := Descriptor.mk "foo" "v1" true.

(** [{"a": {module:"foo", version:"v1", required:true}}] *)
Definition one_required_foo : gmap string Descriptor.t := {[ "a" := required_foo ]}.

(** The visit of [Samples.mixed] that meets ["a"] and then ["b"]. *)
Definition a_then_b : list (string * Descriptor.t) :=
  [] ++ ("a", Samples.foo_bar) :: [] ++ ("b", Samples.optional_foo) :: [].

(** An interpreted middleware without an import path. *)
Definition bare_interpreted : Manifest := {|
  DisplayName := "Bare"; Type_ := LocalSamples.typeMiddleware;
  Runtime := LocalSamples.runtimeYaegi; Import_ := ""; Summary := "none";
  TestData := Some ∅
|}.

(** A manifest of a type that does not exist. *)
Definition odd_type : Manifest := {|
  DisplayName := "Odd"; Type_ := "plugin"; Runtime := "native";
  Import_ := "foo"; Summary := "none"; TestData := Some ∅
|}.

(** A complete manifest of an interpreted middleware of module ["foo"]. *)
Definition complete : Manifest := {|
  DisplayName := "Foo"; Type_ := LocalSamples.typeMiddleware;
  Runtime := LocalSamples.runtimeYaegi; Import_ := "foo/pkg"; Summary := "a plugin";
  TestData := Some ∅
|}.

(** A store in which every module has the manifest [m]. *)
Definition store_of (m : Manifest) (root moduleName : string) : Manifest + error := inl m.

Definition local_one : gmap string LocalDescriptor.t := {[ "a" := LocalDescriptor.mk "foo" ]}.
End MoreSamples.

#[global] Arguments checkRemote_iter : simpl never.
#[global] Arguments entry_violations : simpl never.
#[global] Arguments presence_violations : simpl never.
#[global] Arguments fmt_Sprintf : simpl never.
#[global] Arguments bad_shape : simpl never.

(** * Properties *)

(** ** Reference validation *)

Lemma checkRemote_iter_split uniq errs entry :
  checkRemote_iter (uniq, errs) entry
  = ((checkRemote_iter (uniq, []) entry).1, errs ++ entry_violations uniq entry).
Proof.
  destruct entry as [pAlias d]. unfold entry_violations, checkRemote_iter.
  repeat case_decide; destruct (_ || _); simpl;
    rewrite ?app_nil_r, <- ?app_assoc; reflexivity.
Qed.

Lemma checkRemote_loop_cons e ord st :
  checkRemote_loop (e :: ord) st = checkRemote_loop ord (checkRemote_iter st e).
Proof. reflexivity. Qed.

Lemma checkRemote_loop_split ord uniq errs :
  checkRemote_loop ord (uniq, errs)
  = ((checkRemote_loop ord (uniq, [])).1, errs ++ (checkRemote_loop ord (uniq, [])).2).
Proof.
  revert uniq errs. induction ord as [|e ord IH]; intros uniq errs.
  - cbn. by rewrite app_nil_r.
  - rewrite !checkRemote_loop_cons.
    rewrite (checkRemote_iter_split uniq errs), (checkRemote_iter_split uniq []).
    rewrite (IH _ (errs ++ _)), (IH _ ([] ++ entry_violations uniq e)).
    cbn. by rewrite app_assoc.
Qed.

Lemma checkRemote_loop_app pre post st :
  checkRemote_loop (pre ++ post) st = checkRemote_loop post (checkRemote_loop pre st).
Proof. unfold checkRemote_loop. apply foldl_app. Qed.

(** The shape of what an iteration does, case by case. *)
Lemma checkRemote_iter_cases uniq entry :
  let name := Descriptor.ModuleName entry.2 in
  checkRemote_iter (uniq, []) entry =
    if bad_shape name then (uniq, presence_violations entry ++ [InvalidNameShape entry.1])
    else if decide (name ∈ uniq) then (uniq, presence_violations entry ++ [DuplicateModule name])
    else ({[name]} ∪ uniq, presence_violations entry).
Proof.
  destruct entry as [pAlias d].
  unfold checkRemote_iter, presence_violations, bad_shape,
    MissingName, MissingVersion, InvalidNameShape, DuplicateModule.
  cbn [fst snd].
  repeat case_decide; destruct (_ || _); cbn [app]; reflexivity.
Qed.

(** A pass reports nothing exactly when every entry is well formed and the
    module names are new and pairwise distinct. *)
Lemma checkRemote_loop_clean ord uniq :
  (checkRemote_loop ord (uniq, [])).2 = [] ↔
  (∀ e, e ∈ ord → well_formed e ∧ Descriptor.ModuleName e.2 ∉ uniq)
  ∧ NoDup (module_names ord).
Proof.
  revert uniq. induction ord as [|e ord IH]; intros uniq.
  - split; [|done]. intros _. split; [intros e He; inversion He | constructor].
  - rewrite checkRemote_loop_cons, checkRemote_iter_split, checkRemote_loop_split.
    cbn [fst snd app]. unfold entry_violations. rewrite checkRemote_iter_cases.
    cbn zeta. split.
    + intros H. apply app_eq_nil in H as [He H].
      destruct (bad_shape _) eqn:Hshape; [apply app_eq_nil in He as [_ He]; discriminate|].
      case_decide as Hin; [apply app_eq_nil in He as [_ He]; discriminate|].
      cbn [fst snd] in *. apply IH in H as [Hwf Hnd]. split.
      * intros e' He'. apply elem_of_cons in He' as [->|He']; [done|].
        destruct (Hwf e' He') as [Hw Hu]. split; [done|].
        intros Hc. apply Hu. by apply elem_of_union_r.
      * unfold module_names. cbn [map]. constructor; [|done].
        intros Hm. apply list_elem_of_fmap in Hm as (e' & Heq & He').
        destruct (Hwf e' He') as [_ Hu]. apply Hu. rewrite <- Heq.
        apply elem_of_union_l, elem_of_singleton. reflexivity.
    + intros [Hwf Hnd]. destruct (Hwf e) as [[Hp Hshape] Hu]; [apply list_elem_of_here|].
      rewrite Hshape. rewrite decide_False by done. cbn [fst snd]. rewrite Hp. cbn [app].
      apply IH. unfold module_names in Hnd. cbn [map] in Hnd.
      apply NoDup_cons in Hnd as [Hfresh Hnd]. split; [|done].
      intros e' He'. destruct (Hwf e') as [Hw Hu']; [by apply list_elem_of_further|].
      split; [done|]. intros Hc. apply elem_of_union in Hc as [Hc|Hc]; [|done].
      apply elem_of_singleton in Hc. apply Hfresh. rewrite <- Hc.
      apply list_elem_of_fmap. by exists e'.
Qed.

(** Validation passes exactly when the pass reports nothing. *)
Lemma checkRemotePluginsConfiguration_None m ord :
  checkRemotePluginsConfiguration (Some m) ord = None
  ↔ (checkRemote_loop ord (∅, [])).2 = [].
Proof.
  unfold checkRemotePluginsConfiguration.
  destruct (checkRemote_loop ord (∅, [])).2 as [|x l]; cbn; split; done.
Qed.

(** Whether validation passes does not depend on the order of the visit. *)
Lemma checkRemotePluginsConfiguration_order plugins ord1 ord2 :
  ord1 ≡ₚ ord2 →
  checkRemotePluginsConfiguration plugins ord1 = None →
  checkRemotePluginsConfiguration plugins ord2 = None.
Proof.
  intros Hperm. destruct plugins as [m|]; [|done].
  rewrite !checkRemotePluginsConfiguration_None, !checkRemote_loop_clean.
  intros [Hwf Hnd]. split.
  - intros e He. apply Hwf. by rewrite Hperm.
  - unfold module_names in *. by rewrite <- Hperm.
Qed.

(** After a successful validation a module name identifies its entry. *)
Lemma validated_names_unique m ord_check ord a d a' d' :
  checkRemotePluginsConfiguration (Some m) ord_check = None →
  ord_check ≡ₚ ord →
  (a, d) ∈ ord → (a', d') ∈ ord →
  Descriptor.ModuleName d = Descriptor.ModuleName d' →
  a = a' ∧ d = d'.
Proof.
  intros Hcheck Hperm Hin Hin' Hname.
  apply checkRemotePluginsConfiguration_None, checkRemote_loop_clean in Hcheck as [_ Hnd].
  unfold module_names in Hnd. rewrite Hperm in Hnd.
  assert ((a, d) = (a', d')) as Heq; [|by inversion Heq].
  clear Hperm. induction ord as [|e ord IH]; [by apply elem_of_nil in Hin|].
  cbn [map] in Hnd. apply NoDup_cons in Hnd as [Hfresh Hnd].
  apply elem_of_cons in Hin as [<-|Hin]; apply elem_of_cons in Hin' as [<-|Hin'].
  - done.
  - exfalso. apply Hfresh. cbn. rewrite Hname. apply list_elem_of_fmap. by exists (a', d').
  - exfalso. apply Hfresh. cbn. rewrite <- Hname. apply list_elem_of_fmap. by exists (a, d).
  - by apply IH.
Qed.

(** ** The provisioning loop *)

Section RemoteRun.
Context {St : Type} (client : Client St).
Implicit Types (w : World St) (d : Descriptor.t) (un : list string).

Lemma setup_iter_outcome un pAlias d w :
  mapObj (world (setup_iter client un (pAlias, d) w)) = mapObj w
  ∧ ((∃ hash, result (setup_iter client un (pAlias, d) w) = Next un
              ∧ calls (setup_iter client un (pAlias, d) w) = provisioned_calls d hash)
     ∨ (∃ err, failed_step d (calls (setup_iter client un (pAlias, d) w)) err
               ∧ result (setup_iter client un (pAlias, d) w)
                 = if Descriptor.Required d then Return err else Next (un ++ [pAlias]))).
Proof.
  unfold setup_iter, result, world, calls, provisioned_calls.
  unfold mbind, M_bind, mret, M_ret, call_Download, call_Check, call_Unzip, call_ResetAll.
  destruct (Download client _ _ (clientSt w)) as [[hash [e|]] s1]; cbn [mapObj clientSt].
  - destruct (ResetAll client s1) as [r s2].
    destruct (Descriptor.Required d) eqn:Hreq; cbn; (split; [done|]); right;
      eexists; (split; [apply fs_download|done]).
  - destruct (Check client _ _ hash s1) as [[e|] s2]; cbn [mapObj clientSt].
    + destruct (ResetAll client s2) as [r s3].
      destruct (Descriptor.Required d) eqn:Hreq; cbn; (split; [done|]); right;
        eexists; (split; [apply fs_check|done]).
    + destruct (Unzip client _ _ s2) as [[e|] s3]; cbn [mapObj clientSt].
      * destruct (ResetAll client s3) as [r s4].
        destruct (Descriptor.Required d) eqn:Hreq; cbn; (split; [done|]); right;
          eexists; (split; [apply fs_unzip|done]).
      * cbn. split; [done|]. left. by eexists.
Qed.

Lemma setup_loop_cons un entry rest w :
  setup_loop client (entry :: rest) un w
  = let r1 := setup_iter client un entry w in
    match result r1 with
    | Next un' =>
        let r2 := setup_loop client rest un' (world r1) in
        (result r2, world r2, calls r1 ++ calls r2)
    | Return err => (Return err, world r1, calls r1 ++ [])
    end.
Proof.
  cbn [setup_loop]. unfold mbind at 1, M_bind at 1, result, world, calls.
  destruct (setup_iter client un entry w) as [[[un'|err] w1] t1]; cbn [fst snd].
  - by destruct (setup_loop client rest un' w1) as [[f w2] t2].
  - reflexivity.
Qed.

(** The loop leaves the map alone and runs as [loop_outcome] says. *)
Lemma setup_loop_outcome ord un w :
  mapObj (world (setup_loop client ord un w)) = mapObj w
  ∧ loop_outcome ord un (result (setup_loop client ord un w))
      (calls (setup_loop client ord un w)).
Proof.
  revert un w. induction ord as [|[pAlias d] rest IH]; intros un w.
  - split; [done|]. apply lo_done.
  - rewrite setup_loop_cons. cbn zeta.
    destruct (setup_iter_outcome un pAlias d w) as [Hmap [(hash & Hres & Hcalls)|(err & Hfail & Hres)]].
    + rewrite Hres, Hcalls.
      destruct (IH un (world (setup_iter client un (pAlias, d) w))) as [Hm Hlo].
      split; [cbn; by rewrite <- Hmap|]. cbn. by apply lo_provisioned.
    + rewrite Hres. destruct (Descriptor.Required d) eqn:Hreq.
      * split; [done|]. unfold result, calls; cbn [fst snd]. rewrite app_nil_r.
        by apply lo_aborted.
      * destruct (IH (un ++ [pAlias]) (world (setup_iter client un (pAlias, d) w))) as [Hm Hlo].
        split; [cbn; by rewrite <- Hmap|]. unfold result, calls; cbn [fst snd].
        by eapply lo_skipped.
Qed.

Lemma delete_unavailable_run un w :
  delete_unavailable un w = (tt, mkWorld (foldl go_delete (mapObj w) un) (clientSt w), []).
Proof.
  revert w. induction un as [|a un IH]; intros w.
  - by destruct w.
  - cbn [delete_unavailable foldl]. unfold mbind, M_bind, deletePlugin.
    rewrite IH. reflexivity.
Qed.

(** A run of [SetupRemotePlugins] ends in one of the five ways of
    [setup_outcome]. *)
Lemma SetupRemotePlugins_outcome ord_check ord_setup w :
  setup_outcome (mapObj w) ord_check ord_setup
    (result (SetupRemotePlugins client ord_check ord_setup w))
    (mapObj (world (SetupRemotePlugins client ord_check ord_setup w)))
    (calls (SetupRemotePlugins client ord_check ord_setup w)).
Proof.
  remember (SetupRemotePlugins client ord_check ord_setup w) as run eqn:Hrun.
  unfold SetupRemotePlugins in Hrun.
  unfold mbind at 1, M_bind at 1, readPlugins at 1 in Hrun.
  destruct (checkRemotePluginsConfiguration (mapObj w) ord_check) as [err|] eqn:Hcheck.
  { subst run. cbn. by apply so_invalid. }
  unfold mbind at 1, M_bind at 1, call_CleanArchives in Hrun.
  destruct (CleanArchives client (mapObj w) (clientSt w)) as [[err|] s1].
  { subst run. cbn. by apply so_clean_failed. }
  unfold mbind at 1, M_bind at 1 in Hrun.
  pose proof (setup_loop_outcome ord_setup [] (mkWorld (mapObj w) s1)) as [Hmap Hlo].
  destruct (setup_loop client ord_setup [] (mkWorld (mapObj w) s1)) as [[f w1] t1].
  unfold result, world, calls in *. cbn [fst snd mapObj] in *.
  destruct f as [un|err].
  - unfold mbind at 1, M_bind at 1 in Hrun. rewrite delete_unavailable_run in Hrun.
    unfold mbind, M_bind, readPlugins, call_WriteState, call_ResetAll, mret, M_ret in Hrun.
    cbn [mapObj clientSt] in Hrun. rewrite Hmap in Hrun.
    destruct (WriteState client _ (clientSt w1)) as [[err|] s2].
    + cbn [mapObj clientSt] in Hrun.
      destruct (ResetAll client s2) as [r s3]. subst run. cbn. by apply so_write_failed.
    + subst run. cbn. by apply so_written.
  - subst run. cbn. rewrite app_nil_r, Hmap. by apply so_aborted.
Qed.
End RemoteRun.

(** ** Facts about the outcomes *)

Section OutcomeFacts.
Implicit Types (d : Descriptor.t) (t : list Event) (un : list string).

Lemma failed_step_failure d t err : failed_step d t err → step_failed_in d t.
Proof.
  intros [hash e r|hash e r|hash e r]; unfold step_failed_in.
  - eexists. split; [apply list_elem_of_here|]. split; [done|]. left. eauto.
  - eexists. split; [apply list_elem_of_further, list_elem_of_here|].
    split; [done|]. right; left. eauto.
  - eexists. split; [do 2 apply list_elem_of_further; apply list_elem_of_here|].
    split; [done|]. right; right. eauto.
Qed.

Lemma failed_step_written d t err : failed_step d t err → written t = [].
Proof. by intros []. Qed.

Lemma failed_step_reset d t err : failed_step d t err → ∃ r, CallResetAll r ∈ t.
Proof.
  intros [hash e r|hash e r|hash e r]; exists r;
    repeat first [apply list_elem_of_here | apply list_elem_of_further].
Qed.

Lemma failed_step_download d t err moduleName version hash e :
  failed_step d t err →
  CallDownload moduleName version hash (Some e) ∈ t →
  moduleName = Descriptor.ModuleName d ∧ version = Descriptor.Version d
  ∧ err = fmt_Errorf "unable to download plugin %s: %w" [Descriptor.ModuleName d] (Some e).
Proof.
  intros [h e' r|h e' r|h e' r] Hin;
    repeat (apply elem_of_cons in Hin as [Hin|Hin]; [try discriminate|]);
    try (by apply elem_of_nil in Hin).
  by inversion Hin.
Qed.

Lemma step_failed_in_app_l d t1 t2 : step_failed_in d t1 → step_failed_in d (t1 ++ t2).
Proof. intros (ev & Hin & H). exists ev. split; [|done]. apply elem_of_app. by left. Qed.

Lemma step_failed_in_app_r d t1 t2 : step_failed_in d t2 → step_failed_in d (t1 ++ t2).
Proof. intros (ev & Hin & H). exists ev. split; [|done]. apply elem_of_app. by right. Qed.

Lemma provisioned_in_app_l d t1 t2 : provisioned_in d t1 → provisioned_in d (t1 ++ t2).
Proof.
  intros (h & H1 & H2 & H3). exists h. rewrite !elem_of_app. auto.
Qed.

Lemma provisioned_in_app_r d t1 t2 : provisioned_in d t2 → provisioned_in d (t1 ++ t2).
Proof.
  intros (h & H1 & H2 & H3). exists h. rewrite !elem_of_app. auto.
Qed.

Lemma provisioned_calls_provisioned d hash : provisioned_in d (provisioned_calls d hash).
Proof.
  exists hash. unfold provisioned_calls.
  repeat split; repeat first [apply list_elem_of_here | apply list_elem_of_further].
Qed.

Lemma written_app t1 t2 : written (t1 ++ t2) = written t1 ++ written t2.
Proof. unfold written. apply omap_app. Qed.

(** The aliases the loop records as unavailable are appended to the ones
    it started with, and each belongs to a non-required reference of the
    mapping one of whose sub-steps failed. *)
Lemma loop_outcome_unavailable ord un un' t :
  loop_outcome ord un (Next un') t →
  ∃ new, un' = un ++ new
    ∧ ∀ x, x ∈ new → ∃ d, (x, d) ∈ ord ∧ Descriptor.Required d = false ∧ step_failed_in d t.
Proof.
  intros H. remember (Next un') as f eqn:Hf. revert un' Hf.
  induction H as [un|pAlias d rest un hash f t H IH|pAlias d rest un t0 err f t Hreq Hfail H IH
                  |pAlias d rest un t0 err Hreq Hfail]; intros un' Hf.
  - inversion Hf; subst. exists []. split; [by rewrite app_nil_r|].
    intros x Hx. by apply elem_of_nil in Hx.
  - destruct (IH _ Hf) as (new & -> & Hnew). exists new. split; [done|].
    intros x Hx. destruct (Hnew x Hx) as (d' & Hd' & Hr & Hs).
    exists d'. split; [by apply list_elem_of_further|]. split; [done|].
    by apply step_failed_in_app_r.
  - destruct (IH _ Hf) as (new & -> & Hnew). exists (pAlias :: new).
    split; [by rewrite <- app_assoc|].
    intros x Hx. apply elem_of_cons in Hx as [->|Hx].
    + exists d. split; [apply list_elem_of_here|]. split; [done|].
      apply step_failed_in_app_l. by eapply failed_step_failure.
    + destruct (Hnew x Hx) as (d' & Hd' & Hr & Hs).
      exists d'. split; [by apply list_elem_of_further|]. split; [done|].
      by apply step_failed_in_app_r.
  - discriminate.
Qed.

(** Every reference of the mapping whose alias the loop did not record as
    unavailable went through Download, Check and Unzip. *)
Lemma loop_outcome_provisioned ord un un' t :
  loop_outcome ord un (Next un') t →
  ∀ pAlias d, (pAlias, d) ∈ ord → pAlias ∉ un' → provisioned_in d t.
Proof.
  intros H. remember (Next un') as f eqn:Hf. revert un' Hf.
  induction H as [un|a d0 rest un hash f t H IH|a d0 rest un t0 err f t Hreq Hfail H IH
                  |a d0 rest un t0 err Hreq Hfail]; intros un' Hf pAlias d Hin Hout.
  - by apply elem_of_nil in Hin.
  - apply elem_of_cons in Hin as [Heq|Hin].
    + inversion Heq; subst. apply provisioned_in_app_l, provisioned_calls_provisioned.
    + apply provisioned_in_app_r. by eapply IH.
  - apply elem_of_cons in Hin as [Heq|Hin].
    + inversion Heq; subst. exfalso. apply Hout.
      destruct (loop_outcome_unavailable _ _ _ _ H) as (new & -> & _).
      rewrite !elem_of_app. left; right. apply list_elem_of_here.
    + apply provisioned_in_app_r. by eapply IH.
  - discriminate.
Qed.

(** The loop never calls [WriteState]. *)
Lemma loop_outcome_written ord un f t : loop_outcome ord un f t → written t = [].
Proof.
  induction 1 as [| ? ? ? ? ? ? ? ? IH | ? ? ? ? ? ? ? ? ? Hfail ? IH | ? ? ? ? ? ? ? Hfail];
    rewrite ?written_app, ?IH, ?(failed_step_written _ _ _ Hfail); done.
Qed.

(** A failed Download among the calls of the loop belongs to a reference of
    the mapping; when that reference is required the loop returns there,
    after the reset. *)
Lemma loop_outcome_download_failed ord un f t moduleName version hash e :
  loop_outcome ord un f t →
  CallDownload moduleName version hash (Some e) ∈ t →
  ∃ pAlias d, (pAlias, d) ∈ ord
    ∧ Descriptor.ModuleName d = moduleName ∧ Descriptor.Version d = version
    ∧ (Descriptor.Required d = true →
       f = Return (fmt_Errorf "unable to download plugin %s: %w" [moduleName] (Some e))
       ∧ ∃ r, CallResetAll r ∈ t).
Proof.
  induction 1 as [un|a d rest un h f t H IH|a d rest un t0 err f t Hreq Hfail H IH
                  |a d rest un t0 err Hreq Hfail]; intros Hin.
  - by apply elem_of_nil in Hin.
  - apply elem_of_app in Hin as [Hin|Hin].
    { unfold provisioned_calls in Hin.
      repeat (apply elem_of_cons in Hin as [Hin|Hin]; [discriminate|]).
      by apply elem_of_nil in Hin. }
    destruct (IH Hin) as (a' & d' & Hd' & Hn & Hv & Hr).
    exists a', d'. split; [by apply list_elem_of_further|]. do 2 (split; [done|]).
    intros Hq. destruct (Hr Hq) as [-> [r Hreset]]. split; [done|].
    exists r. apply elem_of_app. by right.
  - apply elem_of_app in Hin as [Hin|Hin].
    { destruct (failed_step_download _ _ _ _ _ _ _ Hfail Hin) as (-> & -> & _).
      exists a, d. split; [apply list_elem_of_here|]. do 2 (split; [done|]).
      intros Hq. congruence. }
    destruct (IH Hin) as (a' & d' & Hd' & Hn & Hv & Hr).
    exists a', d'. split; [by apply list_elem_of_further|]. do 2 (split; [done|]).
    intros Hq. destruct (Hr Hq) as [-> [r Hreset]]. split; [done|].
    exists r. apply elem_of_app. by right.
  - destruct (failed_step_download _ _ _ _ _ _ _ Hfail Hin) as (-> & -> & ->).
    exists a, d. split; [apply list_elem_of_here|]. do 2 (split; [done|]).
    intros _. split; [done|]. by eapply failed_step_reset.
Qed.

Lemma failed_step_only_check d t err n0 v0 h0 e0 :
  failed_step d t err →
  (∀ ev, ev ∈ t → failed ev = true → ev = CallCheck n0 v0 h0 (Some e0)) →
  Descriptor.ModuleName d = n0.
Proof.
  intros Hfail Honly. destruct (failed_step_failure _ _ _ Hfail) as (ev & Hin & Hf & Hev).
  specialize (Honly ev Hin Hf). subst ev.
  destruct Hev as [(h & e & Heq)|[(h & e & Heq)|(e & Heq)]]; [discriminate| |discriminate].
  by inversion Heq.
Qed.

(** When the only failing call of the loop is one Check, and the module it
    names belongs to the non-required reference [a0] alone, the loop runs
    to its end and records [a0], and nothing else, as unavailable. *)
Lemma loop_outcome_only_check ord un f t n0 v0 h0 e0 a0 :
  loop_outcome ord un f t →
  (∀ ev, ev ∈ t → failed ev = true → ev = CallCheck n0 v0 h0 (Some e0)) →
  (∀ a d, (a, d) ∈ ord → Descriptor.ModuleName d = n0 → a = a0 ∧ Descriptor.Required d = false) →
  ∃ new, f = Next (un ++ new) ∧ (∀ x, x ∈ new → x = a0)
    ∧ (CallCheck n0 v0 h0 (Some e0) ∈ t → a0 ∈ new).
Proof.
  induction 1 as [un|a d rest un h f t H IH|a d rest un t0 err f t Hreq Hfail H IH
                  |a d rest un t0 err Hreq Hfail]; intros Honly Huniq.
  - exists []. split; [by rewrite app_nil_r|]. split.
    + intros x Hx. by apply elem_of_nil in Hx.
    + intros Hin. by apply elem_of_nil in Hin.
  - destruct IH as (new & -> & Hnew & Hev).
    { intros ev Hin. apply Honly. apply elem_of_app. by right. }
    { intros a' d' Hin. apply Huniq. by apply list_elem_of_further. }
    exists new. do 2 (split; [done|]). intros Hin.
    apply elem_of_app in Hin as [Hin|Hin]; [|by apply Hev].
    unfold provisioned_calls in Hin.
    repeat (apply elem_of_cons in Hin as [Hin|Hin]; [discriminate|]).
    by apply elem_of_nil in Hin.
  - destruct IH as (new & -> & Hnew & Hev).
    { intros ev Hin. apply Honly. apply elem_of_app. by right. }
    { intros a' d' Hin. apply Huniq. by apply list_elem_of_further. }
    assert (a = a0) as ->.
    { eapply Huniq; [apply list_elem_of_here|].
      eapply failed_step_only_check; [done|].
      intros ev Hin. apply Honly. apply elem_of_app. by left. }
    exists (a0 :: new). split; [by rewrite <- app_assoc|]. split.
    + intros x Hx. apply elem_of_cons in Hx as [->|Hx]; [done|by apply Hnew].
    + intros _. apply list_elem_of_here.
  - exfalso. assert (Descriptor.Required d = false); [|congruence].
    eapply Huniq; [apply list_elem_of_here|].
    by eapply failed_step_only_check.
Qed.

(** When no call of the loop fails, the loop runs to its end and records
    nothing as unavailable. *)
Lemma loop_outcome_no_failure ord un f t :
  loop_outcome ord un f t →
  (∀ ev, ev ∈ t → failed ev = false) →
  f = Next un.
Proof.
  induction 1 as [un|a d rest un h f t H IH|a d rest un t0 err f t Hreq Hfail H IH
                  |a d rest un t0 err Hreq Hfail]; intros Hok.
  - done.
  - apply IH. intros ev Hin. apply Hok, elem_of_app. by right.
  - destruct (failed_step_failure _ _ _ Hfail) as (ev & Hin & Hf & _).
    rewrite Hok in Hf; [discriminate|]. apply elem_of_app. by left.
  - destruct (failed_step_failure _ _ _ Hfail) as (ev & Hin & Hf & _).
    rewrite Hok in Hf; [discriminate|done].
Qed.

(** Deleting the aliases [un] from a map. *)
Lemma go_delete_nil un : foldl go_delete (None : gomap Descriptor.t) un = None.
Proof. by induction un. Qed.

Lemma go_delete_all (m : gmap string Descriptor.t) un :
  ∃ m', foldl go_delete (Some m) un = Some m'
    ∧ ∀ k, m' !! k = if decide (k ∈ un) then None else m !! k.
Proof.
  revert m. induction un as [|a un IH]; intros m.
  - exists m. split; [done|]. intros k. case_decide as Hk; [by apply elem_of_nil in Hk|done].
  - destruct (IH (delete a m)) as (m' & Hm' & Hlook). exists m'. split; [done|].
    intros k. rewrite Hlook. destruct (decide (k = a)) as [->|Hne].
    + rewrite (decide_True (P := a ∈ a :: un)) by apply list_elem_of_here.
      rewrite lookup_delete_eq. by case_decide.
    + rewrite lookup_delete_ne by done. destruct (decide (k ∈ un)) as [Hin|Hnin].
      * rewrite decide_True; [done|by apply list_elem_of_further].
      * rewrite decide_False; [done|]. intros Hc.
        apply elem_of_cons in Hc as [?|?]; done.
Qed.

(** An order that enumerates a map visits exactly its entries. *)
Lemma ranges_elem_of (m : gmap string Descriptor.t) ord pAlias d :
  ranges ord (Some m) → ((pAlias, d) ∈ ord ↔ m !! pAlias = Some d).
Proof.
  unfold ranges. cbn. intros Hperm. rewrite Hperm. apply elem_of_map_to_list.
Qed.

Lemma ranges_map_to_list (m : gmap string Descriptor.t) : ranges (map_to_list m) (Some m).
Proof. unfold ranges. reflexivity. Qed.

Lemma ranges_nil ord : ranges ord (None : gomap Descriptor.t) → ord = [].
Proof.
  unfold ranges. cbn. rewrite map_to_list_empty. apply Permutation_nil_r.
Qed.
End OutcomeFacts.

(** ** The remote provisioning pipeline *)

Section Pipeline.
Context {St : Type} (client : Client St).
Implicit Types (w : World St) (d : Descriptor.t) (m : gmap string Descriptor.t).

(** C1.  When [SetupRemotePlugins] returns nil, every alias left in the
    caller's mapping saw its Download, its Check against the downloaded
    hash and its Unzip succeed during the run, and [WriteState] was called
    exactly once, with that surviving mapping. *)
Theorem success_postcondition ord_check ord_setup w :
  ranges ord_setup (mapObj w) →
  result (SetupRemotePlugins client ord_check ord_setup w) = None →
  (∀ pAlias d,
     go_lookup (mapObj (world (SetupRemotePlugins client ord_check ord_setup w))) pAlias = Some d →
     provisioned_in d (calls (SetupRemotePlugins client ord_check ord_setup w)))
  ∧ written (calls (SetupRemotePlugins client ord_check ord_setup w))
    = [mapObj (world (SetupRemotePlugins client ord_check ord_setup w))]
  ∧ CallWriteState (mapObj (world (SetupRemotePlugins client ord_check ord_setup w))) None
    ∈ calls (SetupRemotePlugins client ord_check ord_setup w).
Proof.
  intros Hrange Hres.
  pose proof (SetupRemotePlugins_outcome client ord_check ord_setup w) as Hout.
  destruct Hout as [err Hc|err Hc|err t Hc Hlo|un t Hc Hlo|un t err r Hc Hlo]; try discriminate.
  split; [|split].
  - intros pAlias d Hlook. destruct (mapObj w) as [m|] eqn:Hm.
    + destruct (go_delete_all m un) as (m' & Hm' & Hk). rewrite Hm' in Hlook. cbn in Hlook.
      rewrite Hk in Hlook. case_decide as Hun; [discriminate|].
      apply (ranges_elem_of _ _ _ _ Hrange) in Hlook.
      change (provisioned_in d ([CallCleanArchives (Some m) None]
                                  ++ t ++ [CallWriteState (foldl go_delete (Some m) un) None])).
      apply provisioned_in_app_r, provisioned_in_app_l.
      eapply loop_outcome_provisioned; [done|done|done].
    + by rewrite go_delete_nil in Hlook.
  - change (written ([CallCleanArchives (mapObj w) None]
                       ++ t ++ [CallWriteState (foldl go_delete (mapObj w) un) None])
            = [foldl go_delete (mapObj w) un]).
    rewrite !written_app, (loop_outcome_written _ _ _ _ Hlo). reflexivity.
  - apply list_elem_of_further, elem_of_app. right. apply list_elem_of_here.
Qed.

(** C2.  When the Download of a required reference of the mapping fails,
    [SetupRemotePlugins] calls [ResetAll], returns the error of the
    Download wrapped in a message that names the module, and never calls
    [WriteState]. *)
Theorem required_download_failure ord_check ord_setup m cs pAlias d hash e :
  ranges ord_check (Some m) → ranges ord_setup (Some m) →
  m !! pAlias = Some d →
  Descriptor.Required d = true →
  CallDownload (Descriptor.ModuleName d) (Descriptor.Version d) hash (Some e)
    ∈ calls (SetupRemotePlugins client ord_check ord_setup (mkWorld (Some m) cs)) →
  result (SetupRemotePlugins client ord_check ord_setup (mkWorld (Some m) cs))
    = Some (fmt_Errorf "unable to download plugin %s: %w" [Descriptor.ModuleName d] (Some e))
  ∧ (result (SetupRemotePlugins client ord_check ord_setup (mkWorld (Some m) cs))
       ≫= errors_Unwrap) = Some e
  ∧ (∃ r, CallResetAll r ∈ calls (SetupRemotePlugins client ord_check ord_setup (mkWorld (Some m) cs)))
  ∧ written (calls (SetupRemotePlugins client ord_check ord_setup (mkWorld (Some m) cs))) = [].
Proof.
  intros Hrc Hrs Hm Hreq Hin.
  pose proof (SetupRemotePlugins_outcome client ord_check ord_setup (mkWorld (Some m) cs)) as Hout.
  cbn [mapObj] in Hout.
  assert (∀ f t, loop_outcome ord_setup [] f t →
                 checkRemotePluginsConfiguration (Some m) ord_check = None →
                 CallDownload (Descriptor.ModuleName d) (Descriptor.Version d) hash (Some e) ∈ t →
                 f = Return (fmt_Errorf "unable to download plugin %s: %w"
                               [Descriptor.ModuleName d] (Some e))
                 ∧ ∃ r, CallResetAll r ∈ t) as Hloop.
  { intros f t Hlo Hc Ht.
    destruct (loop_outcome_download_failed _ _ _ _ _ _ _ _ Hlo Ht)
      as (a' & d' & Hd' & Hn & Hv & Hr).
    apply Hr. apply (ranges_elem_of _ _ _ _ Hrs) in Hm.
    assert (ord_check ≡ₚ ord_setup) as Hperm by (unfold ranges in *; by rewrite Hrc, Hrs).
    destruct (validated_names_unique _ _ _ _ _ _ _ Hc Hperm Hm Hd') as [_ <-]; done. }
  destruct Hout as [err Hc|err Hc|err t Hc Hlo|un t Hc Hlo|un t err r Hc Hlo].
  - by apply elem_of_nil in Hin.
  - apply elem_of_cons in Hin as [Hin|Hin]; [discriminate|by apply elem_of_nil in Hin].
  - apply elem_of_cons in Hin as [Hin|Hin]; [discriminate|].
    destruct (Hloop _ _ Hlo Hc Hin) as [Hf [r Hr]]. inversion Hf; subst err.
    split; [done|]. split; [done|]. split.
    + exists r. by apply list_elem_of_further.
    + change (written ([CallCleanArchives (Some m) None] ++ t) = []).
      by rewrite written_app, (loop_outcome_written _ _ _ _ Hlo).
  - apply elem_of_cons in Hin as [Hin|Hin]; [discriminate|].
    apply elem_of_app in Hin as [Hin|Hin].
    + by destruct (Hloop _ _ Hlo Hc Hin) as [Hf _].
    + apply elem_of_cons in Hin as [Hin|Hin]; [discriminate|by apply elem_of_nil in Hin].
  - apply elem_of_cons in Hin as [Hin|Hin]; [discriminate|].
    apply elem_of_app in Hin as [Hin|Hin].
    + by destruct (Hloop _ _ Hlo Hc Hin) as [Hf _].
    + repeat (apply elem_of_cons in Hin as [Hin|Hin]; [discriminate|]).
      by apply elem_of_nil in Hin.
Qed.

(** C3.  When the Check of a non-required reference of the mapping fails
    and it is the only failing call of the run, [SetupRemotePlugins]
    returns nil, and the alias of that reference is deleted from the
    caller's mapping before the mapping is handed to [WriteState]: it is in
    neither. *)
Theorem optional_check_failure ord_check ord_setup m cs pAlias d hash e :
  ranges ord_check (Some m) → ranges ord_setup (Some m) →
  m !! pAlias = Some d →
  Descriptor.Required d = false →
  CallCheck (Descriptor.ModuleName d) (Descriptor.Version d) hash (Some e)
    ∈ calls (SetupRemotePlugins client ord_check ord_setup (mkWorld (Some m) cs)) →
  (∀ ev, ev ∈ calls (SetupRemotePlugins client ord_check ord_setup (mkWorld (Some m) cs)) →
         failed ev = true →
         ev = CallCheck (Descriptor.ModuleName d) (Descriptor.Version d) hash (Some e)) →
  result (SetupRemotePlugins client ord_check ord_setup (mkWorld (Some m) cs)) = None
  ∧ mapObj (world (SetupRemotePlugins client ord_check ord_setup (mkWorld (Some m) cs)))
    = Some (delete pAlias m)
  ∧ written (calls (SetupRemotePlugins client ord_check ord_setup (mkWorld (Some m) cs)))
    = [Some (delete pAlias m)]
  ∧ go_lookup (Some (delete pAlias m)) pAlias = None.
Proof.
  intros Hrc Hrs Hm Hreq Hin Honly.
  pose proof (SetupRemotePlugins_outcome client ord_check ord_setup (mkWorld (Some m) cs)) as Hout.
  cbn [mapObj] in Hout.
  assert (∀ f t, loop_outcome ord_setup [] f t →
                 checkRemotePluginsConfiguration (Some m) ord_check = None →
                 (∀ ev, ev ∈ t → failed ev = true →
                        ev = CallCheck (Descriptor.ModuleName d) (Descriptor.Version d) hash (Some e)) →
                 ∃ un, f = Next un
                   ∧ (CallCheck (Descriptor.ModuleName d) (Descriptor.Version d) hash (Some e) ∈ t →
                      foldl go_delete (Some m) un = Some (delete pAlias m)))
    as Hloop.
  { intros f t Hlo Hc Ht.
    assert (ord_check ≡ₚ ord_setup) as Hperm by (unfold ranges in *; by rewrite Hrc, Hrs).
    destruct (loop_outcome_only_check _ _ _ _ _ _ _ _ pAlias Hlo Ht) as (new & -> & Hnew & Hmem).
    { intros a' d' Hd' Hn. apply (ranges_elem_of _ _ _ _ Hrs) in Hm.
      destruct (validated_names_unique _ _ _ _ _ _ _ Hc Hperm Hm Hd') as [<- <-]; done. }
    exists new. split; [done|]. intros Hev.
    destruct (go_delete_all m new) as (m' & -> & Hk). f_equal. apply map_eq. intros k.
    rewrite Hk. destruct (decide (k = pAlias)) as [->|Hne].
    - rewrite lookup_delete_eq, decide_True; [done|by apply Hmem].
    - rewrite lookup_delete_ne, decide_False; [done| |done].
      intros Hc'. by apply Hnew in Hc'. }
  destruct Hout as [err Hc|err Hc|err t Hc Hlo|un t Hc Hlo|un t err r Hc Hlo].
  - by apply elem_of_nil in Hin.
  - exfalso. specialize (Honly _ (list_elem_of_here _ _) eq_refl). discriminate.
  - exfalso. destruct (Hloop _ _ Hlo Hc) as (un & Hf & _); [|done].
    intros ev Hev. apply Honly. by apply list_elem_of_further.
  - apply elem_of_cons in Hin as [Hin|Hin]; [discriminate|].
    apply elem_of_app in Hin as [Hin|Hin];
      [|apply elem_of_cons in Hin as [Hin|Hin]; [discriminate|by apply elem_of_nil in Hin]].
    destruct (Hloop _ _ Hlo Hc) as (un' & Hf & Hdel).
    { intros ev Hev. apply Honly. apply list_elem_of_further, elem_of_app. by left. }
    inversion Hf; subst un'. rewrite (Hdel Hin).
    split; [done|]. split; [done|]. split; [|apply lookup_delete_eq].
    change (written ([CallCleanArchives (Some m) None]
                       ++ t ++ [CallWriteState (Some (delete pAlias m)) None])
            = [Some (delete pAlias m)]).
    by rewrite !written_app, (loop_outcome_written _ _ _ _ Hlo).
  - exfalso.
    assert (CallWriteState (foldl go_delete (Some m) un) (Some err)
            = CallCheck (Descriptor.ModuleName d) (Descriptor.Version d) hash (Some e))
      as Habs; [|discriminate].
    apply Honly; [|done]. apply list_elem_of_further, elem_of_app. right.
    apply list_elem_of_here.
Qed.

(** C4.  When reference validation reports a violation, as it does for two
    entries that share a module name, [SetupRemotePlugins] returns the
    violation wrapped as an invalid configuration, makes no Client call,
    and leaves the Client and the mapping as they were. *)
Theorem invalid_configuration_no_io ord_check ord_setup w :
  (is_Some (checkRemotePluginsConfiguration (mapObj w) ord_check)
   ∨ ∃ m a1 d1 a2 d2,
       mapObj w = Some m ∧ ranges ord_check (Some m) ∧ a1 ≠ a2
       ∧ m !! a1 = Some d1 ∧ m !! a2 = Some d2
       ∧ Descriptor.ModuleName d1 = Descriptor.ModuleName d2) →
  ∃ err,
    checkRemotePluginsConfiguration (mapObj w) ord_check = Some err
    ∧ SetupRemotePlugins client ord_check ord_setup w
      = (Some (fmt_Errorf "invalid configuration: %w" [] (Some err)), w, []).
Proof.
  intros H.
  assert (is_Some (checkRemotePluginsConfiguration (mapObj w) ord_check)) as [err Herr].
  { destruct H as [H|(m & a1 & d1 & a2 & d2 & Hw & Hr & Hne & H1 & H2 & Hname)]; [done|].
    rewrite Hw. destruct (checkRemotePluginsConfiguration (Some m) ord_check) eqn:Hc; [by eexists|].
    exfalso. apply Hne.
    apply (ranges_elem_of _ _ _ _ Hr) in H1, H2.
    by destruct (validated_names_unique _ _ _ _ _ _ _ Hc (reflexivity _) H1 H2 Hname). }
  exists err. split; [done|].
  unfold SetupRemotePlugins, mbind, M_bind, readPlugins. rewrite Herr. reflexivity.
Qed.

(** What a run in which no call fails does. *)
Lemma run_without_failure ord_check ord_setup w :
  (∀ ev, ev ∈ calls (SetupRemotePlugins client ord_check ord_setup w) → failed ev = false) →
  mapObj (world (SetupRemotePlugins client ord_check ord_setup w)) = mapObj w
  ∧ ((checkRemotePluginsConfiguration (mapObj w) ord_check = None
      ∧ result (SetupRemotePlugins client ord_check ord_setup w) = None
      ∧ written (calls (SetupRemotePlugins client ord_check ord_setup w)) = [mapObj w])
     ∨ (is_Some (checkRemotePluginsConfiguration (mapObj w) ord_check)
        ∧ written (calls (SetupRemotePlugins client ord_check ord_setup w)) = [])).
Proof.
  intros Hok.
  pose proof (SetupRemotePlugins_outcome client ord_check ord_setup w) as Hout.
  destruct Hout as [err Hc|err Hc|err t Hc Hlo|un t Hc Hlo|un t err r Hc Hlo].
  - split; [done|]. right. split; [by eexists|done].
  - specialize (Hok _ (list_elem_of_here _ _)). discriminate.
  - assert (Return err = Next []); [|discriminate].
    eapply loop_outcome_no_failure; [done|].
    intros ev Hev. apply Hok. by apply list_elem_of_further.
  - assert (Next un = Next []) as Hun.
    { eapply loop_outcome_no_failure; [done|].
      intros ev Hev. apply Hok. apply list_elem_of_further, elem_of_app. by left. }
    inversion Hun; subst un. cbn [foldl]. split; [done|]. left. do 2 (split; [done|]).
    change (written ([CallCleanArchives (mapObj w) None] ++ t ++ [CallWriteState (mapObj w) None])
            = [mapObj w]).
    by rewrite !written_app, (loop_outcome_written _ _ _ _ Hlo).
  - assert (failed (CallWriteState (foldl go_delete (mapObj w) un) (Some err)) = false);
      [|discriminate].
    apply Hok. apply list_elem_of_further, elem_of_app. right. apply list_elem_of_here.
Qed.

(** The mapping after a run is the mapping before it without some
    aliases, each of a non-required reference a sub-step of which failed. *)
Lemma mapping_after_run ord_check ord_setup w :
  ∃ un,
    mapObj (world (SetupRemotePlugins client ord_check ord_setup w))
    = foldl go_delete (mapObj w) un
    ∧ ∀ x, x ∈ un →
        ∃ d, (x, d) ∈ ord_setup ∧ Descriptor.Required d = false
             ∧ step_failed_in d (calls (SetupRemotePlugins client ord_check ord_setup w)).
Proof.
  pose proof (SetupRemotePlugins_outcome client ord_check ord_setup w) as Hout.
  destruct Hout as [err Hc|err Hc|err t Hc Hlo|un t Hc Hlo|un t err r Hc Hlo].
  1-3: exists []; split; [done|]; intros x Hx; by apply elem_of_nil in Hx.
  all: exists un; split; [done|]; intros x Hx.
  all: destruct (loop_outcome_unavailable _ _ _ _ Hlo) as (new & Hnew & Hwhy).
  all: cbn in Hnew; subst un; destruct (Hwhy _ Hx) as (d & Hd & Hreq & Hfail).
  all: exists d; do 2 (split; [done|]).
  - change (step_failed_in d ([CallCleanArchives (mapObj w) None]
              ++ t ++ [CallWriteState (foldl go_delete (mapObj w) new) None])).
    by apply step_failed_in_app_r, step_failed_in_app_l.
  - change (step_failed_in d ([CallCleanArchives (mapObj w) None]
              ++ t ++ [CallWriteState (foldl go_delete (mapObj w) new) (Some err);
                       CallResetAll r])).
    by apply step_failed_in_app_r, step_failed_in_app_l.
Qed.

(** C8.  Two runs in a row on the same mapping, in neither of which a call
    fails, hand the same mapping to [WriteState]: the second run finds the
    mapping as the first one found it and the two runs make the same
    [WriteState] calls, one each, with the whole mapping, when the mapping
    is valid. *)
Theorem idempotent_persisted_state ord_check1 ord_setup1 ord_check2 ord_setup2 w :
  ranges ord_check1 (mapObj w) → ranges ord_check2 (mapObj w) →
  (∀ ev, ev ∈ calls (SetupRemotePlugins client ord_check1 ord_setup1 w) → failed ev = false) →
  (∀ ev, ev ∈ calls (SetupRemotePlugins client ord_check2 ord_setup2
                       (world (SetupRemotePlugins client ord_check1 ord_setup1 w))) →
         failed ev = false) →
  mapObj (world (SetupRemotePlugins client ord_check1 ord_setup1 w)) = mapObj w
  ∧ written (calls (SetupRemotePlugins client ord_check2 ord_setup2
                      (world (SetupRemotePlugins client ord_check1 ord_setup1 w))))
    = written (calls (SetupRemotePlugins client ord_check1 ord_setup1 w))
  ∧ (checkRemotePluginsConfiguration (mapObj w) ord_check1 = None →
     written (calls (SetupRemotePlugins client ord_check1 ord_setup1 w)) = [mapObj w]
     ∧ written (calls (SetupRemotePlugins client ord_check2 ord_setup2
                         (world (SetupRemotePlugins client ord_check1 ord_setup1 w))))
       = [mapObj w]).
Proof.
  intros Hr1 Hr2 Hok1 Hok2.
  destruct (run_without_failure _ _ _ Hok1) as [Hmap1 Hrun1].
  destruct (run_without_failure _ _ _ Hok2) as [_ Hrun2].
  rewrite Hmap1 in Hrun2.
  assert (ord_check1 ≡ₚ ord_check2) as Hperm by (unfold ranges in *; by rewrite Hr1, Hr2).
  split; [done|].
  destruct Hrun1 as [(Hc1 & _ & Hw1)|([e1 Hc1] & Hw1)];
    destruct Hrun2 as [(Hc2 & _ & Hw2)|([e2 Hc2] & Hw2)].
  - rewrite Hw1, Hw2. done.
  - apply (checkRemotePluginsConfiguration_order _ _ _ Hperm) in Hc1. congruence.
  - symmetry in Hperm. apply (checkRemotePluginsConfiguration_order _ _ _ Hperm) in Hc2.
    congruence.
  - rewrite Hw1, Hw2. split; [done|]. congruence.
Qed.

(** C10.  On the nil mapping validation passes at once, and the run is not
    a no-op: it calls [CleanArchives] with the nil mapping, and when that
    call succeeds it calls [WriteState] with the nil mapping. *)
Theorem nil_mapping_is_not_a_noop ord_check ord_setup cs :
  ranges ord_setup None →
  checkRemotePluginsConfiguration None ord_check = None
  ∧ ∃ err s1,
      CleanArchives client None cs = (err, s1)
      ∧ head (calls (SetupRemotePlugins client ord_check ord_setup (mkWorld None cs)))
        = Some (CallCleanArchives None err)
      ∧ (err = None →
         ∃ werr s2,
           WriteState client None s1 = (werr, s2)
           ∧ calls (SetupRemotePlugins client ord_check ord_setup (mkWorld None cs)) !! 1%nat
             = Some (CallWriteState None werr)
           ∧ written (calls (SetupRemotePlugins client ord_check ord_setup (mkWorld None cs)))
             = [None]
           ∧ (werr = None →
              SetupRemotePlugins client ord_check ord_setup (mkWorld None cs)
              = (None, mkWorld None s2,
                 [CallCleanArchives None None; CallWriteState None None]))).
Proof.
  intros Hr. apply ranges_nil in Hr. subst ord_setup. split; [done|].
  cbv [SetupRemotePlugins mbind M_bind readPlugins call_CleanArchives call_WriteState
       call_ResetAll mret M_ret setup_loop delete_unavailable
       checkRemotePluginsConfiguration mapObj clientSt].
  destruct (CleanArchives client None cs) as [err s1]. exists err, s1. split; [done|].
  destruct err as [e|]; [split; [done|discriminate]|].
  destruct (WriteState client None s1) as [[e|] s2].
  - destruct (ResetAll client s2) as [r s3]. cbn. split; [done|]. intros _.
    exists (Some e), s2. repeat split; done.
  - cbn. split; [done|]. intros _. exists None, s2. repeat split; done.
Qed.
End Pipeline.

(** ** The theorems at sample runs *)

Ltac each_call H :=
  repeat (apply elem_of_cons in H as [->|H]; [try reflexivity; try discriminate|]);
  try (by apply elem_of_nil in H).

Lemma success_postcondition_witness :
  ranges (map_to_list Samples.mixed) (Some Samples.mixed)
  ∧ result (Samples.run_on Samples.obliging Samples.mixed) = None
  ∧ written (calls (Samples.run_on Samples.obliging Samples.mixed))
    = [mapObj (world (Samples.run_on Samples.obliging Samples.mixed))].
Proof.
  assert (ranges (map_to_list Samples.mixed) (Some Samples.mixed)) as H1
    by apply ranges_map_to_list.
  assert (result (Samples.run_on Samples.obliging Samples.mixed) = None) as H2
    by (vm_compute; reflexivity).
  split; [exact H1|]. split; [exact H2|].
  exact (proj1 (proj2 (success_postcondition Samples.obliging _ _
                         (mkWorld (Some Samples.mixed) 0) H1 H2))).
Defined.

Lemma required_download_failure_witness :
  Samples.one_required !! "a" = Some Samples.foo_bar
  ∧ CallDownload "foo/bar" "v1" "" (Some Samples.boom)
      ∈ calls (Samples.run_on Samples.offline Samples.one_required)
  ∧ result (Samples.run_on Samples.offline Samples.one_required)
    = Some (fmt_Errorf "unable to download plugin %s: %w" ["foo/bar"] (Some Samples.boom))
  ∧ written (calls (Samples.run_on Samples.offline Samples.one_required)) = [].
Proof.
  assert (Samples.one_required !! "a" = Some Samples.foo_bar) as H1 by (vm_compute; reflexivity).
  assert (CallDownload "foo/bar" "v1" "" (Some Samples.boom)
            ∈ calls (Samples.run_on Samples.offline Samples.one_required)) as H2.
  { vm_compute. apply list_elem_of_further, list_elem_of_here. }
  pose proof (required_download_failure Samples.offline
                (map_to_list Samples.one_required) (map_to_list Samples.one_required)
                Samples.one_required 0 "a" Samples.foo_bar "" Samples.boom
                (ranges_map_to_list _) (ranges_map_to_list _) H1 eq_refl H2) as (Hres & _ & _ & Hw).
  split; [exact H1|]. split; [exact H2|]. split; [exact Hres|exact Hw].
Defined.

Lemma optional_check_failure_witness :
  Samples.mixed !! "b" = Some Samples.optional_foo
  ∧ CallCheck "foo" "v1" "sha" (Some Samples.boom)
      ∈ calls (Samples.run_on Samples.corrupting Samples.mixed)
  ∧ result (Samples.run_on Samples.corrupting Samples.mixed) = None
  ∧ written (calls (Samples.run_on Samples.corrupting Samples.mixed))
    = [Some (delete "b" Samples.mixed)].
Proof.
  assert (Samples.mixed !! "b" = Some Samples.optional_foo) as H1 by (vm_compute; reflexivity).
  assert (CallCheck "foo" "v1" "sha" (Some Samples.boom)
            ∈ calls (Samples.run_on Samples.corrupting Samples.mixed)) as H2.
  { vm_compute. do 5 apply list_elem_of_further. apply list_elem_of_here. }
  assert (∀ ev, ev ∈ calls (Samples.run_on Samples.corrupting Samples.mixed) →
                failed ev = true → ev = CallCheck "foo" "v1" "sha" (Some Samples.boom)) as H3.
  { intros ev Hin. vm_compute in Hin. each_call Hin. }
  pose proof (optional_check_failure Samples.corrupting
                (map_to_list Samples.mixed) (map_to_list Samples.mixed)
                Samples.mixed 0 "b" Samples.optional_foo "sha" Samples.boom
                (ranges_map_to_list _) (ranges_map_to_list _) H1 eq_refl H2 H3) as (Hres & _ & Hw & _).
  split; [exact H1|]. split; [exact H2|]. split; [exact Hres|exact Hw].
Defined.

Lemma invalid_configuration_no_io_witness :
  Samples.twice_foo !! "a" = Some (Descriptor.mk "foo" "v1" true)
  ∧ Samples.twice_foo !! "b" = Some Samples.optional_foo
  ∧ ∃ err, Samples.run_on Samples.obliging Samples.twice_foo
           = (Some (fmt_Errorf "invalid configuration: %w" [] (Some err)),
              mkWorld (Some Samples.twice_foo) 0, []).
Proof.
  assert (Samples.twice_foo !! "a" = Some (Descriptor.mk "foo" "v1" true)) as H1
    by (vm_compute; reflexivity).
  assert (Samples.twice_foo !! "b" = Some Samples.optional_foo) as H2
    by (vm_compute; reflexivity).
  split; [exact H1|]. split; [exact H2|].
  destruct (invalid_configuration_no_io Samples.obliging
              (map_to_list Samples.twice_foo) (map_to_list Samples.twice_foo)
              (mkWorld (Some Samples.twice_foo) 0)) as (err & _ & Hrun).
  - right. exists Samples.twice_foo, "a", (Descriptor.mk "foo" "v1" true), "b", Samples.optional_foo.
    split; [reflexivity|]. split; [apply ranges_map_to_list|]. split; [discriminate|].
    split; [exact H1|]. split; [exact H2|reflexivity].
  - exists err. exact Hrun.
Defined.

(** C6, as worded, fails: a run whose only reference is optional and cannot
    be downloaded empties the caller's mapping. *)
Lemma mapping_is_mutated :
  ¬ (∀ (client : Client nat) ord_check ord_setup (w : World nat),
       ranges ord_check (mapObj w) → ranges ord_setup (mapObj w) →
       mapObj (world (SetupRemotePlugins client ord_check ord_setup w)) = mapObj w).
Proof.
  intros H.
  specialize (H Samples.offline (map_to_list Samples.one_optional)
                (map_to_list Samples.one_optional) (mkWorld (Some Samples.one_optional) 0)
                (ranges_map_to_list _) (ranges_map_to_list _)).
  apply (f_equal (λ plugins, go_lookup plugins "a")) in H.
  vm_compute in H. discriminate.
Qed.

Lemma idempotent_persisted_state_witness :
  (∀ ev, ev ∈ calls (Samples.run_on Samples.obliging Samples.mixed) → failed ev = false)
  ∧ written (calls (SetupRemotePlugins Samples.obliging
                      (map_to_list Samples.mixed) (map_to_list Samples.mixed)
                      (world (Samples.run_on Samples.obliging Samples.mixed))))
    = written (calls (Samples.run_on Samples.obliging Samples.mixed)).
Proof.
  assert (∀ ev, ev ∈ calls (Samples.run_on Samples.obliging Samples.mixed) → failed ev = false)
    as H1.
  { intros ev Hin. vm_compute in Hin. each_call Hin. }
  assert (∀ ev, ev ∈ calls (SetupRemotePlugins Samples.obliging
                              (map_to_list Samples.mixed) (map_to_list Samples.mixed)
                              (world (Samples.run_on Samples.obliging Samples.mixed))) →
                failed ev = false) as H2.
  { intros ev Hin. vm_compute in Hin. each_call Hin. }
  split; [exact H1|].
  exact (proj1 (proj2 (idempotent_persisted_state Samples.obliging _ _ _ _
                         (mkWorld (Some Samples.mixed) 0)
                         (ranges_map_to_list _) (ranges_map_to_list _) H1 H2))).
Defined.

Lemma nil_mapping_is_not_a_noop_witness :
  ranges [] (None : gomap Descriptor.t)
  ∧ SetupRemotePlugins Samples.obliging [] [] (mkWorld None 0)
    = (None, mkWorld None 2, [CallCleanArchives None None; CallWriteState None None]).
Proof.
  assert (ranges [] (None : gomap Descriptor.t)) as H1.
  { unfold ranges. cbn. by rewrite map_to_list_empty. }
  split; [exact H1|].
  destruct (nil_mapping_is_not_a_noop Samples.obliging [] [] 0 H1)
    as (_ & err & s1 & Hclean & _ & Hwrite).
  cbn in Hclean. inversion Hclean; subst err s1.
  destruct (Hwrite eq_refl) as (werr & s2 & Hw & _ & _ & Hrun).
  cbn in Hw. inversion Hw; subst werr s2. exact (Hrun eq_refl).
Defined.

(** ** Reference validation collects every violation *)

(** [uniq] holds the module names of the well-shaped entries seen so far. *)
Lemma checkRemote_loop_uniq pre uniq x :
  x ∈ (checkRemote_loop pre (uniq, [])).1
  ↔ x ∈ uniq ∨ ∃ e, e ∈ pre ∧ bad_shape (Descriptor.ModuleName e.2) = false
                    ∧ Descriptor.ModuleName e.2 = x.
Proof.
  revert uniq. induction pre as [|e pre IH]; intros uniq.
  - cbn. split; [by left|]. intros [H|(e & He & _)]; [done|by apply elem_of_nil in He].
  - rewrite checkRemote_loop_cons, checkRemote_iter_split, checkRemote_loop_split.
    cbn [fst]. rewrite IH, checkRemote_iter_cases. cbn zeta.
    destruct (bad_shape (Descriptor.ModuleName e.2)) eqn:Hshape; cbn [fst];
      [|case_decide as Hin; cbn [fst]].
    + split.
      * intros [H|(e' & He' & H)]; [by left|]. right. exists e'.
        split; [by apply list_elem_of_further|done].
      * intros [H|(e' & He' & Hs & Hn)]; [by left|].
        apply elem_of_cons in He' as [->|He']; [congruence|]. right. by exists e'.
    + split.
      * intros [H|(e' & He' & H)]; [by left|]. right. exists e'.
        split; [by apply list_elem_of_further|done].
      * intros [H|(e' & He' & Hs & Hn)]; [by left|].
        apply elem_of_cons in He' as [->|He']; [left; congruence|]. right. by exists e'.
    + rewrite elem_of_union, elem_of_singleton. split.
      * intros [[->|H]|(e' & He' & H)].
        -- right. exists e. split; [apply list_elem_of_here|done].
        -- by left.
        -- right. exists e'. split; [by apply list_elem_of_further|done].
      * intros [H|(e' & He' & Hs & Hn)]; [left; by right|].
        apply elem_of_cons in He' as [->|He']; [left; by left|]. right. by exists e'.
Qed.

(** What a pass over [pre ++ e :: post] reports: what the pass over [pre]
    reports, then the violations of [e], then those of [post]. *)
Lemma checkRemote_loop_middle pre e post :
  (checkRemote_loop (pre ++ e :: post) (∅, [])).2
  = (checkRemote_loop pre (∅, [])).2
    ++ entry_violations (checkRemote_loop pre (∅, [])).1 e
    ++ (checkRemote_loop post ((checkRemote_iter ((checkRemote_loop pre (∅, [])).1, []) e).1, [])).2.
Proof.
  rewrite checkRemote_loop_app, checkRemote_loop_cons.
  destruct (checkRemote_loop pre (∅, [])) as [uniq errs]. cbn [fst snd].
  rewrite checkRemote_iter_split, checkRemote_loop_split. cbn [fst snd].
  by rewrite <- app_assoc.
Qed.

(** Every entry gets its presence checks and its shape check, whatever the
    other entries are. *)
Lemma checkRemote_loop_checks_all ord e :
  e ∈ ord →
  (∀ v, v ∈ presence_violations e → v ∈ (checkRemote_loop ord (∅, [])).2)
  ∧ (bad_shape (Descriptor.ModuleName e.2) = true →
     InvalidNameShape e.1 ∈ (checkRemote_loop ord (∅, [])).2).
Proof.
  intros He. apply list_elem_of_split in He as (pre & post & ->).
  rewrite checkRemote_loop_middle. unfold entry_violations. rewrite checkRemote_iter_cases.
  cbn zeta. split.
  - intros v Hv. rewrite !elem_of_app. right; left.
    destruct (bad_shape _); [|case_decide]; cbn [snd]; rewrite ?elem_of_app; auto.
  - intros ->. cbn [snd]. rewrite !elem_of_app. right; left; right. apply list_elem_of_here.
Qed.

(** Every well-shaped entry that shares its module name with an earlier
    well-shaped entry is reported as a duplicate. *)
Lemma checkRemote_loop_reports_duplicates l1 e1 l2 e2 l3 :
  bad_shape (Descriptor.ModuleName e1.2) = false →
  bad_shape (Descriptor.ModuleName e2.2) = false →
  Descriptor.ModuleName e1.2 = Descriptor.ModuleName e2.2 →
  DuplicateModule (Descriptor.ModuleName e2.2)
    ∈ (checkRemote_loop (l1 ++ e1 :: l2 ++ e2 :: l3) (∅, [])).2.
Proof.
  intros Hs1 Hs2 Hname.
  replace (l1 ++ e1 :: l2 ++ e2 :: l3) with ((l1 ++ e1 :: l2) ++ e2 :: l3)
    by (by rewrite <- app_assoc).
  rewrite checkRemote_loop_middle. unfold entry_violations. rewrite checkRemote_iter_cases.
  cbn zeta. rewrite Hs2. rewrite decide_True.
  - cbn [snd]. rewrite !elem_of_app. right; left; right. apply list_elem_of_here.
  - apply checkRemote_loop_uniq. right. exists e1. split; [|done].
    apply elem_of_app. right. apply list_elem_of_here.
Qed.

(** ** The local validator *)

Section LocalFacts.
Variables typeMiddleware typeProvider runtimeYaegi runtimeWasm : string.
Variable IsYaegiPlugin : Manifest → bool.
Variable ReadManifest : string → string → Manifest + error.

Local Abbreviation checkManifest :=
  (checkLocalPluginManifest typeMiddleware typeProvider runtimeYaegi runtimeWasm
     IsYaegiPlugin ReadManifest).
Local Abbreviation violations_of :=
  (manifest_violations typeMiddleware typeProvider runtimeYaegi runtimeWasm
     IsYaegiPlugin ReadManifest).
Local Abbreviation local_iter :=
  (setupLocal_iter typeMiddleware typeProvider runtimeYaegi runtimeWasm
     IsYaegiPlugin ReadManifest).
Local Abbreviation local_loop :=
  (setupLocal_loop typeMiddleware typeProvider runtimeYaegi runtimeWasm
     IsYaegiPlugin ReadManifest).

Lemma flatten_ErrorOrNil errs : flatten (ErrorOrNil errs) = errors_of errs.
Proof. by destruct errs as [[|e es]|]. Qed.

Lemma multierror_Append_Some errs e :
  multierror_Append errs e = Some (errors_of errs ++ flatten e).
Proof.
  unfold multierror_Append, errors_of.
  destruct e as [[text|format args w|es]|]; cbn; by rewrite ?app_nil_r.
Qed.

(** The violations of a readable manifest: those of the type and runtime
    check, then those of the other fields. *)
Lemma manifest_violations_read descriptor m :
  ReadManifest localGoPath (LocalDescriptor.ModuleName descriptor) = inl m →
  violations_of descriptor
  = (if decide (Type_ m = typeMiddleware) then
       if bool_decide (Runtime m ≠ runtimeYaegi) && bool_decide (Runtime m ≠ runtimeWasm)
          && bool_decide (Runtime m ≠ "")
       then [UnsupportedRuntime (LocalDescriptor.ModuleName descriptor) (Runtime m)] else []
     else if decide (Type_ m = typeProvider) then
       if bool_decide (Runtime m ≠ runtimeYaegi) && bool_decide (Runtime m ≠ "")
       then [UnsupportedRuntime (LocalDescriptor.ModuleName descriptor) (Runtime m)] else []
     else [UnsupportedType (LocalDescriptor.ModuleName descriptor) (Type_ m)])
    ++ field_violations IsYaegiPlugin m (LocalDescriptor.ModuleName descriptor).
Proof.
  intros Hread. unfold manifest_violations, checkLocalPluginManifest. rewrite Hread.
  cbn zeta. rewrite flatten_ErrorOrNil. unfold field_violations.
  repeat match goal with
         | |- context [multierror_Append ?errs ?e] => rewrite (multierror_Append_Some errs e)
         end.
  destruct (strings_HasPrefix (Import_ m) (LocalDescriptor.ModuleName descriptor));
    cbn [negb];
    repeat match goal with
           | |- context [if ?b then _ else _] => destruct b
           end; cbn [app errors_of flatten default];
    unfold UnsupportedRuntime, UnsupportedType, MissingImport, ImportMismatch,
      MissingDisplayName, MissingSummary, MissingTestData;
    rewrite ?app_nil_r, <- ?app_assoc; reflexivity.
Qed.

(** The other fields never produce an unsupported-runtime violation. *)
Lemma field_violations_runtime m moduleName :
  filter (λ e, is_UnsupportedRuntime e = true) (field_violations IsYaegiPlugin m moduleName) = [].
Proof.
  unfold field_violations.
  repeat match goal with
         | |- context [if ?b then _ else _] => destruct b
         end; reflexivity.
Qed.

(** What [checkLocalPluginManifest] returns for a readable manifest: nil
    when there is no violation, the violations as one error otherwise. *)
Lemma checkLocalPluginManifest_read descriptor m :
  ReadManifest localGoPath (LocalDescriptor.ModuleName descriptor) = inl m →
  checkManifest descriptor
  = match violations_of descriptor with
    | [] => None
    | es => Some (multierror_Error es)
    end.
Proof.
  intros Hread. unfold manifest_violations, checkLocalPluginManifest. rewrite Hread.
  cbn zeta. match goal with |- ErrorOrNil ?x = _ => generalize x end.
  by intros [[|e es]|].
Qed.

Lemma field_violations_elem m moduleName :
  (DisplayName m = "" → MissingDisplayName moduleName ∈ field_violations IsYaegiPlugin m moduleName)
  ∧ (Summary m = "" → MissingSummary moduleName ∈ field_violations IsYaegiPlugin m moduleName)
  ∧ (TestData m = None → MissingTestData moduleName ∈ field_violations IsYaegiPlugin m moduleName).
Proof.
  unfold field_violations. repeat split; intros H; rewrite !elem_of_app.
  - right; left. rewrite decide_True by done. apply list_elem_of_here.
  - right; right; left. rewrite decide_True by done. apply list_elem_of_here.
  - right; right; right. rewrite decide_True by done. apply list_elem_of_here.
Qed.

(** C7.  Which runtimes a manifest may ask for depends on its type.  A
    middleware with a runtime other than the interpreter, the bytecode
    runtime or none is reported as an unsupported runtime, and so is a
    provider with a runtime other than the interpreter or none; the
    runtimes named are accepted.  A provider that asks for the bytecode
    runtime gets exactly one unsupported-runtime violation, and its other
    fields are checked all the same. *)
Theorem runtime_depends_on_type descriptor m :
  typeMiddleware ≠ typeProvider →
  ReadManifest localGoPath (LocalDescriptor.ModuleName descriptor) = inl m →
  (Type_ m = typeMiddleware →
     (Runtime m ≠ runtimeYaegi → Runtime m ≠ runtimeWasm → Runtime m ≠ "" →
      violations_of descriptor
      = UnsupportedRuntime (LocalDescriptor.ModuleName descriptor) (Runtime m)
        :: field_violations IsYaegiPlugin m (LocalDescriptor.ModuleName descriptor))
     ∧ (Runtime m = runtimeYaegi ∨ Runtime m = runtimeWasm ∨ Runtime m = "" →
        violations_of descriptor
        = field_violations IsYaegiPlugin m (LocalDescriptor.ModuleName descriptor)))
  ∧ (Type_ m = typeProvider →
     (Runtime m ≠ runtimeYaegi → Runtime m ≠ "" →
      violations_of descriptor
      = UnsupportedRuntime (LocalDescriptor.ModuleName descriptor) (Runtime m)
        :: field_violations IsYaegiPlugin m (LocalDescriptor.ModuleName descriptor))
     ∧ (Runtime m = runtimeYaegi ∨ Runtime m = "" →
        violations_of descriptor
        = field_violations IsYaegiPlugin m (LocalDescriptor.ModuleName descriptor)))
  ∧ (Type_ m = typeProvider → Runtime m = runtimeWasm →
     runtimeWasm ≠ runtimeYaegi → runtimeWasm ≠ "" →
     length (filter (λ e, is_UnsupportedRuntime e = true) (violations_of descriptor)) = 1%nat
     ∧ UnsupportedRuntime (LocalDescriptor.ModuleName descriptor) runtimeWasm
         ∈ violations_of descriptor
     ∧ (∀ e, e ∈ field_violations IsYaegiPlugin m (LocalDescriptor.ModuleName descriptor) →
             e ∈ violations_of descriptor)
     ∧ (DisplayName m = "" →
        MissingDisplayName (LocalDescriptor.ModuleName descriptor) ∈ violations_of descriptor)
     ∧ (Summary m = "" →
        MissingSummary (LocalDescriptor.ModuleName descriptor) ∈ violations_of descriptor)
     ∧ (TestData m = None →
        MissingTestData (LocalDescriptor.ModuleName descriptor) ∈ violations_of descriptor)
     ∧ checkManifest descriptor = Some (multierror_Error (violations_of descriptor))).
Proof.
  intros Htypes Hread. rewrite (manifest_violations_read _ _ Hread).
  split; [|split].
  - intros Hty. rewrite decide_True by done. split.
    + intros H1 H2 H3. by rewrite !bool_decide_eq_true_2.
    + intros [H|[H|H]].
      * rewrite (bool_decide_eq_false_2 (Runtime m ≠ runtimeYaegi)) by tauto. done.
      * rewrite (bool_decide_eq_false_2 (Runtime m ≠ runtimeWasm)) by tauto.
        by rewrite andb_false_r.
      * rewrite (bool_decide_eq_false_2 (Runtime m ≠ "")) by tauto.
        by rewrite andb_false_r.
  - intros Hty. rewrite decide_False by congruence. rewrite decide_True by done. split.
    + intros H1 H2. by rewrite !bool_decide_eq_true_2.
    + intros [H|H].
      * rewrite (bool_decide_eq_false_2 (Runtime m ≠ runtimeYaegi)) by tauto. done.
      * rewrite (bool_decide_eq_false_2 (Runtime m ≠ "")) by tauto.
        by rewrite andb_false_r.
  - intros Hty Hrt Hwy Hwe.
    rewrite decide_False by congruence. rewrite decide_True by done.
    rewrite !bool_decide_eq_true_2 by congruence. cbn [andb app].
    pose proof (field_violations_elem m (LocalDescriptor.ModuleName descriptor))
      as (Hdn & Hsum & Htd).
    split; [|split; [|split; [|split; [|split; [|split]]]]].
    + rewrite filter_cons_True by done. cbn [length]. by rewrite field_violations_runtime.
    + rewrite Hrt. apply list_elem_of_here.
    + intros e He. by apply list_elem_of_further.
    + intros H. by apply list_elem_of_further, Hdn.
    + intros H. by apply list_elem_of_further, Hsum.
    + intros H. by apply list_elem_of_further, Htd.
    + rewrite (checkLocalPluginManifest_read _ _ Hread), (manifest_violations_read _ _ Hread).
      rewrite decide_False by congruence. rewrite decide_True by done.
      rewrite !bool_decide_eq_true_2 by congruence. reflexivity.
Qed.
End LocalFacts.

(** ** The loop of the local validator *)

Section LocalLoopFacts.
Variables typeMiddleware typeProvider runtimeYaegi runtimeWasm : string.
Variable IsYaegiPlugin : Manifest → bool.
Variable ReadManifest : string → string → Manifest + error.

Local Abbreviation violations_of :=
  (manifest_violations typeMiddleware typeProvider runtimeYaegi runtimeWasm
     IsYaegiPlugin ReadManifest).
Local Abbreviation local_iter :=
  (setupLocal_iter typeMiddleware typeProvider runtimeYaegi runtimeWasm
     IsYaegiPlugin ReadManifest).
Local Abbreviation local_loop :=
  (setupLocal_loop typeMiddleware typeProvider runtimeYaegi runtimeWasm
     IsYaegiPlugin ReadManifest).

Lemma ErrorOrNil_errors_of errs :
  ErrorOrNil errs = match errors_of errs with [] => None | es => Some (multierror_Error es) end.
Proof. by destruct errs as [[|e es]|]. Qed.

(** What one iteration does, case by case. *)
Lemma setupLocal_iter_cases st entry :
  local_iter st entry =
    let name := LocalDescriptor.ModuleName entry.2 in
    let errs := errors_of (l_errs st) ++ local_presence_violations entry in
    if bad_shape name
    then mkLocalLoop (l_uniq st) (Some (errs ++ [LocalInvalidNameShape entry.1])) (l_checked st)
    else if decide (name ∈ l_uniq st)
    then mkLocalLoop (l_uniq st) (Some (errs ++ [LocalDuplicateModule name])) (l_checked st)
    else mkLocalLoop ({[name]} ∪ l_uniq st) (Some (errs ++ violations_of entry.2))
           (l_checked st ++ [name]).
Proof.
  destruct entry as [pAlias d].
  unfold setupLocal_iter, local_presence_violations, bad_shape, manifest_violations,
    LocalMissingName, LocalInvalidNameShape, LocalDuplicateModule.
  cbn [fst snd]. cbn zeta.
  repeat match goal with
         | |- context [multierror_Append ?errs ?e] => rewrite (multierror_Append_Some errs e)
         end.
  destruct (decide (LocalDescriptor.ModuleName d = "")); destruct (_ || _);
    try case_decide; cbn [errors_of default flatten]; rewrite ?app_nil_r; reflexivity.
Qed.

Lemma setupLocal_loop_cons e ord st :
  local_loop (e :: ord) st = local_loop ord (local_iter st e).
Proof. reflexivity. Qed.

Lemma setupLocal_loop_app pre post st :
  local_loop (pre ++ post) st = local_loop post (local_loop pre st).
Proof. unfold setupLocal_loop. apply foldl_app. Qed.

(** An iteration only ever adds to [errs], [uniq] and the checked modules. *)
Lemma setupLocal_iter_grows st e :
  (∀ v, v ∈ errors_of (l_errs st) → v ∈ errors_of (l_errs (local_iter st e)))
  ∧ (∀ x, x ∈ l_uniq st → x ∈ l_uniq (local_iter st e))
  ∧ (∀ x, x ∈ l_checked st → x ∈ l_checked (local_iter st e)).
Proof.
  rewrite setupLocal_iter_cases. cbn zeta.
  destruct (bad_shape _); [|case_decide];
    cbn [l_errs l_uniq l_checked errors_of default from_option id]; (split; [|split]); try done;
    intros x Hx; rewrite ?elem_of_app, ?elem_of_union; auto.
Qed.

Lemma setupLocal_loop_grows ord st :
  (∀ v, v ∈ errors_of (l_errs st) → v ∈ errors_of (l_errs (local_loop ord st)))
  ∧ (∀ x, x ∈ l_uniq st → x ∈ l_uniq (local_loop ord st))
  ∧ (∀ x, x ∈ l_checked st → x ∈ l_checked (local_loop ord st)).
Proof.
  revert st. induction ord as [|e ord IH]; intros st; [done|].
  rewrite setupLocal_loop_cons. destruct (IH (local_iter st e)) as (He & Hu & Hc).
  destruct (setupLocal_iter_grows st e) as (He' & Hu' & Hc'). auto.
Qed.

(** What the iteration of an entry leaves behind. *)
Lemma setupLocal_iter_reports st e :
  (∀ v, v ∈ local_presence_violations e → v ∈ errors_of (l_errs (local_iter st e)))
  ∧ (bad_shape (LocalDescriptor.ModuleName e.2) = true →
     LocalInvalidNameShape e.1 ∈ errors_of (l_errs (local_iter st e)))
  ∧ (bad_shape (LocalDescriptor.ModuleName e.2) = false →
     LocalDescriptor.ModuleName e.2 ∈ l_uniq (local_iter st e)
     ∧ (LocalDuplicateModule (LocalDescriptor.ModuleName e.2)
          ∈ errors_of (l_errs (local_iter st e))
        ∨ (LocalDescriptor.ModuleName e.2 ∈ l_checked (local_iter st e)
           ∧ ∀ v, v ∈ violations_of e.2 → v ∈ errors_of (l_errs (local_iter st e))))).
Proof.
  rewrite setupLocal_iter_cases. cbn zeta.
  destruct (bad_shape _); [|case_decide as Hin];
    cbn [l_errs l_uniq l_checked errors_of default from_option id]; (split; [|split]); try done.
  - intros v Hv. rewrite !elem_of_app. auto.
  - intros _. rewrite !elem_of_app. right. apply list_elem_of_here.
  - intros v Hv. rewrite !elem_of_app. auto.
  - intros _. split; [done|]. left. rewrite !elem_of_app. right. apply list_elem_of_here.
  - intros v Hv. rewrite !elem_of_app. auto.
  - intros _. split; [apply elem_of_union_l, elem_of_singleton; reflexivity|]. right. split.
    + apply elem_of_app. right. apply list_elem_of_here.
    + intros v Hv. rewrite !elem_of_app. auto.
Qed.

(** Every entry gets its presence check and its shape check, and a
    well-shaped entry is either reported as a duplicate or has its manifest
    checked, whatever the other entries are. *)
Lemma setupLocal_loop_checks_all ord st e :
  e ∈ ord →
  (∀ v, v ∈ local_presence_violations e → v ∈ errors_of (l_errs (local_loop ord st)))
  ∧ (bad_shape (LocalDescriptor.ModuleName e.2) = true →
     LocalInvalidNameShape e.1 ∈ errors_of (l_errs (local_loop ord st)))
  ∧ (bad_shape (LocalDescriptor.ModuleName e.2) = false →
     LocalDuplicateModule (LocalDescriptor.ModuleName e.2)
       ∈ errors_of (l_errs (local_loop ord st))
     ∨ (LocalDescriptor.ModuleName e.2 ∈ l_checked (local_loop ord st)
        ∧ ∀ v, v ∈ violations_of e.2 → v ∈ errors_of (l_errs (local_loop ord st)))).
Proof.
  intros He. apply list_elem_of_split in He as (pre & post & ->).
  rewrite setupLocal_loop_app, setupLocal_loop_cons.
  destruct (setupLocal_loop_grows post (local_iter (local_loop pre st) e)) as (Hg & _ & Hc).
  destruct (setupLocal_iter_reports (local_loop pre st) e) as (Hp & Hshape & Hgood).
  split; [|split]; [auto|auto|].
  intros Hs. destruct (Hgood Hs) as [_ [Hd|[Hch Hv]]]; [by left; apply Hg|].
  right. split; [by apply Hc|auto].
Qed.

(** The module name of a well-shaped entry is in [uniq] from its iteration on. *)
Lemma setupLocal_loop_uniq pre st e :
  e ∈ pre → bad_shape (LocalDescriptor.ModuleName e.2) = false →
  LocalDescriptor.ModuleName e.2 ∈ l_uniq (local_loop pre st).
Proof.
  intros He Hs. apply list_elem_of_split in He as (l1 & l2 & ->).
  rewrite setupLocal_loop_app, setupLocal_loop_cons.
  apply setupLocal_loop_grows.
  by destruct (setupLocal_iter_reports (local_loop l1 st) e) as (_ & _ & [Hu _]).
Qed.
End LocalLoopFacts.

(** ** Short-circuit within an entry, collect-all across entries *)

Lemma two_in_list {A} (x y : A) (l : list A) :
  x ∈ l → y ∈ l → x ≠ y →
  ∃ l1 l2 l3, l = l1 ++ x :: l2 ++ y :: l3 ∨ l = l1 ++ y :: l2 ++ x :: l3.
Proof.
  intros Hx Hy Hne. apply list_elem_of_split in Hx as (p & q & ->).
  apply elem_of_app in Hy as [Hy|Hy].
  - apply list_elem_of_split in Hy as (p1 & p2 & ->).
    exists p1, p2, q. right. by rewrite <- app_assoc.
  - apply elem_of_cons in Hy as [->|Hy]; [done|].
    apply list_elem_of_split in Hy as (q1 & q2 & ->).
    exists p, q1, q2. by left.
Qed.

(** Validation returns the violations joined into one error as soon as
    there is one. *)
Lemma checkRemotePluginsConfiguration_Some m ord v :
  v ∈ (checkRemote_loop ord (∅, [])).2 →
  checkRemotePluginsConfiguration (Some m) ord
  = Some (errors_New (strings_Join (checkRemote_loop ord (∅, [])).2 ": ")).
Proof.
  unfold checkRemotePluginsConfiguration.
  destruct (checkRemote_loop ord (∅, [])).2 as [|x l]; [intros H; by apply elem_of_nil in H|].
  reflexivity.
Qed.

(** An entry with a badly shaped or already seen module name: after its
    presence checks it gets that one violation, and [uniq] stays as it is. *)
Lemma checkRemote_iter_short_circuit uniq errs pAlias d :
  bad_shape (Descriptor.ModuleName d) = true ∨ Descriptor.ModuleName d ∈ uniq →
  checkRemote_iter (uniq, errs) (pAlias, d)
  = (uniq, errs ++ presence_violations (pAlias, d)
             ++ [if bad_shape (Descriptor.ModuleName d) then InvalidNameShape pAlias
                 else DuplicateModule (Descriptor.ModuleName d)]).
Proof.
  intros H. rewrite checkRemote_iter_split. unfold entry_violations.
  rewrite checkRemote_iter_cases. cbn zeta. cbn [fst snd].
  destruct (bad_shape (Descriptor.ModuleName d)); [done|].
  destruct H as [H|H]; [discriminate|]. by rewrite decide_True.
Qed.

Section ValidationClaims.
Variables typeMiddleware typeProvider runtimeYaegi runtimeWasm : string.
Variable IsYaegiPlugin : Manifest → bool.
Variable ReadManifest : string → string → Manifest + error.

Local Abbreviation violations_of :=
  (manifest_violations typeMiddleware typeProvider runtimeYaegi runtimeWasm
     IsYaegiPlugin ReadManifest).
Local Abbreviation local_iter :=
  (setupLocal_iter typeMiddleware typeProvider runtimeYaegi runtimeWasm
     IsYaegiPlugin ReadManifest).
Local Abbreviation local_loop :=
  (setupLocal_loop typeMiddleware typeProvider runtimeYaegi runtimeWasm
     IsYaegiPlugin ReadManifest).
Local Abbreviation SetupLocal :=
  (SetupLocalPlugins typeMiddleware typeProvider runtimeYaegi runtimeWasm
     IsYaegiPlugin ReadManifest).

(** The local counterpart of [checkRemote_iter_short_circuit]: the manifest
    of such an entry is not looked at. *)
Lemma setupLocal_iter_short_circuit st pAlias d :
  bad_shape (LocalDescriptor.ModuleName d) = true ∨ LocalDescriptor.ModuleName d ∈ l_uniq st →
  local_iter st (pAlias, d)
  = mkLocalLoop (l_uniq st)
      (Some ((errors_of (l_errs st) ++ local_presence_violations (pAlias, d))
               ++ [if bad_shape (LocalDescriptor.ModuleName d) then LocalInvalidNameShape pAlias
                   else LocalDuplicateModule (LocalDescriptor.ModuleName d)]))
      (l_checked st).
Proof.
  intros H. rewrite setupLocal_iter_cases. cbn zeta. cbn [fst snd].
  destruct (bad_shape (LocalDescriptor.ModuleName d)); [done|].
  destruct H as [H|H]; [discriminate|]. by rewrite decide_True.
Qed.

(** The local validator returns its violations as one error as soon as
    there is one. *)
Lemma SetupLocalPlugins_Some m ord v :
  v ∈ errors_of (l_errs (local_loop ord (mkLocalLoop ∅ None []))) →
  SetupLocal (Some m) ord
  = Some (multierror_Error (errors_of (l_errs (local_loop ord (mkLocalLoop ∅ None []))))).
Proof.
  unfold SetupLocalPlugins. rewrite ErrorOrNil_errors_of.
  destruct (errors_of _) as [|x l]; [intros H; by apply elem_of_nil in H|]. reflexivity.
Qed.

(** C5.  An entry whose module name starts or ends with a separator, or
    repeats the module name of an earlier well-shaped entry, gets that one
    violation after its presence checks and nothing more: its name does
    not enter [uniq] and, in the local validator, its manifest is not
    checked.  The pass goes on: the entries after it are checked as they
    would be without it, every entry of the mapping gets its presence and
    shape checks, every repeated module name is reported, and the result
    is the error made of all the violations found. *)
Theorem short_circuit_and_collect_all :
  (∀ (m : gmap string Descriptor.t) pre pAlias d post,
     (bad_shape (Descriptor.ModuleName d) = true
      ∨ ∃ e, e ∈ pre ∧ bad_shape (Descriptor.ModuleName e.2) = false
             ∧ Descriptor.ModuleName e.2 = Descriptor.ModuleName d) →
     let st := checkRemote_loop pre (∅, []) in
     let ord := pre ++ (pAlias, d) :: post in
     let v := if bad_shape (Descriptor.ModuleName d) then InvalidNameShape pAlias
              else DuplicateModule (Descriptor.ModuleName d) in
     checkRemote_iter st (pAlias, d) = (st.1, st.2 ++ presence_violations (pAlias, d) ++ [v])
     ∧ (checkRemote_loop ord (∅, [])).2
       = st.2 ++ presence_violations (pAlias, d) ++ [v] ++ (checkRemote_loop post (st.1, [])).2
     ∧ (∀ e, e ∈ ord →
          (∀ x, x ∈ presence_violations e → x ∈ (checkRemote_loop ord (∅, [])).2)
          ∧ (bad_shape (Descriptor.ModuleName e.2) = true →
             InvalidNameShape e.1 ∈ (checkRemote_loop ord (∅, [])).2))
     ∧ (∀ l1 e1 l2 e2 l3,
          ord = l1 ++ e1 :: l2 ++ e2 :: l3 →
          bad_shape (Descriptor.ModuleName e1.2) = false →
          bad_shape (Descriptor.ModuleName e2.2) = false →
          Descriptor.ModuleName e1.2 = Descriptor.ModuleName e2.2 →
          DuplicateModule (Descriptor.ModuleName e2.2) ∈ (checkRemote_loop ord (∅, [])).2)
     ∧ checkRemotePluginsConfiguration (Some m) ord
       = Some (errors_New (strings_Join (checkRemote_loop ord (∅, [])).2 ": ")))
  ∧ (∀ (m : gmap string LocalDescriptor.t) pre pAlias d post,
       (bad_shape (LocalDescriptor.ModuleName d) = true
        ∨ ∃ e, e ∈ pre ∧ bad_shape (LocalDescriptor.ModuleName e.2) = false
               ∧ LocalDescriptor.ModuleName e.2 = LocalDescriptor.ModuleName d) →
       let st := local_loop pre (mkLocalLoop ∅ None []) in
       let ord := pre ++ (pAlias, d) :: post in
       let final := local_loop ord (mkLocalLoop ∅ None []) in
       let v := if bad_shape (LocalDescriptor.ModuleName d) then LocalInvalidNameShape pAlias
                else LocalDuplicateModule (LocalDescriptor.ModuleName d) in
       local_iter st (pAlias, d)
       = mkLocalLoop (l_uniq st)
           (Some ((errors_of (l_errs st) ++ local_presence_violations (pAlias, d)) ++ [v]))
           (l_checked st)
       ∧ final = local_loop post (local_iter st (pAlias, d))
       ∧ (∀ e, e ∈ ord →
            (∀ x, x ∈ local_presence_violations e → x ∈ errors_of (l_errs final))
            ∧ (bad_shape (LocalDescriptor.ModuleName e.2) = true →
               LocalInvalidNameShape e.1 ∈ errors_of (l_errs final))
            ∧ (bad_shape (LocalDescriptor.ModuleName e.2) = false →
               LocalDuplicateModule (LocalDescriptor.ModuleName e.2) ∈ errors_of (l_errs final)
               ∨ (LocalDescriptor.ModuleName e.2 ∈ l_checked final
                  ∧ ∀ x, x ∈ violations_of e.2 → x ∈ errors_of (l_errs final))))
       ∧ SetupLocal (Some m) ord = Some (multierror_Error (errors_of (l_errs final)))).
Proof.
  split.
  - intros m pre pAlias d post H st ord v.
    assert (bad_shape (Descriptor.ModuleName d) = true ∨ Descriptor.ModuleName d ∈ st.1) as H'.
    { destruct H as [H|(e & He & Hs & Hn)]; [by left|]. right.
      apply checkRemote_loop_uniq. right. by exists e. }
    assert (checkRemote_iter st (pAlias, d)
            = (st.1, st.2 ++ presence_violations (pAlias, d) ++ [v])) as Hiter.
    { destruct st as [uniq errs]. by apply checkRemote_iter_short_circuit. }
    assert ((checkRemote_loop ord (∅, [])).2
            = st.2 ++ presence_violations (pAlias, d) ++ [v]
                ++ (checkRemote_loop post (st.1, [])).2) as Hfinal.
    { unfold ord. rewrite checkRemote_loop_app, checkRemote_loop_cons. fold st.
      rewrite Hiter, checkRemote_loop_split. cbn [fst snd]. by rewrite <- !app_assoc. }
    split; [done|]. split; [done|]. split; [|split].
    + intros e He. by apply checkRemote_loop_checks_all.
    + intros l1 e1 l2 e2 l3 ->. apply checkRemote_loop_reports_duplicates.
    + apply (checkRemotePluginsConfiguration_Some _ _ v). rewrite Hfinal.
      rewrite !elem_of_app. right; right; left. apply list_elem_of_here.
  - intros m pre pAlias d post H st ord final v.
    assert (bad_shape (LocalDescriptor.ModuleName d) = true
            ∨ LocalDescriptor.ModuleName d ∈ l_uniq st) as H'.
    { destruct H as [H|(e & He & Hs & Hn)]; [by left|]. right.
      rewrite <- Hn. by apply setupLocal_loop_uniq. }
    pose proof (setupLocal_iter_short_circuit st pAlias d H') as Hiter. fold v in Hiter.
    assert (final = local_loop post (local_iter st (pAlias, d))) as Hfinal.
    { unfold final, ord. by rewrite setupLocal_loop_app, setupLocal_loop_cons. }
    split; [done|]. split; [done|]. split.
    + intros e He. by apply setupLocal_loop_checks_all.
    + apply (SetupLocalPlugins_Some _ _ v). fold final. rewrite Hfinal.
      apply setupLocal_loop_grows. rewrite Hiter. cbn [l_errs errors_of default from_option id].
      apply elem_of_app. right. apply list_elem_of_here.
Qed.

Lemma ranges_lookup {V} (m : gmap string V) ord k v :
  ranges ord (Some m) → m !! k = Some v → (k, v) ∈ ord.
Proof.
  unfold ranges. cbn. intros Hperm Hk. rewrite Hperm. by apply elem_of_map_to_list.
Qed.

Lemma bad_shape_empty : bad_shape "" = false.
Proof. reflexivity. Qed.

(** Two entries without a module name, in the order the pass meets them. *)
Lemma checkRemote_loop_two_unnamed l1 e1 l2 e2 l3 :
  Descriptor.ModuleName e1.2 = "" → Descriptor.ModuleName e2.2 = "" →
  let ord := l1 ++ e1 :: l2 ++ e2 :: l3 in
  "" ∈ (checkRemote_loop ord (∅, [])).1
  ∧ MissingName e1.1 ∈ (checkRemote_loop ord (∅, [])).2
  ∧ MissingName e2.1 ∈ (checkRemote_loop ord (∅, [])).2
  ∧ DuplicateModule "" ∈ (checkRemote_loop ord (∅, [])).2
  ∧ entry_violations (checkRemote_loop (l1 ++ e1 :: l2) (∅, [])).1 e2
    = presence_violations e2 ++ [DuplicateModule ""].
Proof.
  intros H1 H2 ord.
  assert (e1 ∈ ord) as Hin1 by (apply elem_of_app; right; apply list_elem_of_here).
  assert (e2 ∈ ord) as Hin2.
  { apply elem_of_app; right. apply list_elem_of_further, elem_of_app. right.
    apply list_elem_of_here. }
  assert (∀ e, Descriptor.ModuleName e.2 = "" → MissingName e.1 ∈ presence_violations e) as Hp.
  { intros e He. unfold presence_violations. rewrite decide_True by done.
    apply elem_of_app. left. apply list_elem_of_here. }
  split; [|split; [|split; [|split]]].
  - apply checkRemote_loop_uniq. right. exists e1. rewrite H1. by split.
  - apply (proj1 (checkRemote_loop_checks_all ord e1 Hin1)). by apply Hp.
  - apply (proj1 (checkRemote_loop_checks_all ord e2 Hin2)). by apply Hp.
  - rewrite <- H2. apply checkRemote_loop_reports_duplicates; rewrite ?H1, ?H2; done.
  - unfold entry_violations. rewrite checkRemote_iter_cases. cbn zeta. rewrite H2.
    rewrite bad_shape_empty, decide_True; [done|].
    apply checkRemote_loop_uniq. right. exists e1. rewrite H1. split; [|done].
    apply elem_of_app. right. apply list_elem_of_here.
Qed.

Lemma setupLocal_loop_two_unnamed l1 e1 l2 e2 l3 :
  LocalDescriptor.ModuleName e1.2 = "" → LocalDescriptor.ModuleName e2.2 = "" →
  let ord := l1 ++ e1 :: l2 ++ e2 :: l3 in
  let st := local_loop (l1 ++ e1 :: l2) (mkLocalLoop ∅ None []) in
  let final := local_loop ord (mkLocalLoop ∅ None []) in
  "" ∈ l_uniq final
  ∧ LocalMissingName e1.1 ∈ errors_of (l_errs final)
  ∧ LocalMissingName e2.1 ∈ errors_of (l_errs final)
  ∧ LocalDuplicateModule "" ∈ errors_of (l_errs final)
  ∧ local_iter st e2
    = mkLocalLoop (l_uniq st)
        (Some ((errors_of (l_errs st) ++ [LocalMissingName e2.1]) ++ [LocalDuplicateModule ""]))
        (l_checked st).
Proof.
  intros H1 H2 ord st final.
  assert (e1 ∈ ord) as Hin1 by (apply elem_of_app; right; apply list_elem_of_here).
  assert (e2 ∈ ord) as Hin2.
  { apply elem_of_app; right. apply list_elem_of_further, elem_of_app. right.
    apply list_elem_of_here. }
  assert (∀ e, LocalDescriptor.ModuleName e.2 = "" →
               local_presence_violations e = [LocalMissingName e.1]) as Hp.
  { intros e He. unfold local_presence_violations. by rewrite decide_True. }
  assert ("" ∈ l_uniq st) as Hu.
  { rewrite <- H1. apply setupLocal_loop_uniq; [|by rewrite H1].
    apply elem_of_app. right. apply list_elem_of_here. }
  assert (local_iter st e2
          = mkLocalLoop (l_uniq st)
              (Some ((errors_of (l_errs st) ++ [LocalMissingName e2.1])
                       ++ [LocalDuplicateModule ""]))
              (l_checked st)) as Hiter.
  { destruct e2 as [a2 d2]. cbn [fst snd] in *.
    rewrite setupLocal_iter_short_circuit by (right; by rewrite H2).
    rewrite H2, bad_shape_empty. rewrite (Hp (a2, d2)) by done. reflexivity. }
  assert (final = local_loop l3 (local_iter st e2)) as Hfinal.
  { unfold final, ord, st.
    replace (l1 ++ e1 :: l2 ++ e2 :: l3) with ((l1 ++ e1 :: l2) ++ e2 :: l3)
      by (by rewrite <- app_assoc).
    by rewrite setupLocal_loop_app, setupLocal_loop_cons. }
  split; [|split; [|split; [|split]]]; [| | | |done].
  - rewrite Hfinal. apply setupLocal_loop_grows. by rewrite Hiter.
  - apply (proj1 (setupLocal_loop_checks_all _ _ _ _ _ _ ord (mkLocalLoop ∅ None []) e1 Hin1)).
    rewrite Hp by done. apply list_elem_of_here.
  - apply (proj1 (setupLocal_loop_checks_all _ _ _ _ _ _ ord (mkLocalLoop ∅ None []) e2 Hin2)).
    rewrite Hp by done. apply list_elem_of_here.
  - rewrite Hfinal. apply setupLocal_loop_grows. rewrite Hiter.
    cbn [l_errs errors_of default from_option id].
    apply elem_of_app. right. apply list_elem_of_here.
Qed.

(** C9.  The empty module name is well shaped and enters [uniq] like any
    other.  A mapping with two entries without a module name is reported
    with a missing name for each of the two and, for the one visited
    later, a duplicate of the empty module name as well. *)
Theorem empty_module_names_reported :
  bad_shape "" = false
  ∧ (∀ (m : gmap string Descriptor.t) ord a1 d1 a2 d2,
       ranges ord (Some m) → a1 ≠ a2 →
       m !! a1 = Some d1 → m !! a2 = Some d2 →
       Descriptor.ModuleName d1 = "" → Descriptor.ModuleName d2 = "" →
       "" ∈ (checkRemote_loop ord (∅, [])).1
       ∧ MissingName a1 ∈ (checkRemote_loop ord (∅, [])).2
       ∧ MissingName a2 ∈ (checkRemote_loop ord (∅, [])).2
       ∧ DuplicateModule "" ∈ (checkRemote_loop ord (∅, [])).2
       ∧ (∃ pre first mid later post,
            ord = pre ++ first :: mid ++ later :: post
            ∧ ((first = (a1, d1) ∧ later = (a2, d2)) ∨ (first = (a2, d2) ∧ later = (a1, d1)))
            ∧ entry_violations (checkRemote_loop (pre ++ first :: mid) (∅, [])).1 later
              = presence_violations later ++ [DuplicateModule ""])
       ∧ checkRemotePluginsConfiguration (Some m) ord
         = Some (errors_New (strings_Join (checkRemote_loop ord (∅, [])).2 ": ")))
  ∧ (∀ (m : gmap string LocalDescriptor.t) ord a1 d1 a2 d2,
       ranges ord (Some m) → a1 ≠ a2 →
       m !! a1 = Some d1 → m !! a2 = Some d2 →
       LocalDescriptor.ModuleName d1 = "" → LocalDescriptor.ModuleName d2 = "" →
       let final := local_loop ord (mkLocalLoop ∅ None []) in
       "" ∈ l_uniq final
       ∧ LocalMissingName a1 ∈ errors_of (l_errs final)
       ∧ LocalMissingName a2 ∈ errors_of (l_errs final)
       ∧ LocalDuplicateModule "" ∈ errors_of (l_errs final)
       ∧ (∃ pre first mid later post,
            ord = pre ++ first :: mid ++ later :: post
            ∧ ((first = (a1, d1) ∧ later = (a2, d2)) ∨ (first = (a2, d2) ∧ later = (a1, d1)))
            ∧ let st := local_loop (pre ++ first :: mid) (mkLocalLoop ∅ None []) in
              local_iter st later
              = mkLocalLoop (l_uniq st)
                  (Some ((errors_of (l_errs st) ++ [LocalMissingName later.1])
                           ++ [LocalDuplicateModule ""]))
                  (l_checked st))
       ∧ SetupLocal (Some m) ord = Some (multierror_Error (errors_of (l_errs final)))).
Proof.
  split; [apply bad_shape_empty|]. split.
  - intros m ord a1 d1 a2 d2 Hr Hne Hm1 Hm2 Hn1 Hn2.
    apply (ranges_lookup _ _ _ _ Hr) in Hm1, Hm2.
    assert ((a1, d1) ≠ (a2, d2)) as Hne' by congruence.
    destruct (two_in_list _ _ _ Hm1 Hm2 Hne') as (l1 & l2 & l3 & [->| ->]).
    + destruct (checkRemote_loop_two_unnamed l1 (a1, d1) l2 (a2, d2) l3 Hn1 Hn2)
        as (Hu & H1 & H2 & Hd & Hlater).
      do 4 (split; [done|]). split.
      * exists l1, (a1, d1), l2, (a2, d2), l3. split; [done|]. split; [by left|done].
      * by apply (checkRemotePluginsConfiguration_Some _ _ (MissingName a1)).
    + destruct (checkRemote_loop_two_unnamed l1 (a2, d2) l2 (a1, d1) l3 Hn2 Hn1)
        as (Hu & H2 & H1 & Hd & Hlater).
      do 4 (split; [done|]). split.
      * exists l1, (a2, d2), l2, (a1, d1), l3. split; [done|]. split; [by right|done].
      * by apply (checkRemotePluginsConfiguration_Some _ _ (MissingName a1)).
  - intros m ord a1 d1 a2 d2 Hr Hne Hm1 Hm2 Hn1 Hn2 final.
    apply (ranges_lookup _ _ _ _ Hr) in Hm1, Hm2.
    assert ((a1, d1) ≠ (a2, d2)) as Hne' by congruence.
    destruct (two_in_list _ _ _ Hm1 Hm2 Hne') as (l1 & l2 & l3 & Hord).
    destruct Hord as [Hord|Hord]; subst ord.
    + destruct (setupLocal_loop_two_unnamed l1 (a1, d1) l2 (a2, d2) l3 Hn1 Hn2)
        as (Hu & H1 & H2 & Hd & Hlater).
      do 4 (split; [done|]). split.
      * exists l1, (a1, d1), l2, (a2, d2), l3. split; [done|]. split; [by left|done].
      * by apply (SetupLocalPlugins_Some _ _ (LocalMissingName a1)).
    + destruct (setupLocal_loop_two_unnamed l1 (a2, d2) l2 (a1, d1) l3 Hn2 Hn1)
        as (Hu & H2 & H1 & Hd & Hlater).
      do 4 (split; [done|]). split.
      * exists l1, (a2, d2), l2, (a1, d1), l3. split; [done|]. split; [by right|done].
      * by apply (SetupLocalPlugins_Some _ _ (LocalMissingName a1)).
Qed.
End ValidationClaims.

(** ** The validators at sample mappings *)

Lemma runtime_depends_on_type_witness :
  LocalSamples.typeMiddleware ≠ LocalSamples.typeProvider
  ∧ LocalSamples.ReadManifest localGoPath "foo" = inl LocalSamples.wasm_provider
  ∧ length (filter (λ e, is_UnsupportedRuntime e = true)
              (manifest_violations LocalSamples.typeMiddleware LocalSamples.typeProvider
                 LocalSamples.runtimeYaegi LocalSamples.runtimeWasm
                 LocalSamples.IsYaegiPlugin LocalSamples.ReadManifest
                 (LocalDescriptor.mk "foo"))) = 1%nat.
Proof.
  assert (LocalSamples.typeMiddleware ≠ LocalSamples.typeProvider) as H1 by discriminate.
  assert (LocalSamples.ReadManifest localGoPath "foo" = inl LocalSamples.wasm_provider) as H2
    by reflexivity.
  split; [exact H1|]. split; [exact H2|].
  pose proof (runtime_depends_on_type LocalSamples.typeMiddleware LocalSamples.typeProvider
                LocalSamples.runtimeYaegi LocalSamples.runtimeWasm
                LocalSamples.IsYaegiPlugin LocalSamples.ReadManifest
                (LocalDescriptor.mk "foo") LocalSamples.wasm_provider H1 H2) as (_ & _ & H3).
  assert (LocalSamples.runtimeWasm ≠ LocalSamples.runtimeYaegi) as H4 by discriminate.
  assert (LocalSamples.runtimeWasm ≠ "") as H5 by discriminate.
  exact (proj1 (H3 eq_refl eq_refl H4 H5)).
Defined.

Lemma short_circuit_and_collect_all_witness :
  bad_shape "/foo" = true
  ∧ (checkRemote_loop
       ([("a", Descriptor.mk "foo" "v1" true)]
          ++ ("b", Descriptor.mk "/foo" "" false)
          :: [("c", Descriptor.mk "foo" "v2" false); ("d", Descriptor.mk "" "v3" true)])
       (∅, [])).2
    = [MissingVersion "b"; InvalidNameShape "b"; DuplicateModule "foo"; MissingName "d"]
  ∧ l_checked
      (setupLocal_loop LocalSamples.typeMiddleware LocalSamples.typeProvider
         LocalSamples.runtimeYaegi LocalSamples.runtimeWasm
         LocalSamples.IsYaegiPlugin LocalSamples.ReadManifest
         LocalSamples.slash_then_dup (mkLocalLoop ∅ None []))
    = ["foo"; "bar"].
Proof.
  assert (bad_shape "/foo" = true) as H1 by reflexivity.
  split; [exact H1|].
  destruct (short_circuit_and_collect_all LocalSamples.typeMiddleware LocalSamples.typeProvider
              LocalSamples.runtimeYaegi LocalSamples.runtimeWasm
              LocalSamples.IsYaegiPlugin LocalSamples.ReadManifest) as [Hremote Hlocal].
  split.
  - destruct (Hremote ∅ [("a", Descriptor.mk "foo" "v1" true)]
                "b" (Descriptor.mk "/foo" "" false)
                [("c", Descriptor.mk "foo" "v2" false); ("d", Descriptor.mk "" "v3" true)]
                (or_introl H1)) as (_ & Hfinal & _).
    rewrite Hfinal. vm_compute. reflexivity.
  - destruct (Hlocal ∅ [("a", LocalDescriptor.mk "foo")] "b" (LocalDescriptor.mk "/foo")
                [("c", LocalDescriptor.mk "foo"); ("d", LocalDescriptor.mk "bar")]
                (or_introl H1)) as (Hiter & Hfinal & _).
    change (LocalSamples.slash_then_dup)
      with ([("a", LocalDescriptor.mk "foo")] ++ ("b", LocalDescriptor.mk "/foo")
              :: [("c", LocalDescriptor.mk "foo"); ("d", LocalDescriptor.mk "bar")]).
    rewrite Hfinal, Hiter. vm_compute. reflexivity.
Defined.

Lemma empty_module_names_reported_witness :
  Samples.twice_no_name !! "a" = Some (Samples.no_name "v1")
  ∧ Samples.twice_no_name !! "b" = Some (Samples.no_name "v2")
  ∧ DuplicateModule "" ∈ (checkRemote_loop (map_to_list Samples.twice_no_name) (∅, [])).2
  ∧ LocalDuplicateModule ""
      ∈ errors_of (l_errs (setupLocal_loop LocalSamples.typeMiddleware LocalSamples.typeProvider
                             LocalSamples.runtimeYaegi LocalSamples.runtimeWasm
                             LocalSamples.IsYaegiPlugin LocalSamples.ReadManifest
                             (map_to_list LocalSamples.two_unnamed) (mkLocalLoop ∅ None []))).
Proof.
  assert (Samples.twice_no_name !! "a" = Some (Samples.no_name "v1")) as H1
    by (vm_compute; reflexivity).
  assert (Samples.twice_no_name !! "b" = Some (Samples.no_name "v2")) as H2
    by (vm_compute; reflexivity).
  split; [exact H1|]. split; [exact H2|].
  destruct (empty_module_names_reported LocalSamples.typeMiddleware LocalSamples.typeProvider
              LocalSamples.runtimeYaegi LocalSamples.runtimeWasm
              LocalSamples.IsYaegiPlugin LocalSamples.ReadManifest) as (_ & Hremote & Hlocal).
  split.
  - assert ("a" ≠ "b") as Hne by discriminate.
    exact (proj1 (proj2 (proj2 (proj2
             (Hremote Samples.twice_no_name (map_to_list Samples.twice_no_name)
                "a" (Samples.no_name "v1") "b" (Samples.no_name "v2")
                (ranges_map_to_list _) Hne H1 H2 eq_refl eq_refl))))).
  - assert ("a" ≠ "b") as Hne by discriminate.
    assert (ranges (map_to_list LocalSamples.two_unnamed) (Some LocalSamples.two_unnamed)) as Hr
      by (unfold ranges; reflexivity).
    assert (LocalSamples.two_unnamed !! "a" = Some (LocalDescriptor.mk "")) as L1
      by (vm_compute; reflexivity).
    assert (LocalSamples.two_unnamed !! "b" = Some (LocalDescriptor.mk "")) as L2
      by (vm_compute; reflexivity).
    exact (proj1 (proj2 (proj2 (proj2
             (Hlocal LocalSamples.two_unnamed (map_to_list LocalSamples.two_unnamed)
                "a" (LocalDescriptor.mk "") "b" (LocalDescriptor.mk "")
                Hr Hne L1 L2 eq_refl eq_refl))))).
Defined.

(** * Further properties of the pipeline *)

(** ** How a run fails *)

Section FailurePaths.
Context {St : Type} (client : Client St).
Implicit Types (w : World St) (d : Descriptor.t) (m : gmap string Descriptor.t).

Lemma provisioned_calls_not_failed d hash ev :
  ev ∈ provisioned_calls d hash → failed ev = false.
Proof.
  unfold provisioned_calls. intros Hin.
  repeat (apply elem_of_cons in Hin as [->|Hin]; [done|]). by apply elem_of_nil in Hin.
Qed.

Lemma failed_step_last d t err : failed_step d t err → ∃ r, last t = Some (CallResetAll r).
Proof. intros [hash e r|hash e r|hash e r]; by exists r. Qed.

(** The failing call of a failed sub-step tells the reference and the error
    returned for it. *)
Lemma failed_step_check d t err moduleName version hash e :
  failed_step d t err →
  CallCheck moduleName version hash (Some e) ∈ t →
  moduleName = Descriptor.ModuleName d
  ∧ err = fmt_Errorf "unable to check archive integrity of the plugin %s: %w"
            [Descriptor.ModuleName d] (Some e).
Proof.
  intros [h e' r|h e' r|h e' r] Hin;
    repeat (apply elem_of_cons in Hin as [Hin|Hin]; [try discriminate|]);
    try (by apply elem_of_nil in Hin).
  by inversion Hin.
Qed.

Lemma failed_step_unzip d t err moduleName version e :
  failed_step d t err →
  CallUnzip moduleName version (Some e) ∈ t →
  moduleName = Descriptor.ModuleName d
  ∧ err = fmt_Errorf "unable to unzip archive: %w" [] (Some e).
Proof.
  intros [h e' r|h e' r|h e' r] Hin;
    repeat (apply elem_of_cons in Hin as [Hin|Hin]; [try discriminate|]);
    try (by apply elem_of_nil in Hin).
  by inversion Hin.
Qed.

(** A failed call among the calls of the loop belongs to the failed sub-step
    of a reference of the mapping; when that reference is required, the loop
    returns its error and the sub-step is the last thing the loop did. *)
Lemma loop_outcome_failed_call ord un f t ev :
  loop_outcome ord un f t →
  ev ∈ t → failed ev = true →
  ∃ pAlias d t0 err,
    (pAlias, d) ∈ ord ∧ failed_step d t0 err ∧ ev ∈ t0
    ∧ (Descriptor.Required d = true → f = Return err ∧ ∃ pre, t = pre ++ t0).
Proof.
  induction 1 as [un|a d rest un h f t H IH|a d rest un t0 err f t Hreq Hfail H IH
                  |a d rest un t0 err Hreq Hfail]; intros Hin Hf.
  - by apply elem_of_nil in Hin.
  - apply elem_of_app in Hin as [Hin|Hin].
    { rewrite (provisioned_calls_not_failed _ _ _ Hin) in Hf. discriminate. }
    destruct (IH Hin Hf) as (a' & d' & t0 & err & Hd' & Hfail & Hev & Hr).
    exists a', d', t0, err. split; [by apply list_elem_of_further|]. do 2 (split; [done|]).
    intros Hq. destruct (Hr Hq) as [-> [pre ->]]. split; [done|].
    exists (provisioned_calls d h ++ pre). by rewrite <- app_assoc.
  - apply elem_of_app in Hin as [Hin|Hin].
    { exists a, d, t0, err. split; [apply list_elem_of_here|]. do 2 (split; [done|]).
      intros Hq. congruence. }
    destruct (IH Hin Hf) as (a' & d' & t1 & err' & Hd' & Hfail' & Hev & Hr).
    exists a', d', t1, err'. split; [by apply list_elem_of_further|]. do 2 (split; [done|]).
    intros Hq. destruct (Hr Hq) as [-> [pre ->]]. split; [done|].
    exists (t0 ++ pre). by rewrite <- app_assoc.
  - exists a, d, t0, err. split; [apply list_elem_of_here|]. do 2 (split; [done|]).
    intros _. split; [done|]. by exists [].
Qed.

(** A failed Download, Check or Unzip of a required reference ends the run:
    the run returns the error [E] of that sub-step, its last call is the
    reset, and [WriteState] is not called. *)
Lemma required_step_failure ord_check ord_setup m cs pAlias d ev E :
  ranges ord_check (Some m) → ranges ord_setup (Some m) →
  m !! pAlias = Some d →
  Descriptor.Required d = true →
  ev ∈ calls (SetupRemotePlugins client ord_check ord_setup (mkWorld (Some m) cs)) →
  failed ev = true → is_step ev = true →
  (∀ d' t0 err, failed_step d' t0 err → ev ∈ t0 →
                Descriptor.ModuleName d' = Descriptor.ModuleName d ∧ err = E) →
  result (SetupRemotePlugins client ord_check ord_setup (mkWorld (Some m) cs)) = Some E
  ∧ (∃ r, last (calls (SetupRemotePlugins client ord_check ord_setup (mkWorld (Some m) cs)))
          = Some (CallResetAll r))
  ∧ written (calls (SetupRemotePlugins client ord_check ord_setup (mkWorld (Some m) cs))) = [].
Proof.
  intros Hrc Hrs Hm Hreq Hin Hf Hstep Hid.
  pose proof (SetupRemotePlugins_outcome client ord_check ord_setup (mkWorld (Some m) cs)) as Hout.
  cbn [mapObj] in Hout.
  assert (∀ f t, loop_outcome ord_setup [] f t →
                 checkRemotePluginsConfiguration (Some m) ord_check = None →
                 ev ∈ t →
                 f = Return E ∧ ∃ r, last t = Some (CallResetAll r)) as Hloop.
  { intros f t Hlo Hc Ht.
    destruct (loop_outcome_failed_call _ _ _ _ _ Hlo Ht Hf)
      as (a' & d' & t0 & err & Hd' & Hfail & Hev & Hr).
    destruct (Hid _ _ _ Hfail Hev) as [Hname ->].
    apply (ranges_elem_of _ _ _ _ Hrs) in Hm.
    assert (ord_check ≡ₚ ord_setup) as Hperm by (unfold ranges in *; by rewrite Hrc, Hrs).
    destruct (validated_names_unique _ _ _ _ _ _ _ Hc Hperm Hm Hd') as [_ <-]; [done|].
    destruct (Hr Hreq) as [-> [pre ->]]. split; [done|].
    destruct (failed_step_last _ _ _ Hfail) as [r Hlast]. exists r.
    rewrite last_app, Hlast. done. }
  destruct Hout as [err Hc|err Hc|err t Hc Hlo|un t Hc Hlo|un t err r Hc Hlo].
  - by apply elem_of_nil in Hin.
  - apply elem_of_cons in Hin as [->|Hin]; [discriminate|by apply elem_of_nil in Hin].
  - apply elem_of_cons in Hin as [->|Hin]; [discriminate|].
    destruct (Hloop _ _ Hlo Hc Hin) as [Heq [r Hr]]. inversion Heq; subst err.
    split; [done|]. split.
    + exists r. change (last ([CallCleanArchives (Some m) None] ++ t) = Some (CallResetAll r)).
      by rewrite last_app, Hr.
    + change (written ([CallCleanArchives (Some m) None] ++ t) = []).
      by rewrite written_app, (loop_outcome_written _ _ _ _ Hlo).
  - apply elem_of_cons in Hin as [->|Hin]; [discriminate|].
    apply elem_of_app in Hin as [Hin|Hin].
    + by destruct (Hloop _ _ Hlo Hc Hin) as [Heq _].
    + apply elem_of_cons in Hin as [->|Hin]; [discriminate|by apply elem_of_nil in Hin].
  - apply elem_of_cons in Hin as [->|Hin]; [discriminate|].
    apply elem_of_app in Hin as [Hin|Hin].
    + by destruct (Hloop _ _ Hlo Hc Hin) as [Heq _].
    + repeat (apply elem_of_cons in Hin as [->|Hin]; [discriminate|]).
      by apply elem_of_nil in Hin.
Qed.

(** X1.  When validation passes and [CleanArchives] fails, the run stops at
    once: it returns the error wrapped as "unable to clean archives", the
    failed call is the only call made (no reset), and the mapping is left as
    it was. *)
Theorem clean_archives_failure ord_check ord_setup w e s1 :
  checkRemotePluginsConfiguration (mapObj w) ord_check = None →
  CleanArchives client (mapObj w) (clientSt w) = (Some e, s1) →
  SetupRemotePlugins client ord_check ord_setup w
  = (Some (fmt_Errorf "unable to clean archives: %w" [] (Some e)),
     mkWorld (mapObj w) s1,
     [CallCleanArchives (mapObj w) (Some e)]).
Proof.
  intros Hc Hclean.
  unfold SetupRemotePlugins, mbind, M_bind, readPlugins, call_CleanArchives.
  rewrite Hc, Hclean. reflexivity.
Qed.

(** X2.  When [WriteState] fails, the run returns the error wrapped as
    "unable to write plugins state", the map that was handed to [WriteState]
    is the caller's map as the run leaves it, and the reset that follows is
    the last call of the run. *)
Theorem write_state_failure ord_check ord_setup w plugins e :
  CallWriteState plugins (Some e) ∈ calls (SetupRemotePlugins client ord_check ord_setup w) →
  result (SetupRemotePlugins client ord_check ord_setup w)
  = Some (fmt_Errorf "unable to write plugins state: %w" [] (Some e))
  ∧ plugins = mapObj (world (SetupRemotePlugins client ord_check ord_setup w))
  ∧ ∃ pre r, calls (SetupRemotePlugins client ord_check ord_setup w)
             = pre ++ [CallWriteState plugins (Some e); CallResetAll r]
             ∧ written pre = [].
Proof.
  intros Hin.
  pose proof (SetupRemotePlugins_outcome client ord_check ord_setup w) as Hout.
  assert (∀ f un t, loop_outcome ord_setup un f t → CallWriteState plugins (Some e) ∉ t) as Hloop.
  { intros f un t Hlo Ht. pose proof (loop_outcome_written _ _ _ _ Hlo) as Hw.
    apply list_elem_of_split in Ht as (l1 & l2 & ->).
    rewrite written_app in Hw. apply app_eq_nil in Hw as [_ Hw]. discriminate. }
  destruct Hout as [err Hc|err Hc|err t Hc Hlo|un t Hc Hlo|un t err r Hc Hlo].
  - by apply elem_of_nil in Hin.
  - apply elem_of_cons in Hin as [Hin|Hin]; [discriminate|by apply elem_of_nil in Hin].
  - apply elem_of_cons in Hin as [Hin|Hin]; [discriminate|]. by apply Hloop in Hlo.
  - apply elem_of_cons in Hin as [Hin|Hin]; [discriminate|].
    apply elem_of_app in Hin as [Hin|Hin]; [by apply Hloop in Hlo|].
    apply elem_of_cons in Hin as [Hin|Hin]; [discriminate|by apply elem_of_nil in Hin].
  - apply elem_of_cons in Hin as [Hin|Hin]; [discriminate|].
    apply elem_of_app in Hin as [Hin|Hin]; [by apply Hloop in Hlo|].
    apply elem_of_cons in Hin as [Hin|Hin];
      [|apply elem_of_cons in Hin as [Hin|Hin]; [discriminate|by apply elem_of_nil in Hin]].
    inversion Hin; subst. split; [done|]. split; [done|].
    exists (CallCleanArchives (mapObj w) None :: t), r. split; [done|].
    change (written ([CallCleanArchives (mapObj w) None] ++ t) = []).
    by rewrite written_app, (loop_outcome_written _ _ _ _ Hlo).
Qed.

(** X3.  When the Check of a required reference of the mapping fails, the
    run returns the error of the Check wrapped in a message that names the
    module, its last call is the reset, and [WriteState] is not called. *)
Theorem required_check_failure ord_check ord_setup m cs pAlias d hash e :
  ranges ord_check (Some m) → ranges ord_setup (Some m) →
  m !! pAlias = Some d →
  Descriptor.Required d = true →
  CallCheck (Descriptor.ModuleName d) (Descriptor.Version d) hash (Some e)
    ∈ calls (SetupRemotePlugins client ord_check ord_setup (mkWorld (Some m) cs)) →
  result (SetupRemotePlugins client ord_check ord_setup (mkWorld (Some m) cs))
  = Some (fmt_Errorf "unable to check archive integrity of the plugin %s: %w"
            [Descriptor.ModuleName d] (Some e))
  ∧ (∃ r, last (calls (SetupRemotePlugins client ord_check ord_setup (mkWorld (Some m) cs)))
          = Some (CallResetAll r))
  ∧ written (calls (SetupRemotePlugins client ord_check ord_setup (mkWorld (Some m) cs))) = [].
Proof.
  intros Hrc Hrs Hm Hreq Hin.
  eapply required_step_failure; try done.
  intros d' t0 err Hfail Hev. by destruct (failed_step_check _ _ _ _ _ _ _ Hfail Hev) as [-> ->].
Qed.

(** X4.  When the Unzip of a required reference of the mapping fails, the
    run returns the error of the Unzip wrapped as "unable to unzip archive",
    a message that carries no module name; its last call is the reset, and
    [WriteState] is not called. *)
Theorem required_unzip_failure ord_check ord_setup m cs pAlias d e :
  ranges ord_check (Some m) → ranges ord_setup (Some m) →
  m !! pAlias = Some d →
  Descriptor.Required d = true →
  CallUnzip (Descriptor.ModuleName d) (Descriptor.Version d) (Some e)
    ∈ calls (SetupRemotePlugins client ord_check ord_setup (mkWorld (Some m) cs)) →
  result (SetupRemotePlugins client ord_check ord_setup (mkWorld (Some m) cs))
  = Some (fmt_Errorf "unable to unzip archive: %w" [] (Some e))
  ∧ (∃ r, last (calls (SetupRemotePlugins client ord_check ord_setup (mkWorld (Some m) cs)))
          = Some (CallResetAll r))
  ∧ written (calls (SetupRemotePlugins client ord_check ord_setup (mkWorld (Some m) cs))) = [].
Proof.
  intros Hrc Hrs Hm Hreq Hin.
  eapply required_step_failure; try done.
  intros d' t0 err Hfail Hev. by destruct (failed_step_unzip _ _ _ _ _ _ Hfail Hev) as [-> ->].
Qed.
End FailurePaths.

(** ** The discipline of the call log *)

Lemma preceded_app Q R t1 t2 : preceded Q R t1 → preceded Q R t2 → preceded Q R (t1 ++ t2).
Proof.
  intros H1 H2 i ev Hi HQ. apply lookup_app_Some in Hi as [Hi|[Hlen Hi]].
  - destruct (H1 i ev Hi HQ) as (j & prev & -> & Hj & HR).
    exists j, prev. split; [done|]. split; [by apply lookup_app_l_Some|done].
  - destruct (H2 _ ev Hi HQ) as (j & prev & Hij & Hj & HR).
    exists (length t1 + j), prev. split; [lia|]. split; [|done].
    rewrite lookup_app_r by lia. by replace (length t1 + j - length t1) with j by lia.
Qed.

Lemma followed_app Q R t1 t2 : followed Q R t1 → followed Q R t2 → followed Q R (t1 ++ t2).
Proof.
  intros H1 H2 i ev Hi HQ. apply lookup_app_Some in Hi as [Hi|[Hlen Hi]].
  - destruct (H1 i ev Hi HQ) as (next & Hn & HR).
    exists next. split; [by apply lookup_app_l_Some|done].
  - destruct (H2 _ ev Hi HQ) as (next & Hn & HR).
    exists next. split; [|done].
    rewrite lookup_app_r by lia. by replace (S i - length t1) with (S (i - length t1)) by lia.
Qed.

(** A property of logs that holds of the empty log, of the calls of each
    provisioned or failed reference, and of concatenations, holds of the calls
    of the loop. *)
Lemma loop_outcome_blocks (P : list Event → Prop) :
  P [] →
  (∀ t1 t2, P t1 → P t2 → P (t1 ++ t2)) →
  (∀ d hash, P (provisioned_calls d hash)) →
  (∀ d t0 err, failed_step d t0 err → P t0) →
  ∀ ord un f t, loop_outcome ord un f t → P t.
Proof.
  intros Hnil Happ Hok Hfail ord un f t.
  induction 1 as [| ? ? ? ? ? ? ? ? IH | ? ? ? ? ? ? ? ? ? Hf ? IH | ? ? ? ? ? ? ? Hf]; eauto.
Qed.

Section LogDiscipline.
Context {St : Type} (client : Client St).
Implicit Types (w : World St) (d : Descriptor.t) (m : gmap string Descriptor.t).

(** The same for the calls of a whole run, with the calls around the loop. *)
Lemma run_blocks (P : list Event → Prop) :
  P [] →
  (∀ t1 t2, P t1 → P t2 → P (t1 ++ t2)) →
  (∀ d hash, P (provisioned_calls d hash)) →
  (∀ d t0 err, failed_step d t0 err → P t0) →
  (∀ plugins r, P [CallCleanArchives plugins r]) →
  (∀ plugins, P [CallWriteState plugins None]) →
  (∀ plugins e r, P [CallWriteState plugins (Some e); CallResetAll r]) →
  ∀ ord_check ord_setup w, P (calls (SetupRemotePlugins client ord_check ord_setup w)).
Proof.
  intros Hnil Happ Hok Hfail Hclean Hwrite Hwf ord_check ord_setup w.
  pose proof (SetupRemotePlugins_outcome client ord_check ord_setup w) as Hout.
  destruct Hout as [err Hc|err Hc|err t Hc Hlo|un t Hc Hlo|un t err r Hc Hlo].
  - done.
  - done.
  - apply (Happ [_] t); [done|]. by eapply loop_outcome_blocks.
  - apply (Happ [_] (t ++ [_])); [done|]. apply Happ; [|done]. by eapply loop_outcome_blocks.
  - apply (Happ [_] (t ++ [_; _])); [done|]. apply Happ; [|done]. by eapply loop_outcome_blocks.
Qed.

Lemma run_calls_licensed ord_check ord_setup w :
  preceded needs_licence licence (calls (SetupRemotePlugins client ord_check ord_setup w)).
Proof.
  apply run_blocks.
  - intros i ev Hi. done.
  - apply preceded_app.
  - intros d hash i ev Hi HQ. unfold provisioned_calls in Hi.
    destruct i as [|[|[|i]]]; cbn in Hi; inversion Hi; subst; cbn in HQ; try done;
      eexists _, _; (split; [reflexivity|]); (split; [reflexivity|]); cbn; eauto.
  - intros d t0 err [hash e r|hash e r|hash e r] i ev Hi HQ;
      destruct i as [|[|[|[|i]]]]; cbn in Hi; inversion Hi; subst; cbn in HQ; try done;
      eexists _, _; (split; [reflexivity|]); (split; [reflexivity|]); cbn; eauto.
  - intros plugins r i ev Hi HQ. destruct i as [|i]; cbn in Hi; inversion Hi; subst; done.
  - intros plugins i ev Hi HQ. destruct i as [|i]; cbn in Hi; inversion Hi; subst; done.
  - intros plugins e r i ev Hi HQ.
    destruct i as [|[|i]]; cbn in Hi; inversion Hi; subst; cbn in HQ; try done.
    eexists _, _. split; [reflexivity|]. split; [reflexivity|]. done.
Qed.

Lemma run_failures_reset ord_check ord_setup w :
  followed reset_due is_reset (calls (SetupRemotePlugins client ord_check ord_setup w)).
Proof.
  apply run_blocks.
  - intros i ev Hi. done.
  - apply followed_app.
  - intros d hash i ev Hi [HQ _]. unfold provisioned_calls in Hi.
    destruct i as [|[|[|i]]]; cbn in Hi; inversion Hi; subst; discriminate.
  - intros d t0 err [hash e r|hash e r|hash e r] i ev Hi [HQ _];
      destruct i as [|[|[|[|i]]]]; cbn in Hi; inversion Hi; subst; try discriminate;
      eexists; (split; [reflexivity|]); by eexists.
  - intros plugins r i ev Hi [_ HQ]. destruct i as [|i]; cbn in Hi; inversion Hi; subst.
    by destruct (HQ plugins r).
  - intros plugins i ev Hi [HQ _]. destruct i as [|i]; cbn in Hi; inversion Hi; subst.
    discriminate.
  - intros plugins e r i ev Hi [HQ _].
    destruct i as [|[|i]]; cbn in Hi; inversion Hi; subst; try discriminate.
    eexists. split; [reflexivity|]. by eexists.
Qed.

(** X5.  No archive is checked or unpacked out of turn.  In every run, a
    Check comes right after the successful Download of the same module and
    version and checks the hash that Download returned; an Unzip comes right
    after the successful Check of the same module and version, hence two
    calls after its successful Download. *)
Theorem unzip_only_after_verification ord_check ord_setup w :
  (∀ i moduleName version hash r,
     calls (SetupRemotePlugins client ord_check ord_setup w) !! i
     = Some (CallCheck moduleName version hash r) →
     ∃ j, i = S j
          ∧ calls (SetupRemotePlugins client ord_check ord_setup w) !! j
            = Some (CallDownload moduleName version hash None))
  ∧ (∀ i moduleName version r,
       calls (SetupRemotePlugins client ord_check ord_setup w) !! i
       = Some (CallUnzip moduleName version r) →
       ∃ j hash, i = S (S j)
            ∧ calls (SetupRemotePlugins client ord_check ord_setup w) !! j
              = Some (CallDownload moduleName version hash None)
            ∧ calls (SetupRemotePlugins client ord_check ord_setup w) !! S j
              = Some (CallCheck moduleName version hash None)).
Proof.
  pose proof (run_calls_licensed ord_check ord_setup w) as Hlic.
  assert (∀ i moduleName version hash r,
            calls (SetupRemotePlugins client ord_check ord_setup w) !! i
            = Some (CallCheck moduleName version hash r) →
            ∃ j, i = S j
                 ∧ calls (SetupRemotePlugins client ord_check ord_setup w) !! j
                   = Some (CallDownload moduleName version hash None)) as Hcheck.
  { intros i mn v h r Hi. destruct (Hlic i _ Hi I) as (j & prev & -> & Hj & HR).
    cbn in HR. subst prev. by exists j. }
  split; [done|].
  intros i mn v r Hi. destruct (Hlic i _ Hi I) as (j & prev & -> & Hj & [h HR]).
  subst prev. destruct (Hcheck _ _ _ _ _ Hj) as (k & -> & Hk). by exists k, h.
Qed.

(** The call right before a reset is one of the failed calls the pipeline
    resets the store for: never a [CleanArchives]. *)
Lemma run_resets_caused ord_check ord_setup w :
  preceded (λ ev, ∃ r, ev = CallResetAll r) (λ prev _, reset_due prev)
    (calls (SetupRemotePlugins client ord_check ord_setup w)).
Proof.
  apply run_blocks.
  - intros i ev Hi. done.
  - apply preceded_app.
  - intros d hash i ev Hi [r ->]. unfold provisioned_calls in Hi.
    destruct i as [|[|[|i]]]; cbn in Hi; discriminate.
  - intros d t0 err [hash e r0|hash e r0|hash e r0] i ev Hi [r ->];
      destruct i as [|[|[|[|i]]]]; cbn in Hi; try discriminate;
      eexists _, _; (split; [reflexivity|]); (split; [reflexivity|]);
      (split; [reflexivity|]); intros plugins err'; discriminate.
  - intros plugins r0 i ev Hi [r ->]. destruct i as [|i]; cbn in Hi; discriminate.
  - intros plugins i ev Hi [r ->]. destruct i as [|i]; cbn in Hi; discriminate.
  - intros plugins e r0 i ev Hi [r ->].
    destruct i as [|[|i]]; cbn in Hi; try discriminate.
    eexists _, _. split; [reflexivity|]. split; [reflexivity|].
    split; [reflexivity|]. intros plugins' err'. discriminate.
Qed.

End LogDiscipline.

(** ** The shape of a run *)

Lemma downloads_app t1 t2 : downloads (t1 ++ t2) = downloads t1 ++ downloads t2.
Proof. unfold downloads. apply omap_app. Qed.

Lemma failed_step_downloads d t err :
  failed_step d t err → downloads t = [(Descriptor.ModuleName d, Descriptor.Version d)].
Proof. by intros []. Qed.

(** The loop downloads the archives of the references in visiting order,
    one Download each, up to the reference it returns at, if any. *)
Lemma loop_outcome_downloads ord un f t :
  loop_outcome ord un f t →
  downloads t `prefix_of` archives ord
  ∧ ∀ un', f = Next un' → downloads t = archives ord.
Proof.
  induction 1 as [un|a d rest un h f t H [IHp IHe]|a d rest un t0 err f t Hreq Hfail H [IHp IHe]
                  |a d rest un t0 err Hreq Hfail].
  - split; [done|]. done.
  - rewrite downloads_app. cbn [archives map fst snd]. split.
    + by apply (prefix_app [_]).
    + intros un' Hf. by rewrite (IHe _ Hf).
  - rewrite downloads_app, (failed_step_downloads _ _ _ Hfail). cbn [archives map fst snd]. split.
    + by apply (prefix_app [_]).
    + intros un' Hf. by rewrite (IHe _ Hf).
  - rewrite (failed_step_downloads _ _ _ Hfail). cbn [archives map fst snd]. split.
    + by apply (prefix_app [_] []), prefix_nil.
    + discriminate.
Qed.

Lemma loop_outcome_return_last ord un err t :
  loop_outcome ord un (Return err) t → ∃ r, last t = Some (CallResetAll r).
Proof.
  intros H. remember (Return err) as f eqn:Hf. revert Hf.
  induction H as [un|a d rest un h f t H IH|a d rest un t0 e f t Hreq Hfail H IH
                  |a d rest un t0 e Hreq Hfail]; intros Hf.
  - discriminate.
  - destruct (IH Hf) as [r Hr]. exists r. by rewrite last_app, Hr.
  - destruct (IH Hf) as [r Hr]. exists r. by rewrite last_app, Hr.
  - by eapply failed_step_last.
Qed.

Lemma loop_outcome_no_clean ord un f t plugins r :
  loop_outcome ord un f t → CallCleanArchives plugins r ∉ t.
Proof.
  revert ord un f t. apply loop_outcome_blocks.
  - intros H. by apply elem_of_nil in H.
  - intros t1 t2 H1 H2 H. apply elem_of_app in H as [H|H]; auto.
  - intros d hash H. unfold provisioned_calls in H.
    repeat (apply elem_of_cons in H as [H|H]; [discriminate|]). by apply elem_of_nil in H.
  - intros d t0 err Hfail H.
    destruct Hfail; repeat (apply elem_of_cons in H as [H|H]; [discriminate|]);
      by apply elem_of_nil in H.
Qed.

Section RunShape.
Context {St : Type} (client : Client St).
Implicit Types (w : World St) (d : Descriptor.t) (m : gmap string Descriptor.t).

(** The first thing a run does once validation has passed is to call
    [CleanArchives] on the caller's mapping. *)
Lemma first_call_is_clean_archives ord_check ord_setup w :
  checkRemotePluginsConfiguration (mapObj w) ord_check = None →
  head (calls (SetupRemotePlugins client ord_check ord_setup w))
  = Some (CallCleanArchives (mapObj w) (CleanArchives client (mapObj w) (clientSt w)).1).
Proof.
  intros Hc. remember (SetupRemotePlugins client ord_check ord_setup w) as run eqn:Hrun.
  unfold SetupRemotePlugins in Hrun.
  unfold mbind at 1, M_bind at 1, readPlugins at 1 in Hrun. rewrite Hc in Hrun.
  unfold mbind at 1, M_bind at 1, call_CleanArchives in Hrun.
  destruct (CleanArchives client (mapObj w) (clientSt w)) as [[e|] s1].
  { subst run. reflexivity. }
  unfold mbind at 1, M_bind at 1 in Hrun.
  destruct (setup_loop client ord_setup [] (mkWorld (mapObj w) s1)) as [[f w1] t1].
  destruct f as [un|err].
  - unfold mbind at 1, M_bind at 1 in Hrun. rewrite delete_unavailable_run in Hrun.
    unfold mbind, M_bind, readPlugins, call_WriteState, call_ResetAll, mret, M_ret in Hrun.
    cbn [mapObj clientSt] in Hrun.
    destruct (WriteState client _ (clientSt w1)) as [[err|] s2].
    + cbn [mapObj clientSt] in Hrun.
      destruct (ResetAll client s2) as [r s3]. subst run. reflexivity.
    + subst run. reflexivity.
  - subst run. reflexivity.
Qed.

(** X7.  A run makes no Client call exactly when validation rejects the
    mapping.  Otherwise [CleanArchives] is called, first of all calls, on
    the caller's mapping and the Client as the run finds them, and it is
    not called again. *)
Theorem clean_archives_once_and_first ord_check ord_setup w :
  (calls (SetupRemotePlugins client ord_check ord_setup w) = []
   ↔ is_Some (checkRemotePluginsConfiguration (mapObj w) ord_check))
  ∧ (checkRemotePluginsConfiguration (mapObj w) ord_check = None →
     ∃ rest,
       calls (SetupRemotePlugins client ord_check ord_setup w)
       = CallCleanArchives (mapObj w) (CleanArchives client (mapObj w) (clientSt w)).1 :: rest
       ∧ ∀ plugins r, CallCleanArchives plugins r ∉ rest)
  ∧ (∀ i plugins r,
       calls (SetupRemotePlugins client ord_check ord_setup w) !! i
       = Some (CallCleanArchives plugins r) →
       i = 0%nat ∧ plugins = mapObj w).
Proof.
  assert (∀ i plugins r,
            calls (SetupRemotePlugins client ord_check ord_setup w) !! i
            = Some (CallCleanArchives plugins r) →
            i = 0%nat ∧ plugins = mapObj w) as Honce.
  { pose proof (SetupRemotePlugins_outcome client ord_check ord_setup w) as Hout.
    assert (∀ f un t tail i plugins r,
              loop_outcome ord_setup un f t →
              (∀ p r', CallCleanArchives p r' ∉ tail) →
              (CallCleanArchives (mapObj w) None :: t ++ tail) !! i
              = Some (CallCleanArchives plugins r) →
              i = 0%nat ∧ plugins = mapObj w) as Hloop.
    { intros f un t tail i plugins r Hlo Htail Hi. destruct i as [|i].
      - cbn in Hi. by inversion Hi.
      - cbn in Hi. apply list_elem_of_lookup_2 in Hi. apply elem_of_app in Hi as [Hi|Hi].
        + by apply (loop_outcome_no_clean _ _ _ _ _ _ Hlo) in Hi.
        + by apply Htail in Hi. }
    destruct Hout as [err Hc|err Hc|err t Hc Hlo|un t Hc Hlo|un t err r Hc Hlo].
    - intros i plugins r Hi. done.
    - intros [|i] plugins r Hi; cbn in Hi; [by inversion Hi|done].
    - intros i plugins r Hi. apply (Hloop _ _ t [] i plugins r Hlo).
      + intros p r' H. by apply elem_of_nil in H.
      + by rewrite app_nil_r.
    - intros i plugins r Hi.
      apply (Hloop _ _ t [CallWriteState (foldl go_delete (mapObj w) un) None] i plugins r Hlo);
        [|done].
      intros p r' H. apply elem_of_cons in H as [H|H]; [discriminate|by apply elem_of_nil in H].
    - intros i plugins r' Hi.
      apply (Hloop _ _ t [CallWriteState (foldl go_delete (mapObj w) un) (Some err);
                          CallResetAll r] i plugins r' Hlo); [|done].
      intros p r'' H. repeat (apply elem_of_cons in H as [H|H]; [discriminate|]).
      by apply elem_of_nil in H. }
  split; [|split; [|done]].
  - pose proof (SetupRemotePlugins_outcome client ord_check ord_setup w) as Hout.
    destruct Hout as [err Hc|err Hc|err t Hc Hlo|un t Hc Hlo|un t err r Hc Hlo]; rewrite Hc.
    + split; [by eexists|done].
    + split; [done|intros [? ?]; done].
    + split; [done|intros [? ?]; done].
    + split; [done|intros [? ?]; done].
    + split; [done|intros [? ?]; done].
  - intros Hc. pose proof (first_call_is_clean_archives ord_check ord_setup w Hc) as Hhead.
    destruct (calls (SetupRemotePlugins client ord_check ord_setup w)) as [|ev rest] eqn:Hcalls;
      [discriminate|].
    cbn in Hhead. inversion Hhead; subst ev. exists rest. split; [done|].
    intros plugins r Hin. apply list_elem_of_lookup_1 in Hin as [i Hi].
    destruct (Honce (S i) plugins r) as [Habs _]; [exact Hi|discriminate].
Qed.

(** A failed [CleanArchives] is the last call of its run. *)
Lemma failed_clean_archives_ends_run ord_check ord_setup w i plugins err :
  calls (SetupRemotePlugins client ord_check ord_setup w) !! i
  = Some (CallCleanArchives plugins (Some err)) →
  calls (SetupRemotePlugins client ord_check ord_setup w) !! S i = None.
Proof.
  pose proof (SetupRemotePlugins_outcome client ord_check ord_setup w) as Hout.
  assert (∀ f un t tail,
            loop_outcome ord_setup un f t →
            (∀ p r', CallCleanArchives p r' ∉ tail) →
            (CallCleanArchives (mapObj w) None :: t ++ tail) !! i
            = Some (CallCleanArchives plugins (Some err)) → False) as Hloop.
  { intros f un t tail Hlo Htail Hi. destruct i as [|k].
    - cbn in Hi. discriminate.
    - cbn in Hi. apply list_elem_of_lookup_2 in Hi. apply elem_of_app in Hi as [Hi|Hi].
      + by apply (loop_outcome_no_clean _ _ _ _ _ _ Hlo) in Hi.
      + by apply Htail in Hi. }
  destruct Hout as [e Hc|e Hc|e t Hc Hlo|un t Hc Hlo|un t e r Hc Hlo]; intros Hi.
  - done.
  - destruct i as [|k]; [done|]. cbn in Hi. done.
  - exfalso. apply (Hloop _ _ t [] Hlo).
    + intros p r' H. by apply elem_of_nil in H.
    + by rewrite app_nil_r.
  - exfalso.
    apply (Hloop _ _ t [CallWriteState (foldl go_delete (mapObj w) un) None] Hlo); [|done].
    intros p r' H. apply elem_of_cons in H as [H|H]; [discriminate|by apply elem_of_nil in H].
  - exfalso.
    apply (Hloop _ _ t [CallWriteState (foldl go_delete (mapObj w) un) (Some e);
                        CallResetAll r] Hlo); [|done].
    intros p r'' H. repeat (apply elem_of_cons in H as [H|H]; [discriminate|]).
    by apply elem_of_nil in H.
Qed.

(** X6.  The store is reset exactly after a failed call other than
    [CleanArchives].  A [ResetAll] comes right after a failed call, and that
    call is a Download, a Check, an Unzip or a [WriteState], never a
    [CleanArchives]; every such failed call is followed at once by a
    [ResetAll]; a failed [CleanArchives] is the last call of its run, so no
    reset follows it. *)
Theorem reset_exactly_after_failure ord_check ord_setup w :
  (∀ i r,
     calls (SetupRemotePlugins client ord_check ord_setup w) !! i = Some (CallResetAll r) →
     ∃ j prev, i = S j
       ∧ calls (SetupRemotePlugins client ord_check ord_setup w) !! j = Some prev
       ∧ failed prev = true
       ∧ (∀ plugins err, prev ≠ CallCleanArchives plugins err)
       ∧ (is_step prev = true ∨ ∃ plugins err, prev = CallWriteState plugins (Some err)))
  ∧ (∀ i ev,
       calls (SetupRemotePlugins client ord_check ord_setup w) !! i = Some ev →
       failed ev = true →
       (∀ plugins err, ev ≠ CallCleanArchives plugins err) →
       ∃ r, calls (SetupRemotePlugins client ord_check ord_setup w) !! S i
            = Some (CallResetAll r))
  ∧ (∀ i plugins err,
       calls (SetupRemotePlugins client ord_check ord_setup w) !! i
       = Some (CallCleanArchives plugins (Some err)) →
       calls (SetupRemotePlugins client ord_check ord_setup w) !! S i = None).
Proof.
  split; [|split].
  - intros i r Hi.
    destruct (run_resets_caused client ord_check ord_setup w i _ Hi) as (j & prev & -> & Hj & Hf & Hnc);
      [by eexists|].
    exists j, prev. split; [done|]. split; [done|]. split; [done|]. split; [done|].
    destruct prev as [p [e|]|mn v h [e|]|mn v h [e|]|mn v [e|]|r'|p [e|]];
      try discriminate; try (left; reflexivity).
    + by destruct (Hnc p (Some e)).
    + right. by eexists _, _.
  - intros i ev Hi Hf Hnc.
    destruct (run_failures_reset client ord_check ord_setup w i ev Hi) as (next & Hn & [r ->]);
      [by split|].
    by exists r.
  - intros i plugins err. apply failed_clean_archives_ends_run.
Qed.

(** X8.  How a run ends.  A run that returns nil ends with its one
    successful [WriteState], on the caller's mapping as the run leaves it.
    A run that returns an error made no call at all (invalid configuration),
    or only the failed [CleanArchives], or ends with a reset; in every run
    [WriteState] is called at most once. *)
Theorem how_a_run_ends ord_check ord_setup w :
  (result (SetupRemotePlugins client ord_check ord_setup w) = None →
   last (calls (SetupRemotePlugins client ord_check ord_setup w))
   = Some (CallWriteState (mapObj (world (SetupRemotePlugins client ord_check ord_setup w))) None))
  ∧ (is_Some (result (SetupRemotePlugins client ord_check ord_setup w)) →
     calls (SetupRemotePlugins client ord_check ord_setup w) = []
     ∨ (∃ e, calls (SetupRemotePlugins client ord_check ord_setup w)
             = [CallCleanArchives (mapObj w) (Some e)])
     ∨ ∃ r, last (calls (SetupRemotePlugins client ord_check ord_setup w))
            = Some (CallResetAll r))
  ∧ (length (written (calls (SetupRemotePlugins client ord_check ord_setup w))) ≤ 1)%nat.
Proof.
  pose proof (SetupRemotePlugins_outcome client ord_check ord_setup w) as Hout.
  destruct Hout as [err Hc|err Hc|err t Hc Hlo|un t Hc Hlo|un t err r Hc Hlo].
  - split; [done|]. split; [by left|]. cbn. lia.
  - split; [done|]. split; [right; left; by eexists|]. cbn. lia.
  - split; [done|]. split.
    + intros _. right; right. destruct (loop_outcome_return_last _ _ _ _ Hlo) as [r Hr].
      exists r. change (last ([CallCleanArchives (mapObj w) None] ++ t) = Some (CallResetAll r)).
      by rewrite last_app, Hr.
    + change (length (written ([CallCleanArchives (mapObj w) None] ++ t)) ≤ 1)%nat.
      rewrite written_app, (loop_outcome_written _ _ _ _ Hlo). cbn. lia.
  - split; [|split].
    + intros _.
      change (last ([CallCleanArchives (mapObj w) None]
                      ++ t ++ [CallWriteState (foldl go_delete (mapObj w) un) None])
              = Some (CallWriteState (foldl go_delete (mapObj w) un) None)).
      by rewrite app_assoc, last_snoc.
    + intros [? ?]. done.
    + change (length (written ([CallCleanArchives (mapObj w) None]
                                 ++ t ++ [CallWriteState (foldl go_delete (mapObj w) un) None]))
              ≤ 1)%nat.
      rewrite !written_app, (loop_outcome_written _ _ _ _ Hlo). cbn. lia.
  - split; [done|]. split.
    + intros _. right; right. exists r.
      change (last ([CallCleanArchives (mapObj w) None]
                      ++ t ++ [CallWriteState (foldl go_delete (mapObj w) un) (Some err)]
                      ++ [CallResetAll r])
              = Some (CallResetAll r)).
      by rewrite !app_assoc, last_snoc.
    + change (length (written ([CallCleanArchives (mapObj w) None]
                                 ++ t ++ [CallWriteState (foldl go_delete (mapObj w) un) (Some err);
                                          CallResetAll r]))
              ≤ 1)%nat.
      rewrite !written_app, (loop_outcome_written _ _ _ _ Hlo). cbn. lia.
Qed.

(** X9.  The Downloads of a run are those of the references in the order
    of the visit, one per reference, up to the reference the run stops at;
    when the run reaches [WriteState], every reference of the visit was
    attempted; and no module is downloaded twice. *)
Theorem every_reference_attempted_once ord_check ord_setup w :
  ranges ord_check (mapObj w) → ranges ord_setup (mapObj w) →
  downloads (calls (SetupRemotePlugins client ord_check ord_setup w)) `prefix_of` archives ord_setup
  ∧ (written (calls (SetupRemotePlugins client ord_check ord_setup w)) ≠ [] →
     downloads (calls (SetupRemotePlugins client ord_check ord_setup w)) = archives ord_setup)
  ∧ NoDup (downloads (calls (SetupRemotePlugins client ord_check ord_setup w))).*1.
Proof.
  intros Hrc Hrs.
  assert (downloads (calls (SetupRemotePlugins client ord_check ord_setup w))
            `prefix_of` archives ord_setup
          ∧ (written (calls (SetupRemotePlugins client ord_check ord_setup w)) ≠ [] →
             downloads (calls (SetupRemotePlugins client ord_check ord_setup w))
             = archives ord_setup)
          ∧ (calls (SetupRemotePlugins client ord_check ord_setup w) ≠ [] →
             checkRemotePluginsConfiguration (mapObj w) ord_check = None)) as (Hp & He & Hv).
  { pose proof (SetupRemotePlugins_outcome client ord_check ord_setup w) as Hout.
    destruct Hout as [err Hc|err Hc|err t Hc Hlo|un t Hc Hlo|un t err r Hc Hlo].
    - split; [apply prefix_nil|]. split; done.
    - split; [apply prefix_nil|]. split; done.
    - destruct (loop_outcome_downloads _ _ _ _ Hlo) as [Hp _]. split; [done|]. split; [|done].
      change (written ([CallCleanArchives (mapObj w) None] ++ t) ≠ [] → downloads t = archives ord_setup).
      rewrite written_app, (loop_outcome_written _ _ _ _ Hlo). done.
    - destruct (loop_outcome_downloads _ _ _ _ Hlo) as [Hp He].
      assert (downloads (CallCleanArchives (mapObj w) None
                           :: t ++ [CallWriteState (foldl go_delete (mapObj w) un) None])
              = downloads t) as ->.
      { change (downloads ([CallCleanArchives (mapObj w) None]
                             ++ t ++ [CallWriteState (foldl go_delete (mapObj w) un) None])
                = downloads t).
        rewrite !downloads_app. cbn. by rewrite app_nil_r. }
      split; [done|]. split; [|done]. intros _. by eapply He.
    - destruct (loop_outcome_downloads _ _ _ _ Hlo) as [Hp He].
      assert (downloads (CallCleanArchives (mapObj w) None
                           :: t ++ [CallWriteState (foldl go_delete (mapObj w) un) (Some err);
                                    CallResetAll r])
              = downloads t) as ->.
      { change (downloads ([CallCleanArchives (mapObj w) None]
                             ++ t ++ [CallWriteState (foldl go_delete (mapObj w) un) (Some err);
                                      CallResetAll r]) = downloads t).
        rewrite !downloads_app. cbn. by rewrite app_nil_r. }
      split; [done|]. split; [|done]. intros _. by eapply He. }
  split; [done|]. split; [done|].
  destruct (decide (calls (SetupRemotePlugins client ord_check ord_setup w) = [])) as [->|Hne];
    [constructor|].
  specialize (Hv Hne).
  assert (NoDup (archives ord_setup).*1) as Hnd.
  { destruct (mapObj w) as [m|].
    - apply checkRemotePluginsConfiguration_None, checkRemote_loop_clean in Hv as [_ Hnd].
      assert (ord_check ≡ₚ ord_setup) as Hperm by (unfold ranges in *; by rewrite Hrc, Hrs).
      unfold module_names in Hnd. rewrite Hperm in Hnd.
      replace ((archives ord_setup).*1)
        with (map (λ e : string * Descriptor.t, Descriptor.ModuleName e.2) ord_setup); [done|].
      unfold archives. rewrite <- list_fmap_compose. reflexivity.
    - apply ranges_nil in Hrs. subst ord_setup. constructor. }
  destruct Hp as [k Hk]. rewrite Hk, fmap_app in Hnd. by apply NoDup_app in Hnd as [Hnd _].
Qed.

(** X10.  A mapping all of whose references are required is never touched:
    whatever the Client does and however the run ends, the caller's mapping
    is after the run what it was before. *)
Theorem required_only_mapping_untouched ord_check ord_setup w :
  ranges ord_setup (mapObj w) →
  (∀ pAlias d, go_lookup (mapObj w) pAlias = Some d → Descriptor.Required d = true) →
  mapObj (world (SetupRemotePlugins client ord_check ord_setup w)) = mapObj w.
Proof.
  intros Hr Hall.
  destruct (mapping_after_run client ord_check ord_setup w) as (un & -> & Hwhy).
  destruct un as [|x un]; [done|]. exfalso.
  destruct (Hwhy x (list_elem_of_here _ _)) as (d & Hd & Hreq & _).
  destruct (mapObj w) as [m|].
  - apply (ranges_elem_of _ _ _ _ Hr) in Hd. rewrite (Hall x d Hd) in Hreq. discriminate.
  - apply ranges_nil in Hr. subst ord_setup. by apply elem_of_nil in Hd.
Qed.
End RunShape.

(** ** What reference validation accepts *)

Lemma append_nil_l s : "" +:+ s = s.
Proof. reflexivity. Qed.

Lemma append_cons c p s : String c p +:+ s = String c (p +:+ s).
Proof. reflexivity. Qed.

Lemma length_append p s : String.length (p +:+ s) = (String.length p + String.length s)%nat.
Proof. induction p as [|c p IH]; [done|]. rewrite append_cons. cbn. by rewrite IH. Qed.

Lemma strings_HasPrefix_spec s pre :
  strings_HasPrefix s pre = true ↔ ∃ rest, s = pre +:+ rest.
Proof.
  unfold strings_HasPrefix. revert s. induction pre as [|c pre IH]; intros s.
  - split; [intros _; by exists s|]. intros _. by destruct s.
  - destruct s as [|c' s]; cbn.
    + split; [done|intros [rest H]; discriminate].
    + destruct (Ascii.ascii_dec c c') as [->|Hne].
      * rewrite IH. split; intros [rest H]; exists rest.
        -- by rewrite append_cons, H.
        -- rewrite append_cons in H. by inversion H.
      * split; [done|]. intros [rest H]. rewrite append_cons in H. inversion H. congruence.
Qed.

Lemma substring_all s : String.substring 0 (String.length s) s = s.
Proof. induction s as [|c s IH]; cbn; [done|]. by rewrite IH. Qed.

Lemma substring_skip p suffix :
  String.substring (String.length p) (String.length suffix) (p +:+ suffix) = suffix.
Proof.
  induction p as [|c p IH].
  - rewrite append_nil_l. apply substring_all.
  - rewrite append_cons. cbn. apply IH.
Qed.

Lemma substring_split n s :
  (n ≤ String.length s)%nat →
  s = String.substring 0 n s +:+ String.substring n (String.length s - n) s.
Proof.
  revert n. induction s as [|c s IH]; intros n Hn.
  - cbn in Hn. assert (n = 0%nat) as -> by lia. done.
  - destruct n as [|n].
    + cbn [String.substring]. rewrite append_nil_l, Nat.sub_0_r.
      symmetry. apply (substring_all (String c s)).
    + cbn [String.substring String.length Nat.sub]. rewrite append_cons. f_equal.
      apply IH. cbn in Hn. lia.
Qed.

Lemma strings_HasSuffix_spec s suffix :
  strings_HasSuffix s suffix = true ↔ ∃ p, s = p +:+ suffix.
Proof.
  unfold strings_HasSuffix. rewrite andb_true_iff, Nat.leb_le, String.eqb_eq. split.
  - intros [Hlen Hsub].
    exists (String.substring 0 (String.length s - String.length suffix) s).
    assert (String.length s - String.length suffix ≤ String.length s)%nat as Hle by lia.
    pose proof (substring_split _ s Hle) as Hs.
    replace (String.length s - (String.length s - String.length suffix))%nat
      with (String.length suffix) in Hs by lia.
    by rewrite Hsub in Hs.
  - intros [p ->]. rewrite length_append. split; [lia|].
    replace (String.length p + String.length suffix - String.length suffix)%nat
      with (String.length p) by lia.
    apply substring_skip.
Qed.

(** X11.  The name-shape violation is what its message says: a module name
    has it exactly when it starts or ends with "/". *)
Theorem name_shape_violation_iff moduleName :
  bad_shape moduleName = true
  ↔ (∃ rest, moduleName = "/" +:+ rest) ∨ (∃ p, moduleName = p +:+ "/").
Proof.
  unfold bad_shape. by rewrite orb_true_iff, strings_HasPrefix_spec, strings_HasSuffix_spec.
Qed.

Lemma presence_violations_nil entry :
  presence_violations entry = []
  ↔ Descriptor.ModuleName entry.2 ≠ "" ∧ Descriptor.Version entry.2 ≠ "".
Proof.
  unfold presence_violations. repeat case_decide; cbn; split; try done; intros [? ?]; done.
Qed.

(** X12.  What remote validation accepts.  Whatever the order of the
    visit, a non-nil mapping passes exactly when every reference has a module
    name and a version, no module name starts or ends with "/", and no two
    aliases name the same module. *)
Theorem validation_accepts_iff (m : gmap string Descriptor.t) ord :
  ranges ord (Some m) →
  checkRemotePluginsConfiguration (Some m) ord = None
  ↔ (∀ pAlias d, m !! pAlias = Some d →
       Descriptor.ModuleName d ≠ "" ∧ Descriptor.Version d ≠ ""
       ∧ bad_shape (Descriptor.ModuleName d) = false)
    ∧ (∀ a1 d1 a2 d2, m !! a1 = Some d1 → m !! a2 = Some d2 →
         Descriptor.ModuleName d1 = Descriptor.ModuleName d2 → a1 = a2).
Proof.
  intros Hr. split.
  - intros Hc. split.
    + intros a d Hm. apply (ranges_elem_of _ _ _ _ Hr) in Hm.
      apply checkRemotePluginsConfiguration_None, checkRemote_loop_clean in Hc as [Hwf _].
      destruct (Hwf _ Hm) as [[Hp Hs] _]. apply presence_violations_nil in Hp as [? ?]. done.
    + intros a1 d1 a2 d2 H1 H2 Hn. apply (ranges_elem_of _ _ _ _ Hr) in H1, H2.
      by destruct (validated_names_unique _ _ _ _ _ _ _ Hc (reflexivity _) H1 H2 Hn).
  - intros [Hwf Hinj]. apply checkRemotePluginsConfiguration_None, checkRemote_loop_clean. split.
    + intros [a d] He. apply (ranges_elem_of _ _ _ _ Hr) in He.
      destruct (Hwf _ _ He) as (Hn & Hv & Hs). split; [|set_solver].
      split; [by apply presence_violations_nil|done].
    + unfold module_names. apply NoDup_fmap_2_strong.
      * intros [a1 d1] [a2 d2] H1 H2 Hn.
        apply (ranges_elem_of _ _ _ _ Hr) in H1, H2. cbn in Hn.
        assert (a1 = a2) as -> by (by eapply Hinj). congruence.
      * unfold ranges in Hr. cbn in Hr. rewrite Hr. apply NoDup_map_to_list.
Qed.

(** ** The violations do not depend on the order of the visit *)

#[local] Set Warnings "-clear-no-such-hyp".

Lemma checkRemote_iter_twice uniq x y :
  checkRemote_iter (checkRemote_iter (uniq, []) x) y
  = ((checkRemote_iter ((checkRemote_iter (uniq, []) x).1, []) y).1,
     entry_violations uniq x ++ entry_violations (checkRemote_iter (uniq, []) x).1 y).
Proof.
  unfold entry_violations at 1.
  destruct (checkRemote_iter (uniq, []) x) as [ux ex]. cbn [fst snd].
  by rewrite checkRemote_iter_split.
Qed.

(** Visiting two entries in either order leaves the same [uniq] and the same
    violations, up to their order. *)
Lemma checkRemote_iter_swap uniq x y :
  (checkRemote_iter (checkRemote_iter (uniq, []) x) y).1
  = (checkRemote_iter (checkRemote_iter (uniq, []) y) x).1
  ∧ (checkRemote_iter (checkRemote_iter (uniq, []) x) y).2
    ≡ₚ (checkRemote_iter (checkRemote_iter (uniq, []) y) x).2.
Proof.
  rewrite !checkRemote_iter_twice. cbn [fst snd]. unfold entry_violations.
  rewrite !checkRemote_iter_cases. cbn zeta.
  destruct (bad_shape (Descriptor.ModuleName x.2)) eqn:Hbx;
    destruct (bad_shape (Descriptor.ModuleName y.2)) eqn:Hby; cbn [fst snd];
    rewrite ?Hbx, ?Hby; cbn [fst snd];
    repeat case_decide; cbn [fst snd] in *.
  all: try (split; [reflexivity|apply Permutation_app_comm]).
  all: try (exfalso; set_solver).
  all: try (split; [set_solver|apply Permutation_app_comm]).
  assert (Descriptor.ModuleName y.2 = Descriptor.ModuleName x.2) as -> by set_solver.
  split; [done|]. rewrite !app_assoc. apply Permutation_app_tail, Permutation_app_comm.
Qed.

Lemma checkRemote_loop_perm ord1 ord2 :
  ord1 ≡ₚ ord2 →
  ∀ uniq,
    (checkRemote_loop ord1 (uniq, [])).1 = (checkRemote_loop ord2 (uniq, [])).1
    ∧ (checkRemote_loop ord1 (uniq, [])).2 ≡ₚ (checkRemote_loop ord2 (uniq, [])).2.
Proof.
  induction 1 as [|x l l' Hperm IH|x y l|l l' l'' H1 IH1 H2 IH2]; intros uniq.
  - done.
  - rewrite !checkRemote_loop_cons.
    destruct (checkRemote_iter (uniq, []) x) as [u e].
    rewrite (checkRemote_loop_split l u e), (checkRemote_loop_split l' u e). cbn [fst snd].
    destruct (IH u) as [Hu He]. split; [done|]. by apply Permutation_app_head.
  - rewrite !checkRemote_loop_cons.
    destruct (checkRemote_iter_swap uniq x y) as [Hu He].
    destruct (checkRemote_iter (checkRemote_iter (uniq, []) x) y) as [u1 e1].
    destruct (checkRemote_iter (checkRemote_iter (uniq, []) y) x) as [u2 e2].
    cbn [fst snd] in Hu, He. subst u2.
    rewrite (checkRemote_loop_split l u1 e1), (checkRemote_loop_split l u1 e2). cbn [fst snd].
    split; [done|]. symmetry. by apply Permutation_app_tail.
  - destruct (IH1 uniq) as [Hu1 He1]. destruct (IH2 uniq) as [Hu2 He2].
    split; [congruence|by etrans].
Qed.

(** X13.  Two visits of the same mapping find the same violations: the
    violations of one are those of the other in a different order, so one
    visit passes exactly when the other does. *)
Theorem violations_independent_of_order (m : gmap string Descriptor.t) ord1 ord2 :
  ranges ord1 (Some m) → ranges ord2 (Some m) →
  (checkRemote_loop ord1 (∅, [])).2 ≡ₚ (checkRemote_loop ord2 (∅, [])).2
  ∧ (checkRemotePluginsConfiguration (Some m) ord1 = None
     ↔ checkRemotePluginsConfiguration (Some m) ord2 = None).
Proof.
  intros Hr1 Hr2.
  assert (ord1 ≡ₚ ord2) as Hperm by (unfold ranges in *; by rewrite Hr1, Hr2).
  destruct (checkRemote_loop_perm _ _ Hperm ∅) as [_ He]. split; [done|].
  rewrite !checkRemotePluginsConfiguration_None. split; intros Hnil.
  - rewrite Hnil in He. by apply Permutation_nil_l in He.
  - rewrite Hnil in He. by apply Permutation_nil_r in He.
Qed.

(** ** What the local validator accepts *)

Section LocalAcceptance.
Variables typeMiddleware typeProvider runtimeYaegi runtimeWasm : string.
Variable IsYaegiPlugin : Manifest → bool.
Variable ReadManifest : string → string → Manifest + error.

Local Abbreviation checkManifest :=
  (checkLocalPluginManifest typeMiddleware typeProvider runtimeYaegi runtimeWasm
     IsYaegiPlugin ReadManifest).
Local Abbreviation violations_of :=
  (manifest_violations typeMiddleware typeProvider runtimeYaegi runtimeWasm
     IsYaegiPlugin ReadManifest).
Local Abbreviation local_iter :=
  (setupLocal_iter typeMiddleware typeProvider runtimeYaegi runtimeWasm
     IsYaegiPlugin ReadManifest).
Local Abbreviation local_loop :=
  (setupLocal_loop typeMiddleware typeProvider runtimeYaegi runtimeWasm
     IsYaegiPlugin ReadManifest).
Local Abbreviation SetupLocal :=
  (SetupLocalPlugins typeMiddleware typeProvider runtimeYaegi runtimeWasm
     IsYaegiPlugin ReadManifest).

Lemma field_violations_nil m moduleName :
  field_violations IsYaegiPlugin m moduleName = []
  ↔ (IsYaegiPlugin m = true →
     Import_ m ≠ "" ∧ strings_HasPrefix (Import_ m) moduleName = true)
    ∧ DisplayName m ≠ "" ∧ Summary m ≠ "" ∧ TestData m ≠ None.
Proof.
  unfold field_violations. rewrite !app_nil.
  assert (∀ (P : Prop) `{Decision P} (x : error),
            (if decide P then [x] else []) = [] ↔ ¬ P) as Hdec.
  { intros P ? x. case_decide; split; try done. }
  rewrite !Hdec.
  destruct (IsYaegiPlugin m); [|naive_solver].
  rewrite app_nil, Hdec.
  destruct (strings_HasPrefix (Import_ m) moduleName); naive_solver.
Qed.

(** X14.  What [checkLocalPluginManifest] accepts.  For a manifest that can
    be read, it returns nil exactly when the type is middleware with the
    interpreter, the bytecode runtime or no runtime, or provider with the
    interpreter or no runtime; an interpreted plugin has an import path that
    starts with the module name; and the display name, the summary and the
    test data are present. *)
Theorem manifest_accepted_iff descriptor m :
  ReadManifest localGoPath (LocalDescriptor.ModuleName descriptor) = inl m →
  checkManifest descriptor = None
  ↔ ((Type_ m = typeMiddleware
      ∧ (Runtime m = runtimeYaegi ∨ Runtime m = runtimeWasm ∨ Runtime m = ""))
     ∨ (Type_ m = typeProvider ∧ (Runtime m = runtimeYaegi ∨ Runtime m = "")))
    ∧ (IsYaegiPlugin m = true →
       Import_ m ≠ ""
       ∧ strings_HasPrefix (Import_ m) (LocalDescriptor.ModuleName descriptor) = true)
    ∧ DisplayName m ≠ "" ∧ Summary m ≠ "" ∧ TestData m ≠ None.
Proof.
  intros Hread. transitivity (violations_of descriptor = []).
  { rewrite (checkLocalPluginManifest_read _ _ _ _ _ _ _ _ Hread).
    destruct (violations_of descriptor); split; done. }
  rewrite (manifest_violations_read _ _ _ _ _ _ _ _ Hread), app_nil, field_violations_nil.
  apply and_iff_compat_r.
  destruct (decide (Type_ m = typeMiddleware)) as [Hmw|Hmw].
  - destruct (decide (Runtime m = runtimeYaegi)), (decide (Runtime m = runtimeWasm)),
      (decide (Runtime m = "")).
    all: rewrite ?bool_decide_eq_true_2, ?bool_decide_eq_false_2 by tauto; cbn; naive_solver.
  - destruct (decide (Type_ m = typeProvider)) as [Hp|Hp]; [|naive_solver].
    destruct (decide (Runtime m = runtimeYaegi)), (decide (Runtime m = "")).
    all: rewrite ?bool_decide_eq_true_2, ?bool_decide_eq_false_2 by tauto; cbn; naive_solver.
Qed.

(** X15.  A manifest whose type is neither middleware nor provider is
    reported for its type, once, and its runtime is not looked at: whatever
    the runtime is, there is no unsupported-runtime violation.  The other
    fields are checked as for any manifest. *)
Theorem unsupported_type_reported descriptor m :
  ReadManifest localGoPath (LocalDescriptor.ModuleName descriptor) = inl m →
  Type_ m ≠ typeMiddleware → Type_ m ≠ typeProvider →
  violations_of descriptor
  = UnsupportedType (LocalDescriptor.ModuleName descriptor) (Type_ m)
    :: field_violations IsYaegiPlugin m (LocalDescriptor.ModuleName descriptor)
  ∧ filter (λ e, is_UnsupportedRuntime e = true) (violations_of descriptor) = [].
Proof.
  intros Hread Hmw Hp. rewrite (manifest_violations_read _ _ _ _ _ _ _ _ Hread).
  rewrite !decide_False by done. cbn [app]. split; [done|].
  rewrite filter_cons_False by done. apply field_violations_runtime.
Qed.

(** X16.  An interpreted plugin without an import path is reported twice
    when its module has a name: for the missing import, and for an import
    that does not start with the module name. *)
Theorem empty_import_reported_twice descriptor m :
  ReadManifest localGoPath (LocalDescriptor.ModuleName descriptor) = inl m →
  IsYaegiPlugin m = true →
  Import_ m = "" →
  LocalDescriptor.ModuleName descriptor ≠ "" →
  MissingImport (LocalDescriptor.ModuleName descriptor) ∈ violations_of descriptor
  ∧ ImportMismatch "" (LocalDescriptor.ModuleName descriptor) ∈ violations_of descriptor.
Proof.
  intros Hread Hy Hi Hn. rewrite (manifest_violations_read _ _ _ _ _ _ _ _ Hread).
  assert (strings_HasPrefix "" (LocalDescriptor.ModuleName descriptor) = false) as Hpre.
  { unfold strings_HasPrefix. by destruct (LocalDescriptor.ModuleName descriptor). }
  assert (∃ rest, field_violations IsYaegiPlugin m (LocalDescriptor.ModuleName descriptor)
                  = MissingImport (LocalDescriptor.ModuleName descriptor)
                    :: ImportMismatch "" (LocalDescriptor.ModuleName descriptor) :: rest)
    as [rest ->].
  { unfold field_violations. rewrite Hy, Hi, Hpre.
    rewrite (decide_True (P := "" = "")) by done. cbn [app]. by eexists. }
  rewrite !elem_of_app. split; right.
  - apply list_elem_of_here.
  - apply list_elem_of_further, list_elem_of_here.
Qed.

(** A pass of the local loop reports nothing exactly when it started with
    nothing, every entry has a well-shaped module name that is new and a
    manifest without violations, and the module names are pairwise distinct. *)
Lemma setupLocal_loop_clean ord st :
  errors_of (l_errs (local_loop ord st)) = []
  ↔ errors_of (l_errs st) = []
    ∧ (∀ e, e ∈ ord →
         LocalDescriptor.ModuleName e.2 ≠ ""
         ∧ bad_shape (LocalDescriptor.ModuleName e.2) = false
         ∧ (LocalDescriptor.ModuleName e.2 ∉ l_uniq st)
         ∧ violations_of e.2 = [])
    ∧ NoDup (map (λ e : string * LocalDescriptor.t, LocalDescriptor.ModuleName e.2) ord).
Proof.
  revert st. induction ord as [|e ord IH]; intros st.
  - cbn. split; [|tauto]. intros H. split; [done|]. split; [|constructor].
    intros e He. by apply elem_of_nil in He.
  - rewrite setupLocal_loop_cons, IH, setupLocal_iter_cases. cbn zeta. cbn [map].
    rewrite NoDup_cons.
    assert (local_presence_violations e = [] ↔ LocalDescriptor.ModuleName e.2 ≠ "") as Hp.
    { unfold local_presence_violations. case_decide; split; done. }
    destruct (bad_shape (LocalDescriptor.ModuleName e.2)) eqn:Hs;
      [|case_decide as Hin]; cbn [l_errs l_uniq errors_of default from_option id].
    + split.
      * intros [H _]. apply app_nil in H as [_ H]. discriminate.
      * intros (_ & H & _). destruct (H e (list_elem_of_here _ _)) as (_ & ? & _). congruence.
    + split.
      * intros [H _]. apply app_nil in H as [_ H]. discriminate.
      * intros (_ & H & _). destruct (H e (list_elem_of_here _ _)) as (_ & _ & ? & _). done.
    + rewrite !app_nil, Hp. split.
      * intros ([[H0 Hn] Hv] & Hall & Hnd). split; [done|]. split; [|split; [|done]].
        -- intros e' He'. apply elem_of_cons in He' as [->|He']; [done|].
           destruct (Hall e' He') as (? & ? & Hu & ?). do 2 (split; [done|]). split; [|done].
           intros Hc. apply Hu. by apply elem_of_union_r.
        -- intros Hm. apply list_elem_of_fmap in Hm as (e' & Heq & He').
           destruct (Hall e' He') as (_ & _ & Hu & _). apply Hu. rewrite <- Heq.
           apply elem_of_union_l, elem_of_singleton. reflexivity.
      * intros (H0 & Hall & Hfresh & Hnd).
        destruct (Hall e (list_elem_of_here _ _)) as (Hn & _ & _ & Hv).
        split; [done|]. split; [|done].
        intros e' He'. destruct (Hall e' (list_elem_of_further _ _ _ He')) as (? & ? & Hu & ?).
        do 2 (split; [done|]). split; [|done].
        intros Hc. apply elem_of_union in Hc as [Hc|Hc]; [|done].
        apply elem_of_singleton in Hc. apply Hfresh. rewrite <- Hc.
        apply list_elem_of_fmap. by exists e'.
Qed.

(** X17.  What [SetupLocalPlugins] accepts.  Whatever the order of the
    visit, a non-nil mapping passes exactly when every module has a name
    that does not start or end with "/", no two aliases name the same
    module, and no manifest has a violation. *)
Theorem local_validation_accepts_iff (m : gmap string LocalDescriptor.t) ord :
  ranges ord (Some m) →
  SetupLocal (Some m) ord = None
  ↔ (∀ pAlias d, m !! pAlias = Some d →
       LocalDescriptor.ModuleName d ≠ ""
       ∧ bad_shape (LocalDescriptor.ModuleName d) = false
       ∧ violations_of d = [])
    ∧ (∀ a1 d1 a2 d2, m !! a1 = Some d1 → m !! a2 = Some d2 →
         LocalDescriptor.ModuleName d1 = LocalDescriptor.ModuleName d2 → a1 = a2).
Proof.
  intros Hr.
  assert (∀ a d, (a, d) ∈ ord ↔ m !! a = Some d) as Hin.
  { intros a d. unfold ranges in Hr. cbn in Hr. rewrite Hr. apply elem_of_map_to_list. }
  transitivity (errors_of (l_errs (local_loop ord (mkLocalLoop ∅ None []))) = []).
  { unfold SetupLocalPlugins. rewrite ErrorOrNil_errors_of.
    destruct (errors_of _); split; done. }
  rewrite setupLocal_loop_clean. cbn [l_errs l_uniq errors_of default from_option id].
  split.
  - intros (_ & Hall & Hnd). split.
    + intros a d Hm. apply Hin in Hm. destruct (Hall _ Hm) as (? & ? & _ & ?). done.
    + intros a1 d1 a2 d2 H1 H2 Hn. apply Hin in H1, H2.
      assert ((a1, d1) = (a2, d2)) as Heq; [|by inversion Heq].
      clear Hall Hin Hr. induction ord as [|e ord IH]; [by apply elem_of_nil in H1|].
      cbn [map] in Hnd. apply NoDup_cons in Hnd as [Hfresh Hnd].
      apply elem_of_cons in H1 as [<-|H1]; apply elem_of_cons in H2 as [<-|H2].
      * done.
      * exfalso. apply Hfresh. cbn. rewrite Hn. apply list_elem_of_fmap. by exists (a2, d2).
      * exfalso. apply Hfresh. cbn. rewrite <- Hn. apply list_elem_of_fmap. by exists (a1, d1).
      * by apply IH.
  - intros [Hall Hinj]. split; [done|]. split.
    + intros [a d] He. apply Hin in He. destruct (Hall _ _ He) as (? & ? & ?).
      do 2 (split; [done|]). split; [set_solver|done].
    + apply NoDup_fmap_2_strong.
      * intros [a1 d1] [a2 d2] H1 H2 Hn. apply Hin in H1, H2. cbn in Hn.
        assert (a1 = a2) as -> by (by eapply Hinj). congruence.
      * unfold ranges in Hr. cbn in Hr. rewrite Hr. apply NoDup_map_to_list.
Qed.

(** X18.  No manifest is checked twice in a run of [SetupLocalPlugins], and
    the modules whose manifest is checked are modules of entries of the
    mapping with a well-shaped name. *)
Theorem manifests_checked_once ord :
  NoDup (l_checked (local_loop ord (mkLocalLoop ∅ None [])))
  ∧ ∀ moduleName, moduleName ∈ l_checked (local_loop ord (mkLocalLoop ∅ None [])) →
      bad_shape moduleName = false
      ∧ ∃ e, e ∈ ord ∧ LocalDescriptor.ModuleName e.2 = moduleName.
Proof.
  assert (∀ ord st,
            NoDup (l_checked st) → (∀ x, x ∈ l_checked st → x ∈ l_uniq st) →
            NoDup (l_checked (local_loop ord st))
            ∧ (∀ x, x ∈ l_checked (local_loop ord st) → x ∈ l_uniq (local_loop ord st))
            ∧ ∀ x, x ∈ l_checked (local_loop ord st) →
                x ∈ l_checked st
                ∨ (bad_shape x = false ∧ ∃ e, e ∈ ord ∧ LocalDescriptor.ModuleName e.2 = x))
    as Hinv.
  { clear ord. induction ord as [|e ord IH]; intros st Hnd Hsub.
    - cbn. split; [done|]. split; [done|]. by left.
    - rewrite setupLocal_loop_cons.
      assert (NoDup (l_checked (local_iter st e))
              ∧ (∀ x, x ∈ l_checked (local_iter st e) → x ∈ l_uniq (local_iter st e))
              ∧ ∀ x, x ∈ l_checked (local_iter st e) →
                  x ∈ l_checked st
                  ∨ (bad_shape x = false ∧ LocalDescriptor.ModuleName e.2 = x))
        as (Hnd' & Hsub' & Hnew).
      { rewrite setupLocal_iter_cases. cbn zeta.
        destruct (bad_shape (LocalDescriptor.ModuleName e.2)) eqn:Hs;
          [|case_decide as Hin]; cbn [l_checked l_uniq].
        - split; [done|]. split; [done|]. by left.
        - split; [done|]. split; [done|]. by left.
        - split; [|split].
          + apply NoDup_app. split; [done|]. split; [|apply NoDup_singleton].
            intros x Hx Hx'. apply list_elem_of_singleton in Hx'. subst x. by apply Hin, Hsub.
          + intros x Hx. apply elem_of_app in Hx as [Hx|Hx].
            * by apply elem_of_union_r, Hsub.
            * apply list_elem_of_singleton in Hx. subst x.
              apply elem_of_union_l, elem_of_singleton. reflexivity.
          + intros x Hx. apply elem_of_app in Hx as [Hx|Hx]; [by left|].
            apply list_elem_of_singleton in Hx. subst x. by right. }
      destruct (IH _ Hnd' Hsub') as (Hnd'' & Hsub'' & Hfrom). split; [done|]. split; [done|].
      intros x Hx. destruct (Hfrom x Hx) as [Hx'|(Hs & e' & He' & Hn)].
      + destruct (Hnew x Hx') as [?|[Hs Hn]]; [by left|]. right. split; [done|].
        exists e. split; [apply list_elem_of_here|done].
      + right. split; [done|]. exists e'. split; [by apply list_elem_of_further|done]. }
  destruct (Hinv ord (mkLocalLoop ∅ None [])) as (Hnd & _ & Hfrom).
  - constructor.
  - intros x Hx. by apply elem_of_nil in Hx.
  - split; [done|]. intros x Hx. destruct (Hfrom x Hx) as [Hx'|?]; [|done].
    by apply elem_of_nil in Hx'.
Qed.
End LocalAcceptance.

(** ** Skipping the references that cannot be provisioned *)

Lemma failed_step_module d t err ev d' :
  failed_step d t err → ev ∈ t →
  ((∃ hash r, ev = CallDownload (Descriptor.ModuleName d') (Descriptor.Version d') hash r)
   ∨ (∃ hash r, ev = CallCheck (Descriptor.ModuleName d') (Descriptor.Version d') hash r)
   ∨ (∃ r, ev = CallUnzip (Descriptor.ModuleName d') (Descriptor.Version d') r)) →
  Descriptor.ModuleName d = Descriptor.ModuleName d'.
Proof.
  intros Hfail Hin Hev.
  destruct Hfail; repeat (apply elem_of_cons in Hin as [->|Hin]);
    try (by apply elem_of_nil in Hin);
    destruct Hev as [(? & ? & Heq)|[(? & ? & Heq)|(? & Heq)]]; by inversion Heq.
Qed.

(** The references with a failed sub-step all being non-required and the
    module names distinct, the loop runs to its end and records as
    unavailable the aliases of exactly those references. *)
Lemma loop_outcome_skips ord un f t :
  loop_outcome ord un f t →
  NoDup (module_names ord) →
  (∀ a d, (a, d) ∈ ord → step_failed_in d t → Descriptor.Required d = false) →
  ∃ new, f = Next (un ++ new)
    ∧ (∀ x, x ∈ new → ∃ d, (x, d) ∈ ord ∧ step_failed_in d t)
    ∧ (∀ a d, (a, d) ∈ ord → step_failed_in d t → a ∈ new).
Proof.
  induction 1 as [un|a d rest un h f t H IH|a d rest un t0 err f t Hreq Hfail H IH
                  |a d rest un t0 err Hreq Hfail]; intros Hnd Hopt.
  - exists []. split; [by rewrite app_nil_r|]. split.
    + intros x Hx. by apply elem_of_nil in Hx.
    + intros a d Hd. by apply elem_of_nil in Hd.
  - unfold module_names in Hnd. cbn [map] in Hnd. apply NoDup_cons in Hnd as [Hfresh Hnd].
    destruct IH as (new & -> & Hnew & Hall); [done| |].
    { intros a' d' Hd' Hs. apply (Hopt a' d'); [by apply list_elem_of_further|].
      by apply step_failed_in_app_r. }
    assert (∀ d', step_failed_in d' (provisioned_calls d h ++ t) → step_failed_in d' t) as Hin_t.
    { intros d' (ev & Hev & Hf & Hstep). exists ev. split; [|done].
      apply elem_of_app in Hev as [Hev|Hev]; [|done].
      rewrite (provisioned_calls_not_failed _ _ _ Hev) in Hf. discriminate. }
    exists new. split; [done|]. split.
    + intros x Hx. destruct (Hnew x Hx) as (d' & Hd' & Hs). exists d'.
      split; [by apply list_elem_of_further|by apply step_failed_in_app_r].
    + intros a' d' Hd' Hs. apply Hin_t in Hs.
      apply elem_of_cons in Hd' as [Heq|Hd']; [|by eapply Hall].
      inversion Heq; subst a' d'. exfalso. apply Hfresh.
      destruct Hs as (ev & Hev & Hf & Hstep).
      destruct (loop_outcome_failed_call _ _ _ _ _ H Hev Hf)
        as (a'' & d'' & t1 & err1 & Hd'' & Hfail1 & Hev1 & _).
      rewrite <- (failed_step_module _ _ _ _ _ Hfail1 Hev1); [|naive_solver].
      apply list_elem_of_fmap. by exists (a'', d'').
  - unfold module_names in Hnd. cbn [map] in Hnd. apply NoDup_cons in Hnd as [Hfresh Hnd].
    destruct IH as (new & -> & Hnew & Hall); [done| |].
    { intros a' d' Hd' Hs. apply (Hopt a' d'); [by apply list_elem_of_further|].
      by apply step_failed_in_app_r. }
    exists (a :: new). split; [by rewrite <- app_assoc|]. split.
    + intros x Hx. apply elem_of_cons in Hx as [->|Hx].
      * exists d. split; [apply list_elem_of_here|].
        apply step_failed_in_app_l. by eapply failed_step_failure.
      * destruct (Hnew x Hx) as (d' & Hd' & Hs). exists d'.
        split; [by apply list_elem_of_further|by apply step_failed_in_app_r].
    + intros a' d' Hd' Hs. apply elem_of_cons in Hd' as [Heq|Hd'].
      { inversion Heq. apply list_elem_of_here. }
      apply list_elem_of_further. apply (Hall a' d' Hd').
      destruct Hs as (ev & Hev & Hf & Hstep). exists ev. split; [|done].
      apply elem_of_app in Hev as [Hev|Hev]; [|done]. exfalso. apply Hfresh. cbn [snd].
      rewrite (failed_step_module _ _ _ _ d' Hfail Hev); [|naive_solver].
      apply list_elem_of_fmap. by exists (a', d').
  - exfalso. assert (Descriptor.Required d = false); [|congruence].
    apply (Hopt a d); [apply list_elem_of_here|]. by eapply failed_step_failure.
Qed.

Lemma loop_outcome_app l1 l2 un un' t :
  loop_outcome (l1 ++ l2) un (Next un') t →
  ∃ un1 t1 t2,
    loop_outcome l1 un (Next un1) t1 ∧ loop_outcome l2 un1 (Next un') t2 ∧ t = t1 ++ t2.
Proof.
  revert un t. induction l1 as [|[a d] l1 IH]; intros un t H.
  - exists un, [], t. split; [apply lo_done|done].
  - cbn in H. inversion H as [|? ? ? ? h ? t' H'|? ? ? ? t0 err ? t' Hreq Hfail H'|]; subst.
    + destruct (IH _ _ H') as (un1 & t1 & t2 & H1 & H2 & ->).
      exists un1, (provisioned_calls d h ++ t1), t2.
      split; [by apply lo_provisioned|]. split; [done|by rewrite app_assoc].
    + destruct (IH _ _ H') as (un1 & t1 & t2 & H1 & H2 & ->).
      exists un1, (t0 ++ t1), t2.
      split; [by eapply lo_skipped|]. split; [done|by rewrite app_assoc].
Qed.

Section Degraded.
Context {St : Type} (client : Client St).
Implicit Types (w : World St) (d : Descriptor.t) (m : gmap string Descriptor.t).

(** X19.  Degraded provisioning.  In a run on a valid mapping in which
    neither [CleanArchives] nor [WriteState] fails and every reference with
    a failed Download, Check or Unzip is non-required, the run returns nil,
    the aliases dropped from the caller's mapping are exactly those of the
    references with a failed sub-step, and [WriteState] gets what is left. *)
Theorem optional_failures_are_skipped ord_check ord_setup m cs :
  ranges ord_check (Some m) → ranges ord_setup (Some m) →
  checkRemotePluginsConfiguration (Some m) ord_check = None →
  (∀ ev, ev ∈ calls (SetupRemotePlugins client ord_check ord_setup (mkWorld (Some m) cs)) →
         failed ev = true → is_step ev = true) →
  (∀ pAlias d, m !! pAlias = Some d →
     step_failed_in d (calls (SetupRemotePlugins client ord_check ord_setup (mkWorld (Some m) cs))) →
     Descriptor.Required d = false) →
  result (SetupRemotePlugins client ord_check ord_setup (mkWorld (Some m) cs)) = None
  ∧ (∀ pAlias d, m !! pAlias = Some d →
       (go_lookup (mapObj (world (SetupRemotePlugins client ord_check ord_setup
                                    (mkWorld (Some m) cs)))) pAlias = None
        ↔ step_failed_in d (calls (SetupRemotePlugins client ord_check ord_setup
                                     (mkWorld (Some m) cs)))))
  ∧ written (calls (SetupRemotePlugins client ord_check ord_setup (mkWorld (Some m) cs)))
    = [mapObj (world (SetupRemotePlugins client ord_check ord_setup (mkWorld (Some m) cs)))].
Proof.
  intros Hrc Hrs Hc Hsteps Hopt.
  pose proof (SetupRemotePlugins_outcome client ord_check ord_setup (mkWorld (Some m) cs)) as Hout.
  cbn [mapObj] in Hout.
  assert (NoDup (module_names ord_setup)) as Hnd.
  { apply checkRemotePluginsConfiguration_None, checkRemote_loop_clean in Hc as [_ Hnd].
    assert (ord_check ≡ₚ ord_setup) as Hperm by (unfold ranges in *; by rewrite Hrc, Hrs).
    unfold module_names in *. by rewrite <- Hperm. }
  destruct Hout as [err Hc'|err Hc'|err t Hc' Hlo|un t Hc' Hlo|un t err r Hc' Hlo].
  - congruence.
  - specialize (Hsteps _ (list_elem_of_here _ _) eq_refl). discriminate.
  - exfalso. destruct (loop_outcome_skips _ _ _ _ Hlo Hnd) as (new & Hf & _); [|done].
    intros a d Hd Hs. apply (Hopt a d); [by apply (ranges_elem_of _ _ _ _ Hrs)|].
    by apply (step_failed_in_app_r _ [_]).
  - destruct (loop_outcome_skips _ _ _ _ Hlo Hnd) as (new & Hf & Hnew & Hall).
    { intros a d Hd Hs. apply (Hopt a d); [by apply (ranges_elem_of _ _ _ _ Hrs)|].
      by apply (step_failed_in_app_r _ [_]), step_failed_in_app_l. }
    inversion Hf; subst un. cbn [app] in *.
    destruct (go_delete_all m new) as (m' & Hm' & Hk). rewrite Hm'.
    split; [done|]. split.
    + intros a d Hm. cbn [go_lookup]. rewrite Hk. split.
      * case_decide as Hin; [|congruence]. intros _.
        destruct (Hnew a Hin) as (d' & Hd' & Hs).
        apply (ranges_elem_of _ _ _ _ Hrs) in Hd'. assert (d' = d) as -> by congruence.
        by apply (step_failed_in_app_r _ [_]), step_failed_in_app_l.
      * intros (ev & Hev & Hf' & Hstep). rewrite decide_True; [done|].
        apply (Hall a d); [by apply (ranges_elem_of _ _ _ _ Hrs)|].
        exists ev. split; [|done].
        apply elem_of_cons in Hev as [->|Hev]; [discriminate|].
        apply elem_of_app in Hev as [Hev|Hev]; [done|].
        apply elem_of_cons in Hev as [->|Hev]; [discriminate|by apply elem_of_nil in Hev].
    + change (written ([CallCleanArchives (Some m) None] ++ t ++ [CallWriteState (Some m') None])
              = [Some m']).
      by rewrite !written_app, (loop_outcome_written _ _ _ _ Hlo).
  - assert (is_step (CallWriteState (foldl go_delete (Some m) un) (Some err)) = true);
      [|discriminate].
    apply Hsteps; [|done]. apply list_elem_of_further, elem_of_app. right.
    apply list_elem_of_here.
Qed.

(** X20.  A reset can follow a successful unpacking in a run that keeps the
    plugin.  When a run returns nil, a reference visited before a dropped
    one and itself kept was unpacked before the store was reset for the
    dropped one, and is in the mapping handed to [WriteState], the last call
    of the run. *)
Theorem kept_plugin_unpacked_before_reset ord_check pre pAlias d mid dropped d' post m cs :
  ranges (pre ++ (pAlias, d) :: mid ++ (dropped, d') :: post) (Some m) →
  result (SetupRemotePlugins client ord_check
            (pre ++ (pAlias, d) :: mid ++ (dropped, d') :: post) (mkWorld (Some m) cs)) = None →
  go_lookup (mapObj (world (SetupRemotePlugins client ord_check
                              (pre ++ (pAlias, d) :: mid ++ (dropped, d') :: post)
                              (mkWorld (Some m) cs)))) pAlias = Some d →
  go_lookup (mapObj (world (SetupRemotePlugins client ord_check
                              (pre ++ (pAlias, d) :: mid ++ (dropped, d') :: post)
                              (mkWorld (Some m) cs)))) dropped = None →
  ∃ l1 l2 l3 r,
    calls (SetupRemotePlugins client ord_check
             (pre ++ (pAlias, d) :: mid ++ (dropped, d') :: post) (mkWorld (Some m) cs))
    = l1 ++ [CallUnzip (Descriptor.ModuleName d) (Descriptor.Version d) None]
         ++ l2 ++ [CallResetAll r]
         ++ l3 ++ [CallWriteState
                     (mapObj (world (SetupRemotePlugins client ord_check
                                       (pre ++ (pAlias, d) :: mid ++ (dropped, d') :: post)
                                       (mkWorld (Some m) cs)))) None].
Proof.
  intros Hr Hres Hkept Hdropped.
  pose proof (SetupRemotePlugins_outcome client ord_check
                (pre ++ (pAlias, d) :: mid ++ (dropped, d') :: post) (mkWorld (Some m) cs)) as Hout.
  cbn [mapObj] in Hout.
  assert (NoDup (pre ++ (pAlias, d) :: mid ++ (dropped, d') :: post).*1) as Hkeys.
  { unfold ranges in Hr. cbn in Hr. rewrite Hr. apply NoDup_fst_map_to_list. }
  destruct Hout as [err Hc|err Hc|err t Hc Hlo|un t Hc Hlo|un t err r Hc Hlo]; try discriminate.
  destruct (go_delete_all m un) as (m' & Hm' & Hk). rewrite Hm' in *. cbn [go_lookup] in *.
  rewrite Hk in Hkept, Hdropped.
  destruct (decide (pAlias ∈ un)) as [Hin_a|Hin_a]; [discriminate|].
  assert (dropped ∈ un) as Hin_b.
  { destruct (decide (dropped ∈ un)) as [Hin_b|Hin_b]; [done|]. exfalso.
    assert (m !! dropped = Some d'); [|congruence].
    apply (ranges_elem_of _ _ _ _ Hr). apply elem_of_app. right.
    apply list_elem_of_further, elem_of_app. right. apply list_elem_of_here. }
  destruct (loop_outcome_app _ _ _ _ _ Hlo) as (un1 & t1 & t2 & H1 & H2 & ->).
  inversion H2 as [|? ? ? ? h ? t3 H3|? ? ? ? t0 err ? t3 Hreq Hfail H3|]; subst.
  2:{ exfalso. apply Hin_a.
      destruct (loop_outcome_unavailable _ _ _ _ H3) as (new & -> & _).
      rewrite !elem_of_app. left; right. apply list_elem_of_here. }
  destruct (loop_outcome_app _ _ _ _ _ H3) as (un2 & t4 & t5 & H4 & H5 & ->).
  inversion H5 as [|? ? ? ? h' ? t6 H6|? ? ? ? t0 err ? t6 Hreq Hfail H6|]; subst.
  { exfalso.
    destruct (loop_outcome_unavailable _ _ _ _ H1) as (new1 & Hun1 & Hnew1).
    destruct (loop_outcome_unavailable _ _ _ _ H4) as (new4 & -> & Hnew4).
    destruct (loop_outcome_unavailable _ _ _ _ H6) as (new6 & -> & Hnew6).
    cbn in Hun1. subst un1.
    rewrite !fmap_app, !fmap_cons, !fmap_app, !fmap_cons in Hkeys. cbn [fst] in Hkeys.
    apply NoDup_app in Hkeys as (_ & Hpre & Hkeys).
    apply NoDup_cons in Hkeys as (_ & Hkeys).
    apply NoDup_app in Hkeys as (_ & Hmid & Hkeys).
    apply NoDup_cons in Hkeys as (Hpost & _).
    rewrite !elem_of_app in Hin_b. destruct Hin_b as [[Hb|Hb]|Hb].
    - destruct (Hnew1 _ Hb) as (d0 & Hd0 & _). apply (Hpre dropped).
      + apply list_elem_of_fmap. by exists (dropped, d0).
      + apply list_elem_of_further, elem_of_app. right. apply list_elem_of_here.
    - destruct (Hnew4 _ Hb) as (d0 & Hd0 & _). apply (Hmid dropped).
      + apply list_elem_of_fmap. by exists (dropped, d0).
      + apply list_elem_of_here.
    - destruct (Hnew6 _ Hb) as (d0 & Hd0 & _). apply Hpost.
      apply list_elem_of_fmap. by exists (dropped, d0). }
  assert (∃ t0' r, t0 = t0' ++ [CallResetAll r]) as (t0' & r & ->).
  { destruct Hfail as [hh e r|hh e r|hh e r]; eexists _, r.
    - by instantiate (1 := [_]).
    - by instantiate (1 := [_; _]).
    - by instantiate (1 := [_; _; _]). }
  exists (CallCleanArchives (Some m) None :: t1
            ++ [CallDownload (Descriptor.ModuleName d) (Descriptor.Version d) h None;
                CallCheck (Descriptor.ModuleName d) (Descriptor.Version d) h None]),
    (t4 ++ t0'), t6, r.
  unfold provisioned_calls. repeat (progress (rewrite <- ?app_assoc; cbn [app])). reflexivity.
Qed.
End Degraded.

(** ** The further properties at sample runs *)

Lemma clean_archives_failure_witness :
  checkRemotePluginsConfiguration (Some Samples.mixed) (map_to_list Samples.mixed) = None
  ∧ Samples.run_on MoreSamples.stuck Samples.mixed
    = (Some (fmt_Errorf "unable to clean archives: %w" [] (Some Samples.boom)),
       mkWorld (Some Samples.mixed) 1,
       [CallCleanArchives (Some Samples.mixed) (Some Samples.boom)]).
Proof.
  assert (checkRemotePluginsConfiguration (Some Samples.mixed) (map_to_list Samples.mixed) = None)
    as H1 by (vm_compute; reflexivity).
  split; [exact H1|].
  exact (clean_archives_failure MoreSamples.stuck _ (map_to_list Samples.mixed)
           (mkWorld (Some Samples.mixed) 0) Samples.boom 1 H1 eq_refl).
Defined.

Lemma write_state_failure_witness :
  CallWriteState (Some Samples.mixed) (Some Samples.boom)
    ∈ calls (Samples.run_on MoreSamples.read_only Samples.mixed)
  ∧ result (Samples.run_on MoreSamples.read_only Samples.mixed)
    = Some (fmt_Errorf "unable to write plugins state: %w" [] (Some Samples.boom)).
Proof.
  assert (CallWriteState (Some Samples.mixed) (Some Samples.boom)
            ∈ calls (Samples.run_on MoreSamples.read_only Samples.mixed)) as H1.
  { vm_compute. do 7 apply list_elem_of_further. apply list_elem_of_here. }
  split; [exact H1|].
  exact (proj1 (write_state_failure MoreSamples.read_only _ _
                  (mkWorld (Some Samples.mixed) 0) _ _ H1)).
Defined.

Lemma required_check_failure_witness :
  MoreSamples.one_required_foo !! "a" = Some MoreSamples.required_foo
  ∧ CallCheck "foo" "v1" "sha" (Some Samples.boom)
      ∈ calls (Samples.run_on Samples.corrupting MoreSamples.one_required_foo)
  ∧ result (Samples.run_on Samples.corrupting MoreSamples.one_required_foo)
    = Some (fmt_Errorf "unable to check archive integrity of the plugin %s: %w"
              ["foo"] (Some Samples.boom)).
Proof.
  assert (MoreSamples.one_required_foo !! "a" = Some MoreSamples.required_foo) as H1
    by (vm_compute; reflexivity).
  assert (CallCheck "foo" "v1" "sha" (Some Samples.boom)
            ∈ calls (Samples.run_on Samples.corrupting MoreSamples.one_required_foo)) as H2.
  { vm_compute. do 2 apply list_elem_of_further. apply list_elem_of_here. }
  split; [exact H1|]. split; [exact H2|].
  exact (proj1 (required_check_failure Samples.corrupting
                  (map_to_list MoreSamples.one_required_foo)
                  (map_to_list MoreSamples.one_required_foo)
                  MoreSamples.one_required_foo 0 "a" MoreSamples.required_foo "sha" Samples.boom
                  (ranges_map_to_list _) (ranges_map_to_list _) H1 eq_refl H2)).
Defined.

Lemma required_unzip_failure_witness :
  Samples.one_required !! "a" = Some Samples.foo_bar
  ∧ CallUnzip "foo/bar" "v1" (Some Samples.boom)
      ∈ calls (Samples.run_on MoreSamples.jammed Samples.one_required)
  ∧ result (Samples.run_on MoreSamples.jammed Samples.one_required)
    = Some (fmt_Errorf "unable to unzip archive: %w" [] (Some Samples.boom)).
Proof.
  assert (Samples.one_required !! "a" = Some Samples.foo_bar) as H1
    by (vm_compute; reflexivity).
  assert (CallUnzip "foo/bar" "v1" (Some Samples.boom)
            ∈ calls (Samples.run_on MoreSamples.jammed Samples.one_required)) as H2.
  { vm_compute. do 3 apply list_elem_of_further. apply list_elem_of_here. }
  split; [exact H1|]. split; [exact H2|].
  exact (proj1 (required_unzip_failure MoreSamples.jammed
                  (map_to_list Samples.one_required) (map_to_list Samples.one_required)
                  Samples.one_required 0 "a" Samples.foo_bar Samples.boom
                  (ranges_map_to_list _) (ranges_map_to_list _) H1 eq_refl H2)).
Defined.

Lemma every_reference_attempted_once_witness :
  ranges (map_to_list Samples.mixed) (Some Samples.mixed)
  ∧ NoDup (downloads (calls (Samples.run_on Samples.corrupting Samples.mixed))).*1.
Proof.
  split; [apply ranges_map_to_list|].
  exact (proj2 (proj2 (every_reference_attempted_once Samples.corrupting _ _
                         (mkWorld (Some Samples.mixed) 0)
                         (ranges_map_to_list _) (ranges_map_to_list _)))).
Defined.

Lemma required_only_mapping_untouched_witness :
  (∀ pAlias d, go_lookup (Some Samples.one_required) pAlias = Some d →
               Descriptor.Required d = true)
  ∧ mapObj (world (Samples.run_on Samples.offline Samples.one_required))
    = Some Samples.one_required.
Proof.
  assert (∀ pAlias d, go_lookup (Some Samples.one_required) pAlias = Some d →
                      Descriptor.Required d = true) as H1.
  { intros a d Hm. cbn in Hm. unfold Samples.one_required in Hm.
    apply lookup_singleton_Some in Hm as [_ <-]. reflexivity. }
  split; [exact H1|].
  exact (required_only_mapping_untouched Samples.offline _ _
           (mkWorld (Some Samples.one_required) 0) (ranges_map_to_list _) H1).
Defined.

Lemma validation_accepts_iff_witness :
  ranges (map_to_list Samples.mixed) (Some Samples.mixed)
  ∧ ∀ a1 d1 a2 d2, Samples.mixed !! a1 = Some d1 → Samples.mixed !! a2 = Some d2 →
      Descriptor.ModuleName d1 = Descriptor.ModuleName d2 → a1 = a2.
Proof.
  split; [apply ranges_map_to_list|].
  apply (proj1 (validation_accepts_iff Samples.mixed _ (ranges_map_to_list _))).
  vm_compute. reflexivity.
Defined.

Lemma violations_independent_of_order_witness :
  ranges (reverse (map_to_list Samples.twice_no_name)) (Some Samples.twice_no_name)
  ∧ (checkRemote_loop (map_to_list Samples.twice_no_name) (∅, [])).2
    ≡ₚ (checkRemote_loop (reverse (map_to_list Samples.twice_no_name)) (∅, [])).2.
Proof.
  assert (ranges (reverse (map_to_list Samples.twice_no_name)) (Some Samples.twice_no_name))
    as H1 by (unfold ranges; apply reverse_Permutation).
  split; [exact H1|].
  exact (proj1 (violations_independent_of_order Samples.twice_no_name _ _
                  (ranges_map_to_list _) H1)).
Defined.

Lemma manifest_accepted_iff_witness :
  MoreSamples.store_of MoreSamples.complete localGoPath "foo" = inl MoreSamples.complete
  ∧ checkLocalPluginManifest LocalSamples.typeMiddleware LocalSamples.typeProvider
      LocalSamples.runtimeYaegi LocalSamples.runtimeWasm LocalSamples.IsYaegiPlugin
      (MoreSamples.store_of MoreSamples.complete) (LocalDescriptor.mk "foo") = None.
Proof.
  split; [reflexivity|].
  apply (proj2 (manifest_accepted_iff LocalSamples.typeMiddleware LocalSamples.typeProvider
                  LocalSamples.runtimeYaegi LocalSamples.runtimeWasm LocalSamples.IsYaegiPlugin
                  (MoreSamples.store_of MoreSamples.complete)
                  (LocalDescriptor.mk "foo") MoreSamples.complete eq_refl)).
  split; [left; split; [reflexivity|left; reflexivity]|].
  split; [intros _; split; [discriminate|reflexivity]|].
  repeat split; discriminate.
Defined.

Lemma unsupported_type_reported_witness :
  MoreSamples.store_of MoreSamples.odd_type localGoPath "foo" = inl MoreSamples.odd_type
  ∧ Type_ MoreSamples.odd_type ≠ LocalSamples.typeMiddleware
  ∧ Type_ MoreSamples.odd_type ≠ LocalSamples.typeProvider
  ∧ filter (λ e, is_UnsupportedRuntime e = true)
      (manifest_violations LocalSamples.typeMiddleware LocalSamples.typeProvider
         LocalSamples.runtimeYaegi LocalSamples.runtimeWasm LocalSamples.IsYaegiPlugin
         (MoreSamples.store_of MoreSamples.odd_type) (LocalDescriptor.mk "foo")) = [].
Proof.
  assert (Type_ MoreSamples.odd_type ≠ LocalSamples.typeMiddleware) as H1 by discriminate.
  assert (Type_ MoreSamples.odd_type ≠ LocalSamples.typeProvider) as H2 by discriminate.
  split; [reflexivity|]. split; [exact H1|]. split; [exact H2|].
  exact (proj2 (unsupported_type_reported LocalSamples.typeMiddleware LocalSamples.typeProvider
                  LocalSamples.runtimeYaegi LocalSamples.runtimeWasm LocalSamples.IsYaegiPlugin
                  (MoreSamples.store_of MoreSamples.odd_type)
                  (LocalDescriptor.mk "foo") MoreSamples.odd_type eq_refl H1 H2)).
Defined.

Lemma empty_import_reported_twice_witness :
  LocalSamples.IsYaegiPlugin MoreSamples.bare_interpreted = true
  ∧ Import_ MoreSamples.bare_interpreted = ""
  ∧ ImportMismatch "" "foo"
      ∈ manifest_violations LocalSamples.typeMiddleware LocalSamples.typeProvider
          LocalSamples.runtimeYaegi LocalSamples.runtimeWasm LocalSamples.IsYaegiPlugin
          (MoreSamples.store_of MoreSamples.bare_interpreted) (LocalDescriptor.mk "foo").
Proof.
  split; [reflexivity|]. split; [reflexivity|].
  assert (LocalDescriptor.ModuleName (LocalDescriptor.mk "foo") ≠ "") as Hn by discriminate.
  exact (proj2 (empty_import_reported_twice LocalSamples.typeMiddleware LocalSamples.typeProvider
                  LocalSamples.runtimeYaegi LocalSamples.runtimeWasm LocalSamples.IsYaegiPlugin
                  (MoreSamples.store_of MoreSamples.bare_interpreted)
                  (LocalDescriptor.mk "foo") MoreSamples.bare_interpreted
                  eq_refl eq_refl eq_refl Hn)).
Defined.

Lemma local_validation_accepts_iff_witness :
  ranges (map_to_list MoreSamples.local_one) (Some MoreSamples.local_one)
  ∧ SetupLocalPlugins LocalSamples.typeMiddleware LocalSamples.typeProvider
      LocalSamples.runtimeYaegi LocalSamples.runtimeWasm LocalSamples.IsYaegiPlugin
      (MoreSamples.store_of MoreSamples.complete)
      (Some MoreSamples.local_one) (map_to_list MoreSamples.local_one) = None.
Proof.
  assert (ranges (map_to_list MoreSamples.local_one) (Some MoreSamples.local_one)) as H1
    by (unfold ranges; reflexivity).
  split; [exact H1|].
  apply (proj2 (local_validation_accepts_iff LocalSamples.typeMiddleware LocalSamples.typeProvider
                  LocalSamples.runtimeYaegi LocalSamples.runtimeWasm LocalSamples.IsYaegiPlugin
                  (MoreSamples.store_of MoreSamples.complete)
                  MoreSamples.local_one _ H1)).
  split.
  - intros a d Hm. unfold MoreSamples.local_one in Hm.
    apply lookup_singleton_Some in Hm as [_ <-].
    split; [discriminate|]. split; reflexivity.
  - intros a1 d1 a2 d2 Hm1 Hm2 _. unfold MoreSamples.local_one in Hm1, Hm2.
    apply lookup_singleton_Some in Hm1 as [<- _]. by apply lookup_singleton_Some in Hm2 as [<- _].
Defined.

Lemma optional_failures_are_skipped_witness :
  checkRemotePluginsConfiguration (Some Samples.mixed) (map_to_list Samples.mixed) = None
  ∧ result (Samples.run_on Samples.corrupting Samples.mixed) = None
  ∧ written (calls (Samples.run_on Samples.corrupting Samples.mixed))
    = [mapObj (world (Samples.run_on Samples.corrupting Samples.mixed))].
Proof.
  assert (checkRemotePluginsConfiguration (Some Samples.mixed) (map_to_list Samples.mixed) = None)
    as H1 by (vm_compute; reflexivity).
  assert (∀ ev, ev ∈ calls (Samples.run_on Samples.corrupting Samples.mixed) →
                failed ev = true → is_step ev = true) as H2.
  { intros ev Hin. vm_compute in Hin. each_call Hin. }
  assert (∀ pAlias d, Samples.mixed !! pAlias = Some d →
                      step_failed_in d (calls (Samples.run_on Samples.corrupting Samples.mixed)) →
                      Descriptor.Required d = false) as H3.
  { intros a d Hm (ev & Hin & Hf & Hstep).
    apply elem_of_map_to_list in Hm. vm_compute in Hm.
    apply elem_of_cons in Hm as [Hm|Hm].
    - inversion Hm; subst a d. exfalso. vm_compute in Hin.
      repeat (apply elem_of_cons in Hin as [->|Hin]; [try discriminate|]).
      + destruct Hstep as [(? & ? & Heq)|[(? & ? & Heq)|(? & Heq)]]; discriminate.
      + by apply elem_of_nil in Hin.
    - apply elem_of_cons in Hm as [Hm|Hm]; [|by apply elem_of_nil in Hm].
      by inversion Hm. }
  pose proof (optional_failures_are_skipped Samples.corrupting
                (map_to_list Samples.mixed) (map_to_list Samples.mixed) Samples.mixed 0
                (ranges_map_to_list _) (ranges_map_to_list _) H1 H2 H3) as (Hres & _ & Hw).
  split; [exact H1|]. split; [exact Hres|exact Hw].
Defined.

Lemma kept_plugin_unpacked_before_reset_witness :
  ranges MoreSamples.a_then_b (Some Samples.mixed)
  ∧ ∃ l1 l2 l3 r,
      calls (SetupRemotePlugins Samples.corrupting (map_to_list Samples.mixed)
               MoreSamples.a_then_b (mkWorld (Some Samples.mixed) 0))
      = l1 ++ [CallUnzip "foo/bar" "v1" None] ++ l2 ++ [CallResetAll r]
           ++ l3 ++ [CallWriteState
                       (mapObj (world (SetupRemotePlugins Samples.corrupting
                                         (map_to_list Samples.mixed) MoreSamples.a_then_b
                                         (mkWorld (Some Samples.mixed) 0)))) None].
Proof.
  assert (ranges MoreSamples.a_then_b (Some Samples.mixed)) as H1
    by (vm_compute; reflexivity).
  split; [exact H1|].
  apply (kept_plugin_unpacked_before_reset Samples.corrupting (map_to_list Samples.mixed)
           [] "a" Samples.foo_bar [] "b" Samples.optional_foo [] Samples.mixed 0 H1).
  - vm_compute. reflexivity.
  - vm_compute. reflexivity.
  - vm_compute. reflexivity.
Defined.

(** ** The caller's mapping after a run *)

Section CallerMapping.
Context {St : Type} (client : Client St).
Implicit Types (w : World St) (d : Descriptor.t) (m : gmap string Descriptor.t).

(** A loop that ran to its end dropped no required reference: every
    reference with a failed sub-step is non-required. *)
Lemma loop_outcome_next_optional ord un un' t a d :
  loop_outcome ord un (Next un') t →
  (∀ a1 d1 a2 d2, (a1, d1) ∈ ord → (a2, d2) ∈ ord →
                  Descriptor.ModuleName d1 = Descriptor.ModuleName d2 → d1 = d2) →
  (a, d) ∈ ord → step_failed_in d t → Descriptor.Required d = false.
Proof.
  intros Hlo Huniq Hd (ev & Hev & Hf & Hstep).
  destruct (loop_outcome_failed_call _ _ _ _ _ Hlo Hev Hf)
    as (a0 & d0 & t0 & err & Hd0 & Hfs & Hev0 & Hreq).
  assert (d0 = d) as <-.
  { apply (Huniq a0 d0 a d Hd0 Hd). by apply (failed_step_module d0 t0 err ev d). }
  destruct (Descriptor.Required d0) eqn:Hr; [|done].
  destruct (Hreq eq_refl) as [Habs _]. discriminate.
Qed.

(** The failed sub-steps of a run are those of its provisioning loop. *)
Lemma step_failed_in_run d plugins r t tail :
  (∀ ev, ev ∈ tail → is_step ev = false) →
  step_failed_in d (CallCleanArchives plugins r :: t ++ tail) ↔ step_failed_in d t.
Proof.
  intros Htail. split.
  - intros (ev & Hev & Hf & Hstep). exists ev. split; [|done].
    apply elem_of_cons in Hev as [->|Hev].
    { destruct Hstep as [(? & ? & Heq)|[(? & ? & Heq)|(? & Heq)]]; discriminate. }
    apply elem_of_app in Hev as [Hev|Hev]; [done|].
    apply Htail in Hev.
    destruct Hstep as [(? & ? & ->)|[(? & ? & ->)|(? & ->)]]; discriminate.
  - intros H. by apply (step_failed_in_app_r _ [_]), step_failed_in_app_l.
Qed.

(** A run either ends before [WriteState] is called and leaves the mapping
    as it was, or has passed validation and finished its loop, deleted the
    aliases the loop collected and called [WriteState]. *)
Lemma run_reaches_write_state ord_check ord_setup w :
  (written (calls (SetupRemotePlugins client ord_check ord_setup w)) = []
   ∧ mapObj (world (SetupRemotePlugins client ord_check ord_setup w)) = mapObj w)
  ∨ (written (calls (SetupRemotePlugins client ord_check ord_setup w)) ≠ []
     ∧ checkRemotePluginsConfiguration (mapObj w) ord_check = None
     ∧ ∃ un t,
         loop_outcome ord_setup [] (Next un) t
         ∧ mapObj (world (SetupRemotePlugins client ord_check ord_setup w))
           = foldl go_delete (mapObj w) un
         ∧ ∀ d, step_failed_in d (calls (SetupRemotePlugins client ord_check ord_setup w))
                ↔ step_failed_in d t).
Proof.
  pose proof (SetupRemotePlugins_outcome client ord_check ord_setup w) as Hout.
  destruct Hout as [err Hc|err Hc|err t Hc Hlo|un t Hc Hlo|un t err r Hc Hlo].
  - left. done.
  - left. done.
  - left. split; [|done].
    change (written ([CallCleanArchives (mapObj w) None] ++ t) = []).
    by rewrite written_app, (loop_outcome_written _ _ _ _ Hlo).
  - right. split; [|split; [done|]].
    + change (written ([CallCleanArchives (mapObj w) None] ++ t
                       ++ [CallWriteState (foldl go_delete (mapObj w) un) None]) ≠ []).
      by rewrite !written_app, (loop_outcome_written _ _ _ _ Hlo).
    + exists un, t. split; [done|]. split; [done|]. intros d. apply step_failed_in_run.
      intros ev Hev. apply elem_of_cons in Hev as [->|Hev]; [done|by apply elem_of_nil in Hev].
  - right. split; [|split; [done|]].
    + change (written ([CallCleanArchives (mapObj w) None] ++ t
                       ++ [CallWriteState (foldl go_delete (mapObj w) un) (Some err);
                           CallResetAll r]) ≠ []).
      by rewrite !written_app, (loop_outcome_written _ _ _ _ Hlo).
    + exists un, t. split; [done|]. split; [done|]. intros d. apply step_failed_in_run.
      intros ev Hev. repeat (apply elem_of_cons in Hev as [->|Hev]; [done|]).
      by apply elem_of_nil in Hev.
Qed.

(** Once [WriteState] has been called, the aliases gone from the mapping
    are exactly those of the references with a failed sub-step, and these
    references are all non-required. *)
Lemma mapping_after_write_state ord_check ord_setup w pAlias d :
  ranges ord_check (mapObj w) → ranges ord_setup (mapObj w) →
  written (calls (SetupRemotePlugins client ord_check ord_setup w)) ≠ [] →
  go_lookup (mapObj w) pAlias = Some d →
  (go_lookup (mapObj (world (SetupRemotePlugins client ord_check ord_setup w))) pAlias = None
   ↔ step_failed_in d (calls (SetupRemotePlugins client ord_check ord_setup w)))
  ∧ (step_failed_in d (calls (SetupRemotePlugins client ord_check ord_setup w)) →
     Descriptor.Required d = false).
Proof.
  intros Hrc Hrs Hw Hlook.
  destruct (run_reaches_write_state ord_check ord_setup w)
    as [[Hnone _]|(_ & Hc & un & t & Hlo & Hfinal & Hsteps)]; [done|].
  rewrite Hfinal. clear Hfinal Hw.
  destruct (mapObj w) as [m|] eqn:Hm; [|discriminate]. cbn [go_lookup] in Hlook.
  assert (ord_check ≡ₚ ord_setup) as Hperm by (unfold ranges in *; by rewrite Hrc, Hrs).
  assert (NoDup (module_names ord_setup)) as Hnd.
  { pose proof Hc as Hc'.
    apply checkRemotePluginsConfiguration_None, checkRemote_loop_clean in Hc' as [_ Hnd].
    unfold module_names in *. by rewrite <- Hperm. }
  assert (∀ a1 d1, (a1, d1) ∈ ord_setup → step_failed_in d1 t →
                   Descriptor.Required d1 = false) as Hopt.
  { intros a1 d1 Hd1. apply (loop_outcome_next_optional _ _ _ _ a1 d1 Hlo); [|done].
    intros b1 e1 b2 e2 H1 H2 Hname.
    by destruct (validated_names_unique m ord_check ord_setup b1 e1 b2 e2 Hc Hperm H1 H2 Hname). }
  destruct (loop_outcome_skips _ _ _ _ Hlo Hnd Hopt) as (new & Hf & Hnew & Hall).
  inversion Hf; subst un. cbn [app] in *.
  destruct (go_delete_all m new) as (m' & -> & Hk). cbn [go_lookup]. rewrite Hk.
  assert ((pAlias, d) ∈ ord_setup) as Hd by (by apply (ranges_elem_of _ _ _ _ Hrs)).
  split; [split|].
  - destruct (decide (pAlias ∈ new)) as [Hin|Hin]; [|congruence]. intros _.
    destruct (Hnew pAlias Hin) as (d' & Hd' & Hs).
    apply (ranges_elem_of _ _ _ _ Hrs) in Hd'. assert (d' = d) as -> by congruence.
    by apply Hsteps.
  - intros Hs. apply Hsteps in Hs.
    destruct (decide (pAlias ∈ new)) as [Hin|Hin]; [done|].
    destruct Hin. by apply (Hall pAlias d).
  - intros Hs. apply Hsteps in Hs. by apply (Hopt pAlias d).
Qed.

(** C6, as amended.  The caller's mapping is not immutable.  A run never
    adds an entry to it nor changes one, and an alias it removes belongs to
    a non-required reference one of whose Download, Check or Unzip calls
    failed during the run.  When the run ends before [WriteState] is called
    the mapping is exactly as before the call; when [WriteState] is called
    the mapping holds exactly the entries it held before the call except
    those of the references one of whose Download, Check or Unzip calls
    failed, and all of these references are non-required.  A nil mapping
    stays nil, and when no call fails the mapping is left as it was. *)
Theorem mapping_loses_only_unavailable ord_check ord_setup w :
  ranges ord_check (mapObj w) → ranges ord_setup (mapObj w) →
  (∀ pAlias d,
     go_lookup (mapObj (world (SetupRemotePlugins client ord_check ord_setup w))) pAlias = Some d →
     go_lookup (mapObj w) pAlias = Some d)
  ∧ (∀ pAlias d,
       go_lookup (mapObj w) pAlias = Some d →
       go_lookup (mapObj (world (SetupRemotePlugins client ord_check ord_setup w))) pAlias = None →
       Descriptor.Required d = false
       ∧ step_failed_in d (calls (SetupRemotePlugins client ord_check ord_setup w)))
  ∧ (written (calls (SetupRemotePlugins client ord_check ord_setup w)) = [] →
     mapObj (world (SetupRemotePlugins client ord_check ord_setup w)) = mapObj w)
  ∧ (written (calls (SetupRemotePlugins client ord_check ord_setup w)) ≠ [] →
     ∀ pAlias d,
       go_lookup (mapObj w) pAlias = Some d →
       (go_lookup (mapObj (world (SetupRemotePlugins client ord_check ord_setup w))) pAlias
        = None
        ↔ step_failed_in d (calls (SetupRemotePlugins client ord_check ord_setup w)))
       ∧ (go_lookup (mapObj (world (SetupRemotePlugins client ord_check ord_setup w))) pAlias
          = Some d
          ↔ ¬ step_failed_in d (calls (SetupRemotePlugins client ord_check ord_setup w)))
       ∧ (step_failed_in d (calls (SetupRemotePlugins client ord_check ord_setup w)) →
          Descriptor.Required d = false))
  ∧ (mapObj (world (SetupRemotePlugins client ord_check ord_setup w)) = None ↔ mapObj w = None)
  ∧ ((∀ ev, ev ∈ calls (SetupRemotePlugins client ord_check ord_setup w) → failed ev = false) →
     mapObj (world (SetupRemotePlugins client ord_check ord_setup w)) = mapObj w).
Proof.
  intros Hrc Hrs.
  assert (∀ pAlias d,
            go_lookup (mapObj (world (SetupRemotePlugins client ord_check ord_setup w))) pAlias
            = Some d →
            go_lookup (mapObj w) pAlias = Some d) as Hsub.
  { destruct (mapping_after_run client ord_check ord_setup w) as (un & Hfinal & _).
    rewrite Hfinal. intros pAlias d.
    destruct (mapObj w) as [m|]; [|by rewrite go_delete_nil].
    destruct (go_delete_all m un) as (m' & -> & Hk). cbn. rewrite Hk. by case_decide. }
  split; [exact Hsub|]. split; [|split; [|split; [|split]]].
  - destruct (mapping_after_run client ord_check ord_setup w) as (un & Hfinal & Hwhy).
    rewrite Hfinal. intros pAlias d. destruct (mapObj w) as [m|] eqn:Hm; [|done].
    destruct (go_delete_all m un) as (m' & -> & Hk). cbn. rewrite Hk.
    intros Hlook Hgone. case_decide as Hun; [|congruence].
    destruct (Hwhy _ Hun) as (d' & Hd' & Hreq & Hfail).
    apply (ranges_elem_of _ _ _ _ Hrs) in Hd'.
    assert (d' = d) as -> by congruence. done.
  - intros Hw.
    destruct (run_reaches_write_state ord_check ord_setup w) as [[_ Hsame]|[Hw' _]]; done.
  - intros Hw pAlias d Hlook.
    destruct (mapping_after_write_state ord_check ord_setup w pAlias d Hrc Hrs Hw Hlook)
      as [Hgone Hopt].
    split; [exact Hgone|]. split; [|exact Hopt]. split.
    + intros Hkept Hs. apply Hgone in Hs. congruence.
    + intros Hns.
      destruct (go_lookup (mapObj (world (SetupRemotePlugins client ord_check ord_setup w)))
                  pAlias) as [d'|] eqn:Hfin.
      * apply Hsub in Hfin. congruence.
      * destruct Hns. by apply Hgone.
  - destruct (mapping_after_run client ord_check ord_setup w) as (un & Hfinal & _).
    rewrite Hfinal. destruct (mapObj w) as [m|]; [|by rewrite go_delete_nil].
    destruct (go_delete_all m un) as (m' & -> & Hk). done.
  - apply run_without_failure.
Qed.

End CallerMapping.

Lemma mapping_loses_only_unavailable_witness :
  ranges (map_to_list Samples.one_optional) (Some Samples.one_optional)
  ∧ written (calls (Samples.run_on Samples.offline Samples.one_optional)) ≠ []
  ∧ step_failed_in Samples.optional_foo
      (calls (Samples.run_on Samples.offline Samples.one_optional))
  ∧ go_lookup (mapObj (world (Samples.run_on Samples.offline Samples.one_optional))) "a" = None.
Proof.
  assert (written (calls (Samples.run_on Samples.offline Samples.one_optional)) ≠ []) as Hw
    by (vm_compute; discriminate).
  assert (step_failed_in Samples.optional_foo
            (calls (Samples.run_on Samples.offline Samples.one_optional))) as Hs.
  { exists (CallDownload "foo" "v1" "" (Some Samples.boom)). split.
    - vm_compute. apply list_elem_of_further, list_elem_of_here.
    - split; [reflexivity|]. left. eexists _, _. reflexivity. }
  split; [apply ranges_map_to_list|]. split; [exact Hw|]. split; [exact Hs|].
  pose proof (mapping_loses_only_unavailable Samples.offline
                (map_to_list Samples.one_optional) (map_to_list Samples.one_optional)
                (mkWorld (Some Samples.one_optional) 0)
                (ranges_map_to_list _) (ranges_map_to_list _)) as (_ & _ & _ & Hexact & _).
  destruct (Hexact Hw "a" Samples.optional_foo eq_refl) as (Hgone & _).
  apply Hgone, Hs.
Defined.
